(** * Shallow embedding of the amphtml core helpers

    Four source modules are embedded:
    - [LayoutRect]: [layoutRectLtwh] and [moveLayoutRect] of the layout-rect
      helpers, and in [LayoutRectGeometry] their [layoutRectFromDomRect],
      [rectsOverlap], [layoutRectsRelativePos] and
      [layoutPositionRelativeToScrolledViewport];
    - [Loading]: [Loading_Enum], [ORDER], [MAP] and [reducer] of the loading
      instructions;
    - [ViewportObserver]: [createViewportObserver], [observeIntersections],
      [unobserveIntersections] and [ioCallback] of
      [core/dom/layout/viewport-observer.js].
    - [Objects]: [isObject], [map], [hasOwn], [ownProperty], [omit],
      [recreateNonProtoObject] and [getValueForExpr] of the object helpers,
      and in [DeepMerge] and [Memo] their [deepMerge] and [memo].

    JavaScript objects that the code shares and mutates (layout rects that
    are returned as they came in, the per-element callback arrays, the
    per-window observers) live in explicit heaps and are named by
    references, so that "the same object" is a statement about references. *)

From stdpp Require Import base option list gmap sets strings.
From stdpp Require Import pretty.
From Stdlib Require Import ZArith Lia.

(* ===================================================================== *)
(** * Layout rects *)
(* ===================================================================== *)

Module LayoutRect.

(** JavaScript numbers are kept abstract: the code below only adds them
    and compares them with [0] through [==]. *)
Class JsNumber (number : Type) := {
  add : number -> number -> number;
  (** [eqZero x] is the JavaScript test [x == 0] on a number. *)
  eqZero : number -> bool;
}.

(** [LayoutRectDef]: the typedef of the source. *)
Record LayoutRectDef (number : Type) := {
  left : number;
  top : number;
  width : number;
  height : number;
  bottom : number;
  right : number;
  x : number;
  y : number;
}.

Arguments left {number} _.
Arguments top {number} _.
Arguments width {number} _.
Arguments height {number} _.
Arguments bottom {number} _.
Arguments right {number} _.
Arguments x {number} _.
Arguments y {number} _.

Section WithNumbers.

Context `{JsNumber number}.

(** Rect objects live in a heap, a [gmap nat (LayoutRectDef number)];
    a reference (a [nat]) names one. *)

(** The object literal that [layoutRectLtwh] returns. *)
Definition layoutRectLtwh_literal (l t w h : number) : LayoutRectDef number :=
  {| left := l; top := t; width := w; height := h;
     bottom := add t h; right := add l w; x := l; y := t |}.

(** [layoutRectLtwh(left, top, width, height)]: allocates the literal. *)
Definition layoutRectLtwh (l t w h : number) (hp : gmap nat (LayoutRectDef number))
  : nat * gmap nat (LayoutRectDef number) :=
  let r := fresh (dom hp) in
  (r, <[r := layoutRectLtwh_literal l t w h]> hp).

(** [moveLayoutRect(rect, dx, dy)].  Reading a property of a reference
    that names no object does not happen for a [LayoutRectDef] argument;
    the embedding answers [None] there. *)
Definition moveLayoutRect (rect : nat) (dx dy : number)
    (hp : gmap nat (LayoutRectDef number))
  : option (nat * gmap nat (LayoutRectDef number)) :=
  match hp !! rect with
  | None => None
  | Some o =>
      if (eqZero dx && eqZero dy) || (eqZero (width o) && eqZero (height o))
      then Some (rect, hp)
      else Some (layoutRectLtwh (add (left o) dx) (add (top o) dy)
                                (width o) (height o) hp)
  end.

End WithNumbers.

(** The instance used for concrete evaluation: integers. *)
#[global] Instance Z_JsNumber : JsNumber Z :=
  {| add := Z.add; eqZero := fun n => Z.eqb n 0 |}.

(** A heap with one rect of size zero at reference [0] and one rect of
    size 3 x 4 at reference [1]. *)
Definition sample_heap : gmap nat (LayoutRectDef Z) :=
  <[1 := layoutRectLtwh_literal 10%Z 20%Z 3%Z 4%Z]>
    (<[0 := layoutRectLtwh_literal 5%Z 6%Z 0%Z 0%Z]> ∅).

End LayoutRect.

(* ===================================================================== *)
(** * Loading instructions *)
(* ===================================================================== *)

Module Loading.

Local Open Scope string_scope.

(** [Loading_Enum] is an enum of strings. *)
Definition AUTO : string := "auto".
Definition LAZY : string := "lazy".
Definition EAGER : string := "eager".
Definition UNLOAD : string := "unload".

(** [ORDER]: an array of the four enum values. *)
Definition ORDER : list string := [AUTO; LAZY; EAGER; UNLOAD].

(** What a property read on [MAP] can give: one of the numbers stored in
    the literal, or a built-in (function or object) of [Object.prototype].
    [None] stands for [undefined]. *)
Inductive Property :=
  | PNumber (n : nat)
  | PBuiltin (name : string).

(** The own properties of the object literal [MAP]. *)
Definition MAP_own : list (string * nat) :=
  [(AUTO, 0); (LAZY, 1); (EAGER, 2); (UNLOAD, 3)].

(** [MAP] is written as an object literal, so its prototype is
    [Object.prototype]; these are the property names that every such
    object inherits (ECMAScript, with Annex B). *)
Definition Object_prototype : list string :=
  ["constructor"; "__defineGetter__"; "__defineSetter__"; "hasOwnProperty";
   "__lookupGetter__"; "__lookupSetter__"; "isPrototypeOf";
   "propertyIsEnumerable"; "toString"; "valueOf"; "__proto__";
   "toLocaleString"].

Fixpoint assoc (key : string) (l : list (string * nat)) : option nat :=
  match l with
  | [] => None
  | (k, v) :: rest => if String.eqb k key then Some v else assoc key rest
  end.

(** [MAP[key]]: own properties first, then the prototype. *)
Definition MAP_get (key : string) : option Property :=
  match assoc key MAP_own with
  | Some n => Some (PNumber n)
  | None =>
      if existsb (String.eqb key) Object_prototype
      then Some (PBuiltin key)
      else None
  end.

(** [v || 0]: [undefined] and [0] are falsy, a non-zero number and any
    function or object are truthy. *)
Definition orZero (v : option Property) : Property :=
  match v with
  | None => PNumber 0
  | Some (PNumber 0) => PNumber 0
  | Some p => p
  end.

(** [ToNumber]: a function or a plain object converts to [NaN], written
    [None]. *)
Definition toNumber (p : Property) : option nat :=
  match p with
  | PNumber n => Some n
  | PBuiltin _ => None
  end.

(** [Math.max(a, b)]: [NaN] as soon as one argument converts to [NaN]. *)
Definition Math_max (a b : Property) : option nat :=
  match toNumber a, toNumber b with
  | Some m, Some n => Some (Nat.max m n)
  | _, _ => None
  end.

(** [ORDER[ordinal]]: [undefined] (here [None]) for [NaN] and for an index
    outside the array. *)
Definition ORDER_get (ordinal : option nat) : option string :=
  match ordinal with
  | Some n => ORDER !! n
  | None => None
  end.

(** [reducer(v1, v2)]; [None] is the JavaScript value [undefined]. *)
Definition reducer (v1 v2 : string) : option string :=
  let ordinal1 := orZero (MAP_get v1) in
  let ordinal2 := orZero (MAP_get v2) in
  let ordinal := Math_max ordinal1 ordinal2 in
  ORDER_get ordinal.

(** The priority the source documents: auto -> lazy -> eager -> unload,
    anything else counting as auto. *)
Definition priority (v : string) : nat :=
  if String.eqb v LAZY then 1
  else if String.eqb v EAGER then 2
  else if String.eqb v UNLOAD then 3
  else 0.

Definition isLoadingEnum (v : option string) : Prop :=
  v = Some AUTO \/ v = Some LAZY \/ v = Some EAGER \/ v = Some UNLOAD.

Definition inherited (v : string) : bool :=
  existsb (String.eqb v) Object_prototype.

End Loading.

(* ===================================================================== *)
(** * The viewport observer *)
(* ===================================================================== *)

Module ViewportObserver.

(** Windows, elements, documents and callback functions are JavaScript
    objects compared by identity; each is named by a number.  References
    into the two heaps of the state are numbers as well. *)
Abbreviation Window := nat (only parsing).
Abbreviation Element := nat (only parsing).
Abbreviation Document := nat (only parsing).
Abbreviation Callback := nat (only parsing).
Abbreviation Ref := nat (only parsing).

(** The part of an [IntersectionObserverEntry] that the code reads
    ([target]) and one field of visibility data. *)
Record IntersectionObserverEntry := {
  target : Element;
  intersectionRatio : nat;
}.

#[global] Instance IntersectionObserverEntry_eq_dec :
  EqDecision IntersectionObserverEntry.
Proof. solve_decision. Defined.

(** The [threshold] option: a number or an array of numbers.  The module
    never computes with these numbers; an integer (a ratio in thousandths)
    stands for each. *)
Inductive ThresholdDef :=
  | ThresholdNumber (x : Z)
  | ThresholdArray (xs : list Z).

(** The options object of [createViewportObserver]; an absent property is
    [None]. *)
Record ViewportObserverOpts := {
  needsRootBounds : option bool;
  threshold : option ThresholdDef;
}.

(** The function handed to the [IntersectionObserver] constructor. *)
Inductive DispatchFn :=
  | ioCallbackFn
  | otherFn (n : nat).

(** An [IntersectionObserver] object: what it was constructed with and
    the elements it currently watches. *)
Record IntersectionObserver := {
  io_callback : DispatchFn;
  io_win : Window;
  io_threshold : option ThresholdDef;
  io_root : option Document;
  io_targets : gset nat;
}.

(** What the platform and the subscribers see happen, oldest first. *)
Inductive Event :=
  | EvNew (o : Ref) (win : Window)
  | EvObserve (o : Ref) (element : Element)
  | EvUnobserve (o : Ref) (element : Element)
  | EvCall (callback : Callback) (entry : IntersectionObserverEntry).

#[global] Instance Event_eq_dec : EqDecision Event.
Proof. solve_decision. Defined.

(** The closure [() => { unobserveIntersections(element, callback); }]
    that [observeIntersections] returns: its two captured variables. *)
Record UnlistenCallback := {
  un_element : Element;
  un_callback : Callback;
}.

(** What the body of a subscriber's callback can do to this module: call
    [observeIntersections] or call a closure it returned. *)
Inductive Action :=
  | CallObserve (element : Element) (callback : Callback)
  | CallUnlisten (u : UnlistenCallback).

(** The imports of the module and the properties of a window it reads. *)
Class Host := {
  (** [getWin] of [#core/window] *)
  getWin : Element -> Window;
  (** [isIframed] of [#core/dom] *)
  isIframed : Window -> bool;
  (** [win.document] *)
  document : Window -> Document;
}.

(** The subscribers' callback functions.  A callback is foreign code: it
    runs when the dispatcher calls it, sees the entry, may keep state of
    its own (here: it may depend on everything that happened so far) and
    may call back into this module. *)
Class Subscribers := {
  body : Callback -> list Event -> IntersectionObserverEntry -> list Action;
}.

(** The module state: the two [WeakMap]s, the heap of observers, the heap
    of callback arrays, and the events so far.  A [WeakMap] behaves as a
    map for keys that are still referenced, and the windows and elements
    named in a run are. *)
Record State := {
  viewportObservers : gmap nat nat;
  viewportCallbacks : gmap nat nat;
  observers : gmap nat IntersectionObserver;
  arrays : gmap nat (list nat);
  trace : list Event;
}.

Definition initial : State :=
  {| viewportObservers := ∅; viewportCallbacks := ∅;
     observers := ∅; arrays := ∅; trace := [] |}.

Definition log (ev : Event) (st : State) : State :=
  {| viewportObservers := viewportObservers st;
     viewportCallbacks := viewportCallbacks st;
     observers := observers st;
     arrays := arrays st;
     trace := trace st ++ [ev] |}.

Definition set_viewportObservers (m : gmap nat nat) (st : State) : State :=
  {| viewportObservers := m;
     viewportCallbacks := viewportCallbacks st;
     observers := observers st;
     arrays := arrays st;
     trace := trace st |}.

Definition set_viewportCallbacks (m : gmap nat nat) (st : State) : State :=
  {| viewportObservers := viewportObservers st;
     viewportCallbacks := m;
     observers := observers st;
     arrays := arrays st;
     trace := trace st |}.

Definition set_observers (m : gmap nat IntersectionObserver) (st : State)
  : State :=
  {| viewportObservers := viewportObservers st;
     viewportCallbacks := viewportCallbacks st;
     observers := m;
     arrays := arrays st;
     trace := trace st |}.

Definition set_arrays (m : gmap nat (list nat)) (st : State) : State :=
  {| viewportObservers := viewportObservers st;
     viewportCallbacks := viewportCallbacks st;
     observers := observers st;
     arrays := m;
     trace := trace st |}.

(** ** The platform primitive *)

(** [new win.IntersectionObserver(callback, {threshold, root})]. *)
Definition IntersectionObserver_new (win : Window) (callback : DispatchFn)
    (thr : option ThresholdDef) (root : option Document) (st : State)
  : Ref * State :=
  let o := fresh (dom (observers st)) in
  let obj := {| io_callback := callback; io_win := win; io_threshold := thr;
                io_root := root; io_targets := ∅ |} in
  (o, log (EvNew o win) (set_observers (<[o := obj]> (observers st)) st)).

Definition add_target (element : Element) (obj : IntersectionObserver)
  : IntersectionObserver :=
  {| io_callback := io_callback obj; io_win := io_win obj;
     io_threshold := io_threshold obj; io_root := io_root obj;
     io_targets := {[element]} ∪ io_targets obj |}.

Definition remove_target (element : Element) (obj : IntersectionObserver)
  : IntersectionObserver :=
  {| io_callback := io_callback obj; io_win := io_win obj;
     io_threshold := io_threshold obj; io_root := io_root obj;
     io_targets := io_targets obj ∖ {[element]} |}.

(** [o.observe(element)]: watching a watched element changes nothing. *)
Definition IntersectionObserver_observe (o : Ref) (element : Element)
    (st : State) : State :=
  log (EvObserve o element)
      (set_observers (alter (add_target element) o (observers st)) st).

(** [o.unobserve(element)]. *)
Definition IntersectionObserver_unobserve (o : Ref) (element : Element)
    (st : State) : State :=
  log (EvUnobserve o element)
      (set_observers (alter (remove_target element) o (observers st)) st).

(** ** Arrays *)

(** The array a reference names; its length and its items are read from
    the heap each time, as the code reads them from the object. *)
Definition array_at (a : Ref) (st : State) : list nat := arrays st !!! a.

(** [[]]: a new empty array. *)
Definition Array_new (st : State) : Ref * State :=
  let a := fresh (dom (arrays st)) in
  (a, set_arrays (<[a := []]> (arrays st)) st).

(** [a.push(item)]. *)
Definition Array_push (a : Ref) (item : nat) (st : State) : State :=
  set_arrays (<[a := array_at a st ++ [item]]> (arrays st)) st.

(** Modelled from the spec: [removeItem] of [#core/types/array] is not
    among the sources; it removes the first occurrence of a value from an
    ordered sequence and reports whether removal occurred.  [None] is the
    answer [false] (nothing removed), [Some l] is the answer [true] with
    [l] the items that stay. *)
Fixpoint removeItem_items (items : list nat) (item : nat)
  : option (list nat) :=
  match items with
  | [] => None
  | i :: rest =>
      if decide (i = item) then Some rest
      else match removeItem_items rest item with
           | Some rest' => Some (i :: rest')
           | None => None
           end
  end.

(** [removeItem(array, item)] on the array object. *)
Definition removeItem (a : Ref) (item : nat) (st : State) : bool * State :=
  match removeItem_items (array_at a st) item with
  | Some items => (true, set_arrays (<[a := items]> (arrays st)) st)
  | None => (false, st)
  end.

(** ** The module *)

Definition default_opts : ViewportObserverOpts :=
  {| needsRootBounds := None; threshold := None |}.

(** Truthiness of a [boolean|undefined]. *)
Definition truthy (b : option bool) : bool :=
  match b with
  | Some true => true
  | _ => false
  end.

Section Source.

Context `{Host}.

(** [createViewportObserver(ioCallback, win, opts = {})]; an absent
    third argument is [None]. *)
Definition createViewportObserver (ioCallback : DispatchFn) (win : Window)
    (opts : option ViewportObserverOpts) (st : State) : Ref * State :=
  let opts := default default_opts opts in
  let root :=
    if isIframed win && truthy (needsRootBounds opts)
    then Some (document win)
    else None in
  IntersectionObserver_new win ioCallback (threshold opts) root st.

(** [observeIntersections(element, callback)]. *)
Definition observeIntersections (element : Element) (callback : Callback)
    (st : State) : UnlistenCallback * State :=
  let win := getWin element in
  let '(viewportObserver, st) :=
    match viewportObservers st !! win with
    | Some o => (o, st)
    | None =>
        let '(o, st) := createViewportObserver ioCallbackFn win None st in
        (o, set_viewportObservers (<[win := o]> (viewportObservers st)) st)
    end in
  let '(callbacks, st) :=
    match viewportCallbacks st !! element with
    | Some a => (a, st)
    | None =>
        let '(a, st) := Array_new st in
        (a, set_viewportCallbacks (<[element := a]> (viewportCallbacks st))
                                  st)
    end in
  let st := Array_push callbacks callback st in
  let st := IntersectionObserver_observe viewportObserver element st in
  ({| un_element := element; un_callback := callback |}, st).

(** [unobserveIntersections(element, callback)]. *)
Definition unobserveIntersections (element : Element) (callback : Callback)
    (st : State) : State :=
  match viewportCallbacks st !! element with
  | None => st
  | Some callbacks =>
      let '(removed, st) := removeItem callbacks callback st in
      if negb removed then st
      else if negb (Nat.eqb (length (array_at callbacks st)) 0) then st
      else
        let win := getWin element in
        let st :=
          match viewportObservers st !! win with
          | Some viewportObserver =>
              IntersectionObserver_unobserve viewportObserver element st
          | None => st
          end in
        set_viewportCallbacks (delete element (viewportCallbacks st)) st
  end.

(** Calling the closure that [observeIntersections] returned. *)
Definition callUnlisten (u : UnlistenCallback) (st : State) : State :=
  unobserveIntersections (un_element u) (un_callback u) st.

Definition runAction (a : Action) (st : State) : State :=
  match a with
  | CallObserve element callback =>
      (observeIntersections element callback st).2
  | CallUnlisten u => callUnlisten u st
  end.

Definition runActions (acts : list Action) (st : State) : State :=
  foldl (fun st a => runAction a st) st acts.

Context `{Subscribers}.

(** [callback(entry)]: the call is recorded, then the body runs. *)
Definition invoke (callback : Callback) (entry : IntersectionObserverEntry)
    (st : State) : State :=
  runActions (body callback (trace st) entry) (log (EvCall callback entry) st).

(** The inner loop of [ioCallback],
    [for (let k = 0; k < callbacks.length; k++) callbacks[k](entry)],
    from index [k] on.  [callbacks] is the array object that was read
    from the registry before the loop; its length and items are read
    again at every turn.  A callback can make the array grow, so the
    loop need not end: [None] is "out of fuel". *)
Fixpoint callLoop (fuel : nat) (callbacks : Ref)
    (entry : IntersectionObserverEntry) (k : nat) (st : State)
  : option State :=
  match fuel with
  | O => None
  | S fuel =>
      match array_at callbacks st !! k with
      | None => Some st
      | Some callback =>
          callLoop fuel callbacks entry (S k) (invoke callback entry st)
      end
  end.

(** The outer loop of [ioCallback],
    [for (let i = entries.length - 1; i >= 0; i--)], with [n = i + 1]
    turns left and the set [seen]. *)
Fixpoint ioLoop (fuel : nat) (entries : list IntersectionObserverEntry)
    (n : nat) (seen : gset nat) (st : State) : option State :=
  match n with
  | O => Some st
  | S i =>
      match entries !! i with
      | None => Some st
      | Some entry =>
          if decide (target entry ∈ seen) then
            ioLoop fuel entries i seen st
          else
            let seen := {[target entry]} ∪ seen in
            match viewportCallbacks st !! target entry with
            | None => ioLoop fuel entries i seen st
            | Some callbacks =>
                match callLoop fuel callbacks entry 0 st with
                | None => None
                | Some st => ioLoop fuel entries i seen st
                end
            end
      end
  end.

(** [ioCallback(entries)]. *)
Definition ioCallback (fuel : nat) (entries : list IntersectionObserverEntry)
    (st : State) : option State :=
  ioLoop fuel entries (length entries) ∅ st.

(** ** Runs of the module *)

(** One step of a run: a registration, a call of a returned closure, a
    whole batch delivered by the platform, or, inside a dispatch, the
    dispatcher calling one callback (what the body of that callback does
    next are steps of the first two kinds).  So the states in the middle
    of a dispatch are states of a run as well. *)
Inductive step : State -> State -> Prop :=
  | step_observe element callback st :
      step st (observeIntersections element callback st).2
  | step_unlisten u st :
      step st (callUnlisten u st)
  | step_dispatch fuel entries st st' :
      ioCallback fuel entries st = Some st' ->
      step st st'
  | step_call callback entry st :
      step st (log (EvCall callback entry) st).

Definition reachable (st : State) : Prop := rtc step initial st.

End Source.

(** ** Reading a state and its events *)

(** The callbacks registered for an element, in the order of its array;
    none when the element has no entry in the registry. *)
Definition callbacksOf (st : State) (element : Element) : list nat :=
  match viewportCallbacks st !! element with
  | Some a => array_at a st
  | None => []
  end.

(** The observers that were constructed for a window, oldest first. *)
Definition created (tr : list Event) (win : Window) : list nat :=
  omap (fun ev =>
          match ev with
          | EvNew o w => if decide (w = win) then Some o else None
          | _ => None
          end) tr.

(** Whether observer [o] watches [element] after the events [tr]:
    [observe] was called for it and [unobserve] was not called since. *)
Definition watching_step (o : Ref) (element : Element) (b : bool)
    (ev : Event) : bool :=
  match ev with
  | EvObserve o' e' => if decide (o' = o /\ e' = element) then true else b
  | EvUnobserve o' e' => if decide (o' = o /\ e' = element) then false else b
  | _ => b
  end.

Definition watching (tr : list Event) (o : Ref) (element : Element) : bool :=
  foldl (watching_step o element) false tr.

(** The records of a batch that are the last one for their target, in
    batch order: what a forward pass that keeps the last record per target
    would deliver. *)
Fixpoint lastPerTarget (entries : list IntersectionObserverEntry)
  : list IntersectionObserverEntry :=
  match entries with
  | [] => []
  | entry :: rest =>
      if decide (target entry ∈ target <$> rest) then lastPerTarget rest
      else entry :: lastPerTarget rest
  end.

(** The calls that a walk over [callbacks] with [entry] makes when no
    callback changes the array on the way. *)
Definition calls (callbacks : list nat) (entry : IntersectionObserverEntry)
  : list Event :=
  map (fun callback => EvCall callback entry) callbacks.

(** The state after the events [evs] were recorded and nothing else
    happened. *)
Definition logAll (evs : list Event) (st : State) : State :=
  {| viewportObservers := viewportObservers st;
     viewportCallbacks := viewportCallbacks st;
     observers := observers st;
     arrays := arrays st;
     trace := trace st ++ evs |}.

(** The scan of [ioCallback] as a list function: of the records [pending]
    (latest first), those whose target was not seen yet, each marking its
    target as seen. *)
Fixpoint selected (pending : list IntersectionObserverEntry)
    (seen : gset nat) : list IntersectionObserverEntry :=
  match pending with
  | [] => []
  | entry :: rest =>
      if decide (target entry ∈ seen) then selected rest seen
      else entry :: selected rest ({[target entry]} ∪ seen)
  end.

Section Delivery.

Context `{Host} `{Subscribers}.

(** One turn of the outer loop for a record that is not skipped: the
    walk over the array of its target, if the target has one. *)
Definition deliver (fuel : nat) (entry : IntersectionObserverEntry)
    (st : State) : option State :=
  match viewportCallbacks st !! target entry with
  | None => Some st
  | Some callbacks => callLoop fuel callbacks entry 0 st
  end.

(** The walks for a list of records, one after the other. *)
Fixpoint deliverAll (fuel : nat) (entries : list IntersectionObserverEntry)
    (st : State) : option State :=
  match entries with
  | [] => Some st
  | entry :: rest =>
      match deliver fuel entry st with
      | None => None
      | Some st => deliverAll fuel rest st
      end
  end.

(** A callback that does nothing to the module when it is called with
    [entry], whatever happened before. *)
Definition quiet (entry : IntersectionObserverEntry) (callback : nat)
  : Prop :=
  forall history, body callback history entry = [].

End Delivery.

(** The observer object that [observeIntersections] constructs. *)
Definition viewportObserver_object (win : nat) : IntersectionObserver :=
  {| io_callback := ioCallbackFn; io_win := win; io_threshold := None;
     io_root := None; io_targets := ∅ |}.

Section Outcomes.

Context `{Host}.

(** The three ways [unobserveIntersections] can go. *)
Inductive unobserve_outcome (element callback : nat) (st st' : State)
  : Prop :=
  | outcome_nothing :
      callback ∉ callbacksOf st element ->
      st' = st ->
      unobserve_outcome element callback st st'
  | outcome_others_remain a kept :
      viewportCallbacks st !! element = Some a ->
      removeItem_items (array_at a st) callback = Some kept ->
      kept <> [] ->
      st' = set_arrays (<[a := kept]> (arrays st)) st ->
      unobserve_outcome element callback st st'
  | outcome_last a :
      viewportCallbacks st !! element = Some a ->
      array_at a st = [callback] ->
      st' =
        set_viewportCallbacks (delete element (viewportCallbacks st))
          (match viewportObservers st !! getWin element with
           | Some o =>
               IntersectionObserver_unobserve o element
                 (set_arrays (<[a := []]> (arrays st)) st)
           | None => set_arrays (<[a := []]> (arrays st)) st
           end) ->
      unobserve_outcome element callback st st'.

(** A property that registrations, unregistrations and the record of a
    call keep is kept by whatever the subscribers' callbacks do, and so
    by a whole dispatch. *)
Definition kept_by_module (P : State -> Prop) : Prop :=
  (forall element callback st,
      P st -> P (observeIntersections element callback st).2)
  /\ (forall element callback st,
        P st -> P (unobserveIntersections element callback st))
  /\ (forall callback entry st, P st -> P (log (EvCall callback entry) st)).

End Outcomes.

(** What holds of every state the module can be in. *)
Record Inv `{Host} (st : State) : Prop := {
  (** an observer in the registry is an object of the heap, made for
      that window *)
  inv_registered : forall w o,
    viewportObservers st !! w = Some o ->
    exists obj, observers st !! o = Some obj /\ io_win obj = w;
  (** only observers of the heap were ever told to watch *)
  inv_allocated : forall o e,
    watching (trace st) o e = true -> is_Some (observers st !! o);
  (** the elements an observer holds are those it was told to watch *)
  inv_targets : forall o obj e,
    observers st !! o = Some obj ->
    (e ∈ io_targets obj <-> watching (trace st) o e = true);
  (** Invariant A *)
  inv_watched : forall e,
    e ∈ dom (viewportCallbacks st) <->
    exists o, viewportObservers st !! getWin e = Some o
              /\ watching (trace st) o e = true;
  (** one construction per window of the registry, none for the others *)
  inv_created : forall w,
    created (trace st) w =
    match viewportObservers st !! w with
    | Some o => [o]
    | None => []
    end;
}.

(** ** Sample hosts, subscribers and states *)

(** Elements 0..9 belong to window 0, elements 10..19 to window 1, and so
    on; window 1 is iframed. *)
Definition demoHost : Host :=
  {| getWin := fun element => element / 10;
     isIframed := fun win => Nat.eqb win 1;
     document := fun win => 100 + win |}.

(** Subscribers whose callbacks never call back into the module. *)
Definition quietSubscribers : Subscribers :=
  {| body := fun _ _ _ => [] |}.

(** Callback 1 is a one-shot subscriber: when called it calls the closure
    it got from [observeIntersections(entry.target, callback 1)].  Every
    other callback does nothing to the module. *)
Definition oneShotSubscribers : Subscribers :=
  {| body := fun callback _ entry =>
       if Nat.eqb callback 1
       then [CallUnlisten {| un_element := target entry; un_callback := 1 |}]
       else [] |}.

Definition record (element : Element) (ratio : nat)
  : IntersectionObserverEntry :=
  {| target := element; intersectionRatio := ratio |}.

(** Element 5 with callback 1 registered. *)
Definition state_1 : State :=
  (@observeIntersections demoHost 5 1 initial).2.

(** Element 5 with callback 1 registered, then callback 2. *)
Definition state_1_2 : State :=
  (@observeIntersections demoHost 5 2
     (@observeIntersections demoHost 5 1 initial).2).2.

(** Element 5 with callback 1 registered, then callback 2 twice. *)
Definition state_1_2_2 : State :=
  (@observeIntersections demoHost 5 2 state_1_2).2.

(** Element 5 with callback 7 registered twice. *)
Definition state_7_7 : State :=
  (@observeIntersections demoHost 5 7
     (@observeIntersections demoHost 5 7 initial).2).2.

End ViewportObserver.

(* ===================================================================== *)
(** * The viewport observer: more of what every state satisfies *)
(* ===================================================================== *)

Module ViewportObserverShape.
Import ViewportObserver.

(** The callback arrays of the registry: none is empty, each is an object
    of the heap, and no two elements hold the same one. *)
Record ArraysOwned (st : State) : Prop := {
  owned_nonempty : forall e a,
    viewportCallbacks st !! e = Some a ->
    array_at a st <> [] /\ is_Some (arrays st !! a);
  owned_unshared : forall e1 e2 a,
    viewportCallbacks st !! e1 = Some a ->
    viewportCallbacks st !! e2 = Some a ->
    e1 = e2;
}.

(** The observers of the window registry and the [observe] calls. *)
Record ObserversShaped `{Host} (st : State) : Prop := {
  (** the observer of a window is as [observeIntersections] made it and
      holds elements of that window only *)
  shaped_made : forall w o,
    viewportObservers st !! w = Some o ->
    exists obj,
      observers st !! o = Some obj
      /\ io_callback obj = ioCallbackFn
      /\ io_win obj = w
      /\ io_threshold obj = None
      /\ io_root obj = None
      /\ forall e, e ∈ io_targets obj -> getWin e = w;
  (** [observe] was only ever called on the observer of the element's
      window *)
  shaped_observed : forall o e,
    EvObserve o e ∈ trace st ->
    viewportObservers st !! getWin e = Some o;
  (** the observer of a window was told to watch an element of it *)
  shaped_used : forall w o,
    viewportObservers st !! w = Some o ->
    exists e, EvObserve o e ∈ trace st /\ getWin e = w;
}.

(** Every callback answers a call by registering itself once more for
    the target of the record. *)
Definition reregistering `{Subscribers} (entry : IntersectionObserverEntry)
  : Prop :=
  forall callback history,
    body callback history entry = [CallObserve (target entry) callback].

(** Subscribers that all do so. *)
Definition echoSubscribers : Subscribers :=
  {| body := fun callback _ entry => [CallObserve (target entry) callback] |}.

(** Callbacks 1 and 2 registered for element 5 of window 0 and callback 3
    for element 15 of window 1. *)
Definition state_two_windows : State :=
  (@observeIntersections demoHost 15 3 state_1_2).2.

End ViewportObserverShape.

(* ===================================================================== *)
(** * Object helpers *)
(* ===================================================================== *)

Module Objects.

Local Open Scope string_scope.

(** JavaScript numbers stay abstract here too: the helpers only make one
    from a length and test one for truthiness. *)
Class JsonNumber (number : Type) := {
  (** the number that is the length of an array or of a string *)
  numberOfNat : nat -> number;
  (** neither [0] nor [NaN] *)
  numberTruthy : number -> bool;
}.

(** The values the helpers are given: JSON-like data.  An object is its
    own enumerable properties, in enumeration order, and whether it has
    [Object.prototype] as its prototype ([true]: an object literal or a
    parsed object) or no prototype ([false]: made by [map()]).  The
    helpers modelled below read their arguments and build new objects;
    they change no object they were given, so values are trees. *)
#[local] Unset Elimination Schemes.
Inductive Json (number : Type) :=
  | JUndefined
  | JNull
  | JBool (b : bool)
  | JNumber (n : number)
  | JString (s : string)
  | JArray (items : list (Json number))
  | JObject (proto : bool) (props : list (string * Json number)).

#[local] Set Elimination Schemes.

Arguments JUndefined {number}.
Arguments JNull {number}.
Arguments JBool {number} b.
Arguments JNumber {number} n.
Arguments JString {number} s.
Arguments JArray {number} items.
Arguments JObject {number} proto props.

(** Whether a character is the dot. *)
Definition isDot (c : Ascii.ascii) : bool := String.eqb (String c "") ".".

Arguments isDot : simpl never.

(** [expr.split('.')]. *)
Fixpoint split_dot (s : string) : list string :=
  match s with
  | EmptyString => [""]
  | String c rest =>
      if isDot c then "" :: split_dot rest
      else match split_dot rest with
           | first :: others => String c first :: others
           | [] => [String c ""]
           end
  end.

(** The characters of a string, each as a string. *)
Fixpoint chars (s : string) : list string :=
  match s with
  | EmptyString => []
  | String c rest => String c "" :: chars rest
  end.

(** The item whose index, written in decimal, is [key]; [i] is the index
    of the first item of [items]. *)
Fixpoint itemAt {A : Type} (items : list A) (i : nat) (key : string)
  : option A :=
  match items with
  | [] => None
  | item :: rest =>
      if String.eqb (pretty i) key then Some item
      else itemAt rest (S i) key
  end.

(** The first binding of [key]. *)
Fixpoint assoc {A : Type} (key : string) (props : list (string * A))
  : option A :=
  match props with
  | [] => None
  | (k, v) :: rest => if String.eqb k key then Some v else assoc key rest
  end.

(** [obj[key] = v] on an object whose prototype defines no setter for
    [key]: the binding is replaced where it is, or added at the end.  The
    helpers assign the keys of an object in its enumeration order to a
    fresh object, so the order the engine keeps - index-like keys first -
    is the order of the list. *)
Fixpoint setProp {A : Type} (props : list (string * A)) (key : string)
    (v : A) : list (string * A) :=
  match props with
  | [] => [(key, v)]
  | (k, v0) :: rest =>
      if String.eqb k key then (k, v) :: rest
      else (k, v0) :: setProp rest key v
  end.

Section WithNumbers.

Context `{JsonNumber number}.

(** The own property [key] of a value: a binding of an object, an item or
    the length of an array, a character or the length of a string. *)
Definition ownProp (value : Json number) (key : string)
  : option (Json number) :=
  match value with
  | JObject _ props => assoc key props
  | JArray items =>
      if String.eqb key "length"
      then Some (JNumber (numberOfNat (length items)))
      else itemAt items 0 key
  | JString s =>
      if String.eqb key "length"
      then Some (JNumber (numberOfNat (String.length s)))
      else JString <$> itemAt (chars s) 0 key
  | _ => None
  end.

(** [Object.keys(o)] and the keys [for (const k in o)] gives that pass
    [hasOwn(o, k)]: the own enumerable keys. *)
Definition ownKeys (value : Json number) : list string :=
  match value with
  | JObject _ props => props.*1
  | JArray items => pretty <$> seq 0 (length items)
  | JString s => pretty <$> seq 0 (String.length s)
  | _ => []
  end.

(** [isObject(value)]: [toString_.call(value) === '[object Object]']. *)
Definition isObject (value : Json number) : bool :=
  match value with
  | JObject _ _ => true
  | _ => false
  end.

(** [hasOwn(obj, key)] on a value other than [null] and [undefined], for
    which [hasOwnProperty] throws; the helpers below that call it have
    tested the value or enumerate its keys. *)
Definition hasOwn (obj : Json number) (key : string) : bool :=
  match ownProp obj key with
  | Some _ => true
  | None => false
  end.

(** [null] or [undefined]: the values that cannot be converted to an
    object. *)
Definition isNullish (value : Json number) : bool :=
  match value with
  | JUndefined | JNull => true
  | _ => false
  end.

(** [ownProperty(obj, key)]; [None] is the [TypeError] of [hasOwn] on
    [null] and [undefined]. *)
Definition ownProperty (obj : Json number) (key : string)
  : option (Json number) :=
  if isNullish obj then None
  else if hasOwn obj key then Some (default JUndefined (ownProp obj key))
  else Some JUndefined.

(** Truthiness. *)
Definition truthy (value : Json number) : bool :=
  match value with
  | JUndefined | JNull => false
  | JBool b => b
  | JNumber n => numberTruthy n
  | JString s => negb (String.eqb s "")
  | JArray _ | JObject _ _ => true
  end.

(** [Object.assign(obj, source)] on a prototype-less [obj]: the own
    enumerable properties of [source] are assigned in their order. *)
Definition Object_assign (obj : list (string * Json number))
    (source : Json number) : list (string * Json number) :=
  foldl (fun obj k => setProp obj k (default JUndefined (ownProp source k)))
        obj (ownKeys source).

(** [map(opt_initial)]; a call without argument passes [undefined]. *)
Definition map (opt_initial : Json number) : Json number :=
  JObject false
    (if truthy opt_initial then Object_assign [] opt_initial else []).

(** [typeof value == 'object']. *)
Definition typeofObject (value : Json number) : bool :=
  match value with
  | JNull | JArray _ | JObject _ _ => true
  | _ => false
  end.

Definition isUndefined (value : Json number) : bool :=
  match value with
  | JUndefined => true
  | _ => false
  end.

(** What the prototype chain of a value defines is left open:
    [inherits value key] says whether reading [key] through the
    prototypes of [value] gives something other than [undefined]. *)
Variable inherits : Json number -> string -> bool.

(** [value[part] !== undefined]: an own property shadows the
    prototypes. *)
Definition propDefined (value : Json number) (part : string) : bool :=
  match ownProp value part with
  | Some v => negb (isUndefined v)
  | None => inherits value part
  end.

(** The loop of [getValueForExpr] over the parts that are left. *)
Fixpoint navigate (parts : list string) (value : Json number)
  : Json number :=
  match parts with
  | [] => value
  | part :: rest =>
      if negb (String.eqb part "")
         && truthy value
         && propDefined value part
         && typeofObject value
         && hasOwn value part
      then navigate rest (default JUndefined (ownProp value part))
      else JUndefined
  end.

(** [getValueForExpr(obj, expr)]. *)
Definition getValueForExpr (obj : Json number) (expr : string)
  : Json number :=
  if String.eqb expr "." then obj
  else navigate (split_dot expr) obj.

End WithNumbers.

Section Copies.

Context `{JsonNumber number}.

(** [recreateNonProtoObject(obj)]: the loop [for (const k in obj)] with
    its [hasOwn] test runs over the own enumerable keys; [copy] starts as
    [map()]. *)
Fixpoint recreateNonProtoObject (obj : Json number) : Json number :=
  match obj with
  | JObject _ props =>
      JObject false
        (foldl (fun copy kv =>
                  setProp copy kv.1
                    (match kv.2 with
                     | JObject _ _ => recreateNonProtoObject kv.2
                     | v => v
                     end))
               [] props)
  | JArray items =>
      JObject false
        (foldl (fun copy kv => setProp copy kv.1 kv.2) []
               (zip (pretty <$> seq 0 (length items))
                    ((fun v => match v with
                               | JObject _ _ => recreateNonProtoObject v
                               | v => v
                               end) <$> items)))
  | JString s =>
      JObject false
        (foldl (fun copy kv => setProp copy kv.1 kv.2) []
               (zip (pretty <$> seq 0 (String.length s))
                    (JString <$> chars s)))
  | _ => JObject false []
  end.

(** [omit(o, props)]: [Object.keys(o).reduce(..., {})]; [None] is the
    [TypeError] of [Object.keys] on [null] and [undefined].  The
    assignment [acc[key] = o[key]] is the ordinary one for every key but
    ["__proto__"], which the accumulator, an object literal, treats as
    its prototype setter: the theorems about [omit] take an object that
    keeps no such key. *)
Definition omit (o : Json number) (props : list string)
  : option (Json number) :=
  if isNullish o then None
  else
    Some (JObject true
            (foldl (fun acc key =>
                      if negb (existsb (String.eqb key) props)
                      then setProp acc key
                             (default JUndefined (ownProp o key))
                      else acc)
                   [] (ownKeys o))).

(** Objects as the engine keeps them: no key twice, at any depth. *)
Fixpoint wellFormed (value : Json number) : Prop :=
  match value with
  | JObject _ props =>
      NoDup props.*1
      /\ (fix all (l : list (string * Json number)) : Prop :=
            match l with
            | [] => True
            | kv :: rest => wellFormed kv.2 /\ all rest
            end) props
  | JArray items =>
      (fix all (l : list (Json number)) : Prop :=
         match l with
         | [] => True
         | v :: rest => wellFormed v /\ all rest
         end) items
  | _ => True
  end.

(** What [recreateNonProtoObject] does to a property value. *)
Definition recreated (v : Json number) : Json number :=
  if isObject v then recreateNonProtoObject v else v.

End Copies.

(** Integers as numbers, for concrete evaluation. *)
#[global] Instance Z_JsonNumber : JsonNumber Z :=
  {| numberOfNat := Z.of_nat; numberTruthy := fun n => negb (Z.eqb n 0) |}.

(** Prototypes as in a page nobody tampered with: objects with a
    prototype, arrays and strings inherit [toString] and [valueOf]. *)
Definition plainInherits (value : Json Z) (key : string) : bool :=
  match value with
  | JObject true _ | JArray _ | JString _ =>
      String.eqb key "toString" || String.eqb key "valueOf"
  | _ => false
  end.

(** [{a: {b: [10, 20], c: undefined}, d: "xy"}]. *)
Definition sample_props : list (string * Json Z) :=
  [("a", JObject true [("b", JArray [JNumber 10%Z; JNumber 20%Z]);
                       ("c", JUndefined)]);
   ("d", JString "xy")].

Definition sample : Json Z := JObject true sample_props.

(** No object reached through properties of objects has a prototype;
    what arrays hold is not looked at. *)
Fixpoint protoFree {number : Type} (value : Json number) : Prop :=
  match value with
  | JObject proto props =>
      proto = false
      /\ (fix all (l : list (string * Json number)) : Prop :=
            match l with
            | [] => True
            | kv :: rest => protoFree kv.2 /\ all rest
            end) props
  | _ => True
  end.

(** [{a: {b: [{c: 1}]}, n: 2}]: an object in an object and an object in
    an array. *)
Definition nested_props : list (string * Json Z) :=
  [("a", JObject true
           [("b", JArray [JObject true [("c", JNumber 1%Z)]])]);
   ("n", JNumber 2%Z)].

Definition nested : Json Z := JObject true nested_props.

End Objects.

(* ===================================================================== *)
(** * Layout rects: comparisons *)
(* ===================================================================== *)

Module LayoutRectGeometry.
Import LayoutRect.

Local Open Scope string_scope.

(** What the comparing helpers need of JavaScript numbers besides [add]:
    the number [0], [NaN], the comparisons [a <= b] and [a < b], and the
    three facts about [NaN] that IEEE 754 arithmetic gives them. *)
Class JsOrderedNumber (number : Type) `{JsNumber number} := {
  zero : number;
  NaN : number;
  (** [jsLe a b] is [a <= b] *)
  jsLe : number -> number -> bool;
  (** [jsLt a b] is [a < b] *)
  jsLt : number -> number -> bool;
  add_NaN_r : forall a, add a NaN = NaN;
  jsLe_NaN_r : forall a, jsLe a NaN = false;
  jsLt_NaN_l : forall a, jsLt NaN a = false;
}.

(** An object read as a [ClientRect]: each property is a number or is
    missing, and then reads as [undefined]. *)
Record ClientRect (number : Type) := {
  rectTop : option number;
  rectBottom : option number;
  rectLeft : option number;
  rectRight : option number;
  rectWidth : option number;
  rectHeight : option number;
}.

Arguments rectTop {number} _.
Arguments rectBottom {number} _.
Arguments rectLeft {number} _.
Arguments rectRight {number} _.
Arguments rectWidth {number} _.
Arguments rectHeight {number} _.

(** [ViewportInterfaceDef]: what its two getters return. *)
Record ViewportInterfaceDef (number : Type) := {
  getHeight : number;
  getWidth : number;
}.

Arguments getHeight {number} _.
Arguments getWidth {number} _.

(** [RelativePositions_Enum]. *)
Definition INSIDE : string := "inside".
Definition TOP : string := "top".
Definition BOTTOM : string := "bottom".

Section WithNumbers.

Context `{JsOrderedNumber number}.

(** [a > b]. *)
Definition jsGt (a b : number) : bool := jsLt b a.

(** [Number(v)] for a number or [undefined]. *)
Definition Number_ (v : option number) : number :=
  match v with
  | Some n => n
  | None => NaN
  end.

(** [layoutRectFromDomRect(rect)].  The rects of this module are read
    where they were made and handed to nobody else, so they are values
    here: the object literal of [layoutRectLtwh]. *)
Definition layoutRectFromDomRect (rect : ClientRect number)
  : LayoutRectDef number :=
  layoutRectLtwh_literal
    (Number_ (rectLeft rect))
    (Number_ (rectTop rect))
    (Number_ (rectWidth rect))
    (Number_ (rectHeight rect)).

(** [rectsOverlap(r1, r2)]. *)
Definition rectsOverlap (r1 r2 : LayoutRectDef number) : bool :=
  jsLe (top r1) (bottom r2)
  && jsLe (top r2) (bottom r1)
  && jsLe (left r1) (right r2)
  && jsLe (left r2) (right r1).

(** [layoutRectsRelativePos(r1, r2)]. *)
Definition layoutRectsRelativePos (r1 r2 : LayoutRectDef number) : string :=
  if jsLt (top r1) (top r2) then TOP
  else if jsGt (bottom r1) (bottom r2) then BOTTOM
  else INSIDE.

(** [layoutPositionRelativeToScrolledViewport(layoutBox, viewport,
    scrollPos)]. *)
Definition layoutPositionRelativeToScrolledViewport
    (layoutBox : LayoutRectDef number) (viewport : ViewportInterfaceDef number)
    (scrollPos : number) : string :=
  let scrollLayoutBox :=
    layoutRectFromDomRect
      {| rectTop := Some scrollPos;
         rectBottom := Some (add scrollPos (getHeight viewport));
         rectLeft := Some zero;
         rectRight := Some (getWidth viewport);
         rectWidth := None;
         rectHeight := None |} in
  if rectsOverlap layoutBox scrollLayoutBox then INSIDE
  else layoutRectsRelativePos layoutBox scrollLayoutBox.

End WithNumbers.

(** Integers and [NaN], for concrete evaluation: [None] is [NaN]. *)
#[global] Instance ZNaN_JsNumber : JsNumber (option Z) :=
  {| add := fun a b =>
              match a, b with
              | Some m, Some n => Some (m + n)%Z
              | _, _ => None
              end;
     eqZero := fun a =>
                 match a with
                 | Some n => Z.eqb n 0
                 | None => false
                 end |}.

#[global, refine] Instance ZNaN_JsOrderedNumber : JsOrderedNumber (option Z) :=
  {| zero := Some 0%Z;
     NaN := None;
     jsLe := fun a b =>
               match a, b with
               | Some m, Some n => Z.leb m n
               | _, _ => false
               end;
     jsLt := fun a b =>
               match a, b with
               | Some m, Some n => Z.ltb m n
               | _, _ => false
               end |}.
Proof.
- by intros [m |].
- by intros [m |].
- done.
Defined.

(** A box 50 high at 1000 from the top, and a viewport 100 high. *)
Definition box_below : LayoutRectDef (option Z) :=
  layoutRectLtwh_literal (Some 0%Z) (Some 1000%Z) (Some 10%Z) (Some 50%Z).

Definition small_viewport : ViewportInterfaceDef (option Z) :=
  {| getHeight := Some 100%Z; getWidth := Some 10%Z |}.

End LayoutRectGeometry.

(* ===================================================================== *)
(** * Object helpers: deepMerge *)
(* ===================================================================== *)

Module DeepMerge.

Local Open Scope string_scope.

(** [deepMerge] changes the objects it is given and compares them with
    [===], so objects live in a heap and a value names one by its
    reference.  The other values are [undefined] and the primitives
    ([null], booleans, numbers, strings), of which [deepMerge] only asks
    whether they are objects, which they are not; they stay abstract. *)
Inductive Value (primitive : Type) :=
  | VUndefined
  | VPrimitive (p : primitive)
  | VRef (r : nat).

Arguments VUndefined {primitive}.
Arguments VPrimitive {primitive} p.
Arguments VRef {primitive} r.

(** A heap object: whether [isObject] is true of it ([plain]; an array,
    a function, a date is in the heap too and is not), and its own
    properties in enumeration order, all of them enumerable data
    properties. *)
Record Obj (primitive : Type) := {
  plain : bool;
  props : list (string * Value primitive);
}.

Arguments plain {primitive} _.
Arguments props {primitive} _.

(** [DeepMergeTuple]: [{t: Object, s: Object, d: number}]. *)
Record DeepMergeTuple := {
  t : nat;
  s : nat;
  d : nat;
}.

(** How a call ends: [return target], or the [Error] it throws; either
    way with the heap it leaves. *)
Inductive Outcome (primitive : Type) :=
  | Returned (target : nat) (hp : gmap nat (Obj primitive))
  | Thrown (message : string) (hp : gmap nat (Obj primitive)).

Arguments Returned {primitive} target hp.
Arguments Thrown {primitive} message hp.

Definition circular : string := "Source object has a circular reference.".

Section WithPrimitives.

Context {primitive : Type}.

(** The own property [key] of the object at [r]. *)
Definition getOwn (hp : gmap nat (Obj primitive)) (r : nat) (key : string)
  : option (Value primitive) :=
  match hp !! r with
  | Some o => Objects.assoc key (props o)
  | None => None
  end.

(** [obj[key]] for a key that [Object.keys(obj)] gave. *)
Definition read (hp : gmap nat (Obj primitive)) (r : nat) (key : string)
  : Value primitive :=
  default VUndefined (getOwn hp r key).

(** [Object.keys(obj)]. *)
Definition Object_keys (hp : gmap nat (Obj primitive)) (r : nat)
  : list string :=
  match hp !! r with
  | Some o => (props o).*1
  | None => []
  end.

(** [isObject(value)]. *)
Definition isObject (hp : gmap nat (Obj primitive)) (v : Value primitive)
  : bool :=
  match v with
  | VRef r =>
      match hp !! r with
      | Some o => plain o
      | None => false
      end
  | _ => false
  end.

(** [obj[key] = v] on the object at [r], for a key other than
    ["__proto__"], which an object with a prototype treats as a setter. *)
Definition setOwn (hp : gmap nat (Obj primitive)) (r : nat) (key : string)
    (v : Value primitive) : gmap nat (Obj primitive) :=
  match hp !! r with
  | Some o =>
      <[r := {| plain := plain o;
                props := Objects.setProp (props o) key v |}]> hp
  | None => hp
  end.

(** [Object.assign(t, s)] for two objects. *)
Definition Object_assign (hp : gmap nat (Obj primitive)) (target source : nat)
  : gmap nat (Obj primitive) :=
  foldl (fun hp key => setOwn hp target key (read hp source key))
        hp (Object_keys hp source).

(** One turn of [for (const key of Object.keys(s))], on the queue and
    the heap; [hasOwn(t, key)] is true when [getOwn] finds the key, and
    [oldValue] is what it finds. *)
Definition mergeKey (tuple : DeepMergeTuple)
    (acc : list DeepMergeTuple * gmap nat (Obj primitive)) (key : string)
  : list DeepMergeTuple * gmap nat (Obj primitive) :=
  let newValue := read acc.2 (s tuple) key in
  match getOwn acc.2 (t tuple) key with
  | Some oldValue =>
      if isObject acc.2 newValue && isObject acc.2 oldValue
      then match oldValue, newValue with
           | VRef old, VRef new =>
               ((acc.1 ++ [{| t := old; s := new; d := S (d tuple) |}])%list,
                acc.2)
           | _, _ => acc
           end
      else (acc.1, setOwn acc.2 (t tuple) key newValue)
  | None => (acc.1, setOwn acc.2 (t tuple) key newValue)
  end.

(** The [while (queue.length > 0)] loop; [fuel] bounds the number of
    turns, and the answer says whether the error was thrown. *)
Fixpoint whileQueue (fuel : nat) (depth : Z) (seen : list nat)
    (queue : list DeepMergeTuple) (hp : gmap nat (Obj primitive))
  : option (bool * gmap nat (Obj primitive)) :=
  match queue with
  | [] => Some (false, hp)
  | tuple :: queue =>
      match fuel with
      | 0 => None
      | S fuel =>
          if bool_decide (s tuple ∈ seen) then Some (true, hp)
          else
            let seen := (seen ++ [s tuple])%list in
            if Nat.eqb (t tuple) (s tuple)
            then whileQueue fuel depth seen queue hp
            else if (depth <? Z.of_nat (d tuple))%Z
            then whileQueue fuel depth seen queue
                   (Object_assign hp (t tuple) (s tuple))
            else
              let acc := foldl (mergeKey tuple) (queue, hp)
                               (Object_keys hp (s tuple)) in
              whileQueue fuel depth seen acc.1 acc.2
      end
  end.

(** [deepMerge(target, source, depth)]. *)
Definition deepMerge (fuel : nat) (target source : nat) (depth : Z)
    (hp : gmap nat (Obj primitive)) : option (Outcome primitive) :=
  match whileQueue fuel depth [] [{| t := target; s := source; d := 0 |}] hp
  with
  | Some (false, hp') => Some (Returned target hp')
  | Some (true, hp') => Some (Thrown circular hp')
  | None => None
  end.

(** What a turn of the loop over the keys of [s] puts on the queue for
    [key], read off the heap the loop started with. *)
Definition pushed (hp : gmap nat (Obj primitive)) (tuple : DeepMergeTuple)
    (key : string) : list DeepMergeTuple :=
  match getOwn hp (t tuple) key, getOwn hp (s tuple) key with
  | Some (VRef old), Some (VRef new) =>
      if isObject hp (VRef new) && isObject hp (VRef old)
      then [{| t := old; s := new; d := S (d tuple) |}]
      else []
  | _, _ => []
  end.

(** No object has an own property named ["__proto__"]: every assignment
    [t[key] = newValue] is an ordinary one. *)
Definition ordinaryKeys (hp : gmap nat (Obj primitive)) : Prop :=
  map_Forall (fun _ o => "__proto__" ∉ (props o).*1) hp.

(** The same objects, of the same kind: nothing made, nothing lost. *)
Definition sameObjects (hp1 hp2 : gmap nat (Obj primitive)) : Prop :=
  forall r, plain <$> hp1 !! r = plain <$> hp2 !! r.

End WithPrimitives.

(** The call without [depth]. *)
Definition default_depth : Z := 10%Z.

Definition object (ps : list (string * Value Z)) : Obj Z :=
  {| plain := true; props := ps |}.

(** [target = {a: {}, b: {}, n: 1}] at 0 and [source = {a: x, b: x}] at
    1, with the one object [x = {v: 5}] at 4: no cycle. *)
Definition shared_heap : gmap nat (Obj Z) :=
  <[0 := object [("a", VRef 2); ("b", VRef 3); ("n", VPrimitive 1%Z)]]>
    (<[1 := object [("a", VRef 4); ("b", VRef 4)]]>
       (<[2 := object []]>
          (<[3 := object []]>
             (<[4 := object [("v", VPrimitive 5%Z)]]> ∅)))).

(** A target at 0 and a source at 1 that each hold themselves under the
    key [a]. *)
Definition circular_heap : gmap nat (Obj Z) :=
  <[0 := object [("a", VRef 0)]]> (<[1 := object [("a", VRef 1)]]> ∅).

(** [target = {n: 1, m: 2}] at 0 and [source = {m: 3, k: {}}] at 1. *)
Definition flat_heap : gmap nat (Obj Z) :=
  <[0 := object [("n", VPrimitive 1%Z); ("m", VPrimitive 2%Z)]]>
    (<[1 := object [("m", VPrimitive 3%Z); ("k", VRef 2)]]>
       (<[2 := object []]> ∅)).

End DeepMerge.

(* ===================================================================== *)
(** * Object helpers: memo *)
(* ===================================================================== *)

Module Memo.
Import DeepMerge.

Section WithFactory.

Context {primitive : Type}.

(** What reading [key] through the prototypes of the object at [r]
    gives, [undefined] when they do not define it. *)
Variable inheritedValue :
  gmap nat (Obj primitive) -> nat -> string -> Value primitive.

(** [factory(obj, prop)]: the value it returns and the heap it leaves. *)
Variable factory :
  nat -> string -> gmap nat (Obj primitive)
  -> Value primitive * gmap nat (Obj primitive).

(** [obj[prop]]: an own property shadows the prototypes. *)
Definition get (hp : gmap nat (Obj primitive)) (obj : nat) (prop : string)
  : Value primitive :=
  match getOwn hp obj prop with
  | Some v => v
  | None => inheritedValue hp obj prop
  end.

(** [memo(obj, prop, factory)]: the result, the heap, and the calls of
    [factory] that were made. *)
Definition memo (obj : nat) (prop : string) (hp : gmap nat (Obj primitive))
  : Value primitive * gmap nat (Obj primitive) * list (nat * string) :=
  match get hp obj prop with
  | VUndefined =>
      let made := factory obj prop hp in
      (made.1, setOwn made.2 obj prop made.1, [(obj, prop)])
  | result => (result, hp, [])
  end.

End WithFactory.

(** A factory that counts the objects of the heap. *)
Definition countObjects (obj : nat) (prop : string)
    (hp : gmap nat (Obj Z)) : Value Z * gmap nat (Obj Z) :=
  (VPrimitive (Z.of_nat (size (dom hp))), hp).

(** Prototypes that define nothing: objects made by [map()]. *)
Definition noPrototype (hp : gmap nat (Obj Z)) (obj : nat) (prop : string)
  : Value Z :=
  VUndefined.

End Memo.

(* ===================================================================== *)
(** * Properties of the layout rects *)
(* ===================================================================== *)

Module LayoutRectFacts.
Import LayoutRect.

Section WithNumbers.

Context `{JsNumber number}.

(** The test of [moveLayoutRect], as a boolean. *)
Lemma moveLayoutRect_kept (hp : gmap nat (LayoutRectDef number))
    (rect : nat) (o : LayoutRectDef number) (dx dy : number) :
  hp !! rect = Some o ->
  (eqZero dx && eqZero dy) || (eqZero (width o) && eqZero (height o))
    = true ->
  moveLayoutRect rect dx dy hp = Some (rect, hp).
Proof.
  intros Hrect Htest. unfold moveLayoutRect. rewrite Hrect.
  rewrite Htest. reflexivity.
Qed.

Lemma layoutRectLtwh_fresh (hp : gmap nat (LayoutRectDef number))
    (l t w h : number) :
  hp !! (layoutRectLtwh l t w h hp).1 = None.
Proof.
  unfold layoutRectLtwh; simpl.
  apply not_elem_of_dom. apply is_fresh.
Qed.

End WithNumbers.

(** C10. [moveLayoutRect] hands back the very rect it was given, and
    leaves the heap as it was, when [dx] and [dy] are both zero and also
    when the rect's width and height are both zero, whatever [dx] and [dy]
    are; in every other case it hands back a newly allocated rect whose
    left and top are the old ones plus [dx] and [dy] and whose width and
    height are the old ones, the old rect staying as it was. *)
Theorem moveLayoutRect_cases `{JsNumber number}
    (hp : gmap nat (LayoutRectDef number)) (rect : nat)
    (o : LayoutRectDef number) (dx dy : number) :
  hp !! rect = Some o ->
  ((eqZero dx = true /\ eqZero dy = true) ->
     moveLayoutRect rect dx dy hp = Some (rect, hp))
  /\ ((eqZero (width o) = true /\ eqZero (height o) = true) ->
     moveLayoutRect rect dx dy hp = Some (rect, hp))
  /\ (~ (eqZero dx = true /\ eqZero dy = true) ->
      ~ (eqZero (width o) = true /\ eqZero (height o) = true) ->
      exists r o',
        moveLayoutRect rect dx dy hp = Some (r, <[r := o']> hp)
        /\ hp !! r = None
        /\ r <> rect
        /\ (<[r := o']> hp) !! rect = Some o
        /\ left o' = add (left o) dx
        /\ top o' = add (top o) dy
        /\ width o' = width o
        /\ height o' = height o).
Proof.
  intros Hrect. split; [| split].
  - intros [Hx Hy]. apply (moveLayoutRect_kept hp rect o); [done |].
    rewrite Hx, Hy. reflexivity.
  - intros [Hw Hh]. apply (moveLayoutRect_kept hp rect o); [done |].
    rewrite Hw, Hh. simpl. apply orb_true_r.
  - intros Hd Hs.
    assert (Htest : (eqZero dx && eqZero dy)
                    || (eqZero (width o) && eqZero (height o)) = false).
    { destruct (eqZero dx), (eqZero dy); simpl; try (exfalso; tauto);
        destruct (eqZero (width o)), (eqZero (height o)); simpl;
        try reflexivity; exfalso; tauto. }
    pose (r := fresh (dom hp)).
    assert (Hfresh : hp !! r = None).
    { apply not_elem_of_dom. apply is_fresh. }
    assert (Hne : r <> rect) by (intros ->; congruence).
    exists r, (layoutRectLtwh_literal (add (left o) dx) (add (top o) dy)
                                      (width o) (height o)).
    repeat split; try done.
    + unfold moveLayoutRect. rewrite Hrect, Htest. reflexivity.
    + rewrite lookup_insert_ne; done.
Qed.

(** The three cases of [moveLayoutRect_cases] on integers: a rect of size
    3 x 4 moved by (0, 0), a rect of size zero moved by (7, 8), and the
    rect of size 3 x 4 moved by (7, 8). *)
Lemma moveLayoutRect_cases_witness :
  moveLayoutRect 1 0%Z 0%Z sample_heap = Some (1, sample_heap)
  /\ moveLayoutRect 0 7%Z 8%Z sample_heap = Some (0, sample_heap)
  /\ exists r o',
       moveLayoutRect 1 7%Z 8%Z sample_heap = Some (r, <[r := o']> sample_heap)
       /\ left o' = 17%Z /\ top o' = 28%Z /\ width o' = 3%Z /\ height o' = 4%Z.
Proof.
  pose proof (moveLayoutRect_cases sample_heap 1
                (layoutRectLtwh_literal 10%Z 20%Z 3%Z 4%Z) 0%Z 0%Z
                eq_refl) as (Hstill & _ & _).
  pose proof (moveLayoutRect_cases sample_heap 0
                (layoutRectLtwh_literal 5%Z 6%Z 0%Z 0%Z) 7%Z 8%Z
                eq_refl) as (_ & Hempty & _).
  pose proof (moveLayoutRect_cases sample_heap 1
                (layoutRectLtwh_literal 10%Z 20%Z 3%Z 4%Z) 7%Z 8%Z
                eq_refl) as (_ & _ & Hmoved).
  split; [| split].
  - apply Hstill. split; reflexivity.
  - apply Hempty. split; reflexivity.
  - destruct Hmoved as (r & o' & Hm & _ & _ & _ & Hl & Ht & Hw & Hh).
    + simpl. intros [? ?]. discriminate.
    + simpl. intros [? ?]. discriminate.
    + exists r, o'. repeat split; assumption.
Defined.

End LayoutRectFacts.

(* ===================================================================== *)
(** * Properties of the comparisons of layout rects *)
(* ===================================================================== *)

Module LayoutRectGeometryFacts.
Import LayoutRect LayoutRectGeometry.

Section WithNumbers.

Context `{JsOrderedNumber number}.

(** The rect that [layoutRectFromDomRect] makes of an object without
    [width] and [height] has no bottom and no right edge. *)
Lemma layoutRectFromDomRect_edges (rect : ClientRect number) :
  rectWidth rect = None -> rectHeight rect = None ->
  top (layoutRectFromDomRect rect) = Number_ (rectTop rect)
  /\ left (layoutRectFromDomRect rect) = Number_ (rectLeft rect)
  /\ bottom (layoutRectFromDomRect rect) = NaN
  /\ right (layoutRectFromDomRect rect) = NaN.
Proof.
  intros Hw Hh. unfold layoutRectFromDomRect. simpl. rewrite Hw, Hh. simpl.
  by rewrite !add_NaN_r.
Qed.

Lemma rectsOverlap_NaN (r1 r2 : LayoutRectDef number) :
  bottom r1 = NaN \/ right r1 = NaN \/ bottom r2 = NaN \/ right r2 = NaN ->
  rectsOverlap r1 r2 = false.
Proof.
  unfold rectsOverlap.
  intros [Hnan | [Hnan | [Hnan | Hnan]]]; rewrite Hnan, jsLe_NaN_r;
    rewrite ?andb_false_r; reflexivity.
Qed.

(** X21. [rectsOverlap] does not depend on the order of its arguments, and
    it is false as soon as the bottom or the right edge of one of the
    rects is [NaN]. *)
Theorem rectsOverlap_symmetric_not_NaN (r1 r2 : LayoutRectDef number) :
  rectsOverlap r1 r2 = rectsOverlap r2 r1
  /\ (bottom r1 = NaN \/ right r1 = NaN \/ bottom r2 = NaN \/ right r2 = NaN ->
      rectsOverlap r1 r2 = false).
Proof.
  split; [| apply rectsOverlap_NaN].
  unfold rectsOverlap.
  destruct (jsLe (top r1) (bottom r2)), (jsLe (top r2) (bottom r1)),
    (jsLe (left r1) (right r2)), (jsLe (left r2) (right r1)); reflexivity.
Qed.

(** X22. [layoutPositionRelativeToScrolledViewport] never answers
    [BOTTOM], and its answer does not depend on the viewport: the rect it
    makes for the scrolled viewport is given no [width] and no [height],
    so its bottom and right edges are [NaN], nothing overlaps it and
    nothing is below it.  The answer is [TOP] when the top of the box is
    less than the scroll position, and [INSIDE] otherwise. *)
Theorem layoutPositionRelativeToScrolledViewport_never_bottom
    (layoutBox : LayoutRectDef number) (viewport : ViewportInterfaceDef number)
    (scrollPos : number) :
  layoutPositionRelativeToScrolledViewport layoutBox viewport scrollPos
  = (if jsLt (top layoutBox) scrollPos then TOP else INSIDE)
  /\ layoutPositionRelativeToScrolledViewport layoutBox viewport scrollPos
     <> BOTTOM
  /\ (forall viewport' : ViewportInterfaceDef number,
        layoutPositionRelativeToScrolledViewport layoutBox viewport' scrollPos
        = layoutPositionRelativeToScrolledViewport layoutBox viewport
            scrollPos).
Proof.
  assert (Hval : forall vp : ViewportInterfaceDef number,
             layoutPositionRelativeToScrolledViewport layoutBox vp scrollPos
             = if jsLt (top layoutBox) scrollPos then TOP else INSIDE).
  { intros vp. unfold layoutPositionRelativeToScrolledViewport.
    match goal with
    | |- context [layoutRectFromDomRect ?r] =>
        destruct (layoutRectFromDomRect_edges r eq_refl eq_refl)
          as (Htop & _ & Hbottom & _);
        rewrite (rectsOverlap_NaN layoutBox (layoutRectFromDomRect r))
          by (right; right; left; exact Hbottom);
        unfold layoutRectsRelativePos, jsGt;
        rewrite Htop, Hbottom
    end.
    simpl. by rewrite jsLt_NaN_l. }
  split; [apply Hval |]. split.
  - rewrite Hval. by destruct (jsLt (top layoutBox) scrollPos).
  - intros viewport'. by rewrite !Hval.
Qed.

End WithNumbers.

(** A box far below a viewport that is scrolled to the top is answered
    with [INSIDE]; [layoutRectsRelativePos] by itself tells [BOTTOM] for
    rects that have their edges. *)
Lemma layoutPositionRelativeToScrolledViewport_never_bottom_witness :
  layoutPositionRelativeToScrolledViewport box_below small_viewport (Some 0%Z)
  = INSIDE
  /\ layoutRectsRelativePos box_below
       (layoutRectLtwh_literal (Some 0%Z) (Some 0%Z) (Some 10%Z) (Some 100%Z))
     = BOTTOM.
Proof.
  split; [| reflexivity].
  exact (proj1 (layoutPositionRelativeToScrolledViewport_never_bottom
                  box_below small_viewport (Some 0%Z))).
Defined.

Lemma rectsOverlap_symmetric_not_NaN_witness :
  rectsOverlap box_below
    (layoutRectFromDomRect
       {| rectTop := Some (Some 0%Z); rectBottom := Some (Some 100%Z);
          rectLeft := Some (Some 0%Z); rectRight := Some (Some 10%Z);
          rectWidth := None; rectHeight := None |})
  = false.
Proof.
  apply (rectsOverlap_symmetric_not_NaN box_below). right. right. left.
  reflexivity.
Defined.

End LayoutRectGeometryFacts.

(* ===================================================================== *)
(** * Properties of the loading instructions *)
(* ===================================================================== *)

Module LoadingFacts.
Import Loading.
Local Open Scope string_scope.

Lemma Math_max_comm (a b : Property) : Math_max a b = Math_max b a.
Proof.
  unfold Math_max. destruct (toNumber a), (toNumber b); try reflexivity.
  f_equal. apply Nat.max_comm.
Qed.

(** [reducer] is commutative on all strings: [Math.max] is, [NaN]
    included. *)
Lemma reducer_comm (v1 v2 : string) : reducer v1 v2 = reducer v2 v1.
Proof. unfold reducer. rewrite Math_max_comm. reflexivity. Qed.

(** A string that [Object.prototype] does not define reads from [MAP] as
    its documented priority. *)
Lemma orZero_MAP_get (v : string) :
  inherited v = false -> orZero (MAP_get v) = PNumber (priority v).
Proof.
  intros Hv. unfold MAP_get.
  change (existsb (String.eqb v) Object_prototype) with (inherited v).
  rewrite Hv. unfold MAP_own, assoc, priority.
  destruct (String.eqb_spec AUTO v) as [<- | _]; [reflexivity |].
  destruct (String.eqb_spec LAZY v) as [<- | Hl]; [reflexivity |].
  destruct (String.eqb_spec v LAZY) as [-> | _]; [done |].
  destruct (String.eqb_spec EAGER v) as [<- | He]; [reflexivity |].
  destruct (String.eqb_spec v EAGER) as [-> | _]; [done |].
  destruct (String.eqb_spec UNLOAD v) as [<- | Hu]; [reflexivity |].
  destruct (String.eqb_spec v UNLOAD) as [-> | _]; [done |].
  reflexivity.
Qed.

Lemma priority_bound (v : string) : priority v <= 3.
Proof.
  unfold priority.
  repeat match goal with |- context [String.eqb ?a ?b] =>
    destruct (String.eqb a b) end; lia.
Qed.

(** Away from the names that [Object.prototype] defines, [reducer] is the
    maximum for the documented priority and answers with an enum value. *)
Lemma reducer_priority (v1 v2 : string) :
  inherited v1 = false -> inherited v2 = false ->
  reducer v1 v2 = ORDER !! Nat.max (priority v1) (priority v2)
  /\ isLoadingEnum (reducer v1 v2).
Proof.
  intros H1 H2. unfold reducer.
  rewrite (orZero_MAP_get v1 H1), (orZero_MAP_get v2 H2). simpl.
  split; [reflexivity |].
  pose proof (priority_bound v1) as B1. pose proof (priority_bound v2) as B2.
  unfold isLoadingEnum.
  destruct (Nat.max (priority v1) (priority v2)) as [| [| [| [| n]]]] eqn:E;
    simpl; auto.
  lia.
Qed.

(** C9 (the code at the failing input).  For the string ["constructor"],
    which is none of the four enum values, [MAP["constructor"]] is the
    inherited [Object] function, not [undefined]; it is truthy, so it is
    not replaced by [0]; [Math.max] makes it [NaN]; and [ORDER[NaN]] is
    [undefined].  [reducer] answers [undefined], which is none of the four
    enum values, where a string counted as auto would give ["auto"]. *)
Theorem reducer_constructor_undefined :
  MAP_get "constructor" = Some (PBuiltin "constructor")
  /\ reducer "constructor" AUTO = None
  /\ reducer AUTO "constructor" = None
  /\ ~ isLoadingEnum (reducer "constructor" AUTO)
  /\ ORDER !! Nat.max (priority "constructor") (priority AUTO) = Some AUTO.
Proof.
  repeat split; try reflexivity.
  unfold isLoadingEnum. simpl. intros [H | [H | [H | H]]]; discriminate.
Qed.

End LoadingFacts.

(* ===================================================================== *)
(** * Properties of the viewport observer *)
(* ===================================================================== *)

Module ViewportObserverFacts.
Import ViewportObserver.

(** ** Events *)

Lemma watching_snoc (tr : list Event) (ev : Event) (o e : nat) :
  watching (tr ++ [ev]) o e = watching_step o e (watching tr o e) ev.
Proof. unfold watching. rewrite foldl_app. reflexivity. Qed.

Lemma created_snoc_new (tr : list Event) (o w w' : nat) :
  created (tr ++ [EvNew o w]) w' =
  created tr w' ++ (if decide (w = w') then [o] else []).
Proof.
  unfold created. rewrite omap_app. simpl.
  destruct (decide (w = w')); reflexivity.
Qed.

Lemma created_snoc_observe (tr : list Event) (o e w : nat) :
  created (tr ++ [EvObserve o e]) w = created tr w.
Proof. unfold created. rewrite omap_app. simpl. apply app_nil_r. Qed.

Lemma created_snoc_unobserve (tr : list Event) (o e w : nat) :
  created (tr ++ [EvUnobserve o e]) w = created tr w.
Proof. unfold created. rewrite omap_app. simpl. apply app_nil_r. Qed.

Lemma created_snoc_call (tr : list Event) (c : nat)
    (r : IntersectionObserverEntry) (w : nat) :
  created (tr ++ [EvCall c r]) w = created tr w.
Proof. unfold created. rewrite omap_app. simpl. apply app_nil_r. Qed.

(** ** The array helper *)

Lemma removeItem_items_None (items : list nat) (item : nat) :
  removeItem_items items item = None <-> item ∉ items.
Proof.
  induction items as [| i rest IH]; simpl.
  - split; [intros _; apply not_elem_of_nil | done].
  - destruct (decide (i = item)) as [-> | Hne].
    + split; [done | intros Hn; exfalso; apply Hn; left].
    + destruct (removeItem_items rest item) eqn:E.
      * split; [done |]. intros Hn. exfalso.
        assert (item ∉ rest) as Hr by (intros ?; apply Hn; by right).
        apply IH in Hr. done.
      * split; [| done]. intros _ Hin.
        apply elem_of_cons in Hin as [-> | Hin]; [done |].
        by apply IH in Hin.
Qed.

(** Removal takes out the first occurrence and nothing else. *)
Lemma removeItem_items_Some (items kept : list nat) (item : nat) :
  removeItem_items items item = Some kept <->
  exists before after,
    items = before ++ (item :: after) /\ (item ∉ before)
    /\ kept = before ++ after.
Proof.
  revert kept. induction items as [| i rest IH]; intros kept; simpl.
  - split; [done |]. intros (before & after & Heq & _).
    by destruct before.
  - destruct (decide (i = item)) as [-> | Hne].
    + split.
      * intros [= <-]. exists [], rest. repeat split. apply not_elem_of_nil.
      * intros (before & after & Heq & Hnot & ->).
        destruct before as [| b before]; simpl in *.
        -- by inversion Heq.
        -- inversion Heq; subst. exfalso. apply Hnot. left.
    + destruct (removeItem_items rest item) as [rest' |] eqn:E.
      * split.
        -- intros [= <-].
           destruct (proj1 (IH rest') eq_refl)
             as (before & after & -> & Hnot & ->).
           exists (i :: before), after. repeat split.
           intros Hin. apply elem_of_cons in Hin as [-> | Hin]; done.
        -- intros (before & after & Heq & Hnot & ->).
           destruct before as [| b before]; simpl in *.
           ++ inversion Heq; subst. done.
           ++ inversion Heq; subst. f_equal. f_equal.
              assert (Some rest' = Some (before ++ after)) as [= ->]; [| done].
              apply IH. exists before, after. repeat split.
              intros Hin. apply Hnot. by right.
      * split; [done |].
        intros (before & after & Heq & Hnot & ->).
        destruct before as [| b before]; simpl in *.
        -- inversion Heq; subst. done.
        -- inversion Heq; subst. exfalso.
           apply removeItem_items_None in E. apply E.
           apply elem_of_app. right. left.
Qed.

Lemma removeItem_items_length (items kept : list nat) (item : nat) :
  removeItem_items items item = Some kept ->
  length items = S (length kept).
Proof.
  intros (before & after & -> & _ & ->)%removeItem_items_Some.
  rewrite !length_app. simpl. lia.
Qed.

Lemma removeItem_items_last (items : list nat) (item : nat) :
  removeItem_items items item = Some [] <-> items = [item].
Proof.
  split.
  - intros (before & after & -> & _ & Hk)%removeItem_items_Some.
    symmetry in Hk. apply app_eq_nil in Hk as [-> ->]. reflexivity.
  - intros ->. simpl. rewrite decide_True; done.
Qed.

Lemma array_at_stored (a : nat) (items : list nat)
    (m : gmap nat (list nat)) (st : State) :
  array_at a (set_arrays (<[a := items]> m) st) = items.
Proof. unfold array_at. simpl. apply lookup_total_insert_eq. Qed.

(** ** What one registration and one unregistration change *)

Section Registry.

Context `{Host}.

Lemma observeIntersections_fields (element callback : nat) (st : State) :
  exists o a,
    let st' := (observeIntersections element callback st).2 in
    (observeIntersections element callback st).1
      = {| un_element := element; un_callback := callback |}
    /\ (viewportObservers st !! getWin element = Some o
        \/ (viewportObservers st !! getWin element = None
            /\ observers st !! o = None))
    /\ viewportObservers st' = <[getWin element := o]> (viewportObservers st)
    /\ (viewportCallbacks st !! element = Some a
        \/ (viewportCallbacks st !! element = None
            /\ arrays st !! a = None))
    /\ viewportCallbacks st' = <[element := a]> (viewportCallbacks st)
    /\ arrays st' = <[a := callbacksOf st element ++ [callback]]> (arrays st)
    /\ observers st' =
         alter (add_target element) o
           (match viewportObservers st !! getWin element with
            | Some _ => observers st
            | None =>
                <[o := viewportObserver_object (getWin element)]>
                  (observers st)
            end)
    /\ trace st' =
         trace st
         ++ (match viewportObservers st !! getWin element with
             | Some _ => []
             | None => [EvNew o (getWin element)]
             end)
         ++ [EvObserve o element].
Proof.
  unfold observeIntersections, callbacksOf, createViewportObserver,
    IntersectionObserver_new.
  simpl. rewrite andb_false_r.
  assert (arrays st !! fresh (dom (arrays st)) = None) as Hfresh
    by (apply not_elem_of_dom, is_fresh).
  assert (observers st !! fresh (dom (observers st)) = None) as Hfresh_o
    by (apply not_elem_of_dom, is_fresh).
  destruct (viewportObservers st !! getWin element) as [o |] eqn:Eo; simpl;
    (destruct (viewportCallbacks st !! element) as [a |] eqn:Ea; simpl).
  - exists o, a. repeat split; auto; by rewrite insert_id.
  - exists o, (fresh (dom (arrays st))).
    repeat split; auto.
    + by rewrite insert_id.
    + unfold array_at. simpl.
      rewrite lookup_total_insert_eq, insert_insert_eq. reflexivity.
  - exists (fresh (dom (observers st))), a.
    repeat split; auto.
    + by rewrite insert_id.
    + rewrite <- app_assoc. reflexivity.
  - exists (fresh (dom (observers st))), (fresh (dom (arrays st))).
    repeat split; auto.
    + unfold array_at. simpl.
      rewrite lookup_total_insert_eq, insert_insert_eq. reflexivity.
    + rewrite <- app_assoc. reflexivity.
Qed.

Lemma unobserveIntersections_outcome (element callback : nat) (st : State) :
  unobserve_outcome element callback st
    (unobserveIntersections element callback st).
Proof.
  unfold unobserveIntersections.
  destruct (viewportCallbacks st !! element) as [a |] eqn:Ea.
  - unfold removeItem.
    destruct (removeItem_items (array_at a st) callback) as [kept |] eqn:Er.
    + simpl. unfold array_at at 1. simpl. rewrite lookup_total_insert_eq.
      destruct kept as [| i kept]; simpl.
      * apply (outcome_last _ _ _ _ a); [done | |].
        -- by apply removeItem_items_last.
        -- simpl. destruct (viewportObservers st !! getWin element);
             reflexivity.
      * by apply (outcome_others_remain _ _ _ _ a (i :: kept)).
    + simpl. apply outcome_nothing; [| done].
      unfold callbacksOf. rewrite Ea. by apply removeItem_items_None.
  - apply outcome_nothing; [| done].
    unfold callbacksOf. rewrite Ea. apply not_elem_of_nil.
Qed.

(** ** The invariant *)

Lemma Inv_initial : Inv initial.
Proof.
  split; simpl.
  - intros w o Hw. by rewrite lookup_empty in Hw.
  - intros o e Hw. discriminate.
  - intros o obj e Ho. by rewrite lookup_empty in Ho.
  - intros e. rewrite dom_empty_L. split.
    + intros He. by apply not_elem_of_empty in He.
    + intros (o & Ho & _). by rewrite lookup_empty in Ho.
  - intros w. by rewrite lookup_empty.
Qed.

(** The invariant does not read the arrays. *)
Lemma Inv_set_arrays (m : gmap nat (list nat)) (st : State) :
  Inv st -> Inv (set_arrays m st).
Proof. intros [I1 I2 I3 I4 I5]. split; simpl; assumption. Qed.

Lemma Inv_log_call (c : nat) (r : IntersectionObserverEntry) (st : State) :
  Inv st -> Inv (log (EvCall c r) st).
Proof.
  intros [I1 I2 I3 I4 I5]. split; simpl.
  - assumption.
  - intros o e. rewrite watching_snoc. simpl. apply I2.
  - intros o obj e Ho. rewrite watching_snoc. simpl. by apply I3.
  - intros e. rewrite I4. by setoid_rewrite watching_snoc.
  - intros w. rewrite created_snoc_call. apply I5.
Qed.

Lemma Inv_observeIntersections (element callback : nat) (st : State) :
  Inv st -> Inv (observeIntersections element callback st).2.
Proof.
  intros [I1 I2 I3 I4 I5].
  destruct (observeIntersections_fields element callback st)
    as (o & a & _ & Ho & Hreg & _ & Hcbs & _ & Hobs & Htr).
  simpl in *.
  set (st' := (observeIntersections element callback st).2) in *.
  assert (Hw : forall o0 e0,
             watching (trace st') o0 e0 =
             if decide (o = o0 /\ element = e0) then true
             else watching (trace st) o0 e0).
  { intros o0 e0. rewrite Htr, app_assoc, watching_snoc. simpl.
    destruct (viewportObservers st !! getWin element).
    - by rewrite app_nil_r.
    - by rewrite watching_snoc. }
  assert (Hobj_o : exists obj,
             observers st' !! o = Some (add_target element obj)
             /\ io_win obj = getWin element
             /\ forall e0, e0 ∈ io_targets obj
                           <-> watching (trace st) o e0 = true).
  { rewrite Hobs, lookup_alter_eq.
    destruct (viewportObservers st !! getWin element) as [o' |] eqn:E.
    - destruct Ho as [[= ->] | [? _]]; [| done].
      destruct (I1 _ _ E) as (obj & Hobj & Hwin). exists obj.
      rewrite Hobj. repeat split; auto; by apply I3.
    - destruct Ho as [? | [_ Ho]]; [done |].
      exists (viewportObserver_object (getWin element)).
      rewrite lookup_insert_eq. repeat split; simpl.
      + intros Hin. by apply not_elem_of_empty in Hin.
      + intros Hwatch. apply I2 in Hwatch. rewrite Ho in Hwatch.
        by destruct Hwatch. }
  assert (Hobj_ne : forall o0, o0 <> o ->
             observers st' !! o0 = observers st !! o0).
  { intros o0 Hne. rewrite Hobs, lookup_alter_ne by done.
    destruct (viewportObservers st !! getWin element); [done |].
    by rewrite lookup_insert_ne. }
  assert (Hreg_old : forall w o0,
             viewportObservers st !! w = Some o0 ->
             viewportObservers st' !! w = Some o0).
  { intros w o0 Hw0. rewrite Hreg, lookup_insert. case_decide; [| done].
    subst w. destruct Ho as [Ho | [Ho _]]; congruence. }
  assert (Hreg_new : forall w o0,
             viewportObservers st' !! w = Some o0 ->
             viewportObservers st !! w = Some o0
             \/ (w = getWin element /\ o0 = o
                 /\ viewportObservers st !! w = None
                 /\ observers st !! o = None)).
  { intros w o0. rewrite Hreg, lookup_insert. case_decide; [| by left].
    subst w. intros [= <-]. destruct Ho as [Ho | [Ho1 Ho2]]; auto. }
  destruct Hobj_o as (obj_o & Hobj_o & Hwin_o & Htargets_o).
  split.
  - (* registered *)
    intros w o0 Hw0. apply Hreg_new in Hw0 as [Hw0 | (-> & -> & _)].
    + destruct (I1 _ _ Hw0) as (obj & Hobj & Hwin).
      destruct (decide (o0 = o)) as [-> | Hne].
      * rewrite Hobj_o. eexists. split; [done |]. simpl.
        destruct Ho as [Ho | [_ Ho]]; [| congruence].
        destruct (I1 _ _ Ho) as (obj2 & Hobj2 & Hwin2). congruence.
      * rewrite Hobj_ne by done. by exists obj.
    + rewrite Hobj_o. by eexists.
  - (* allocated *)
    intros o0 e0. rewrite Hw. case_decide as Hc.
    + intros _. destruct Hc as [<- _]. rewrite Hobj_o. by eexists.
    + intros Hold. apply I2 in Hold.
      destruct (decide (o0 = o)) as [-> | Hne].
      * rewrite Hobj_o. by eexists.
      * by rewrite Hobj_ne.
  - (* targets *)
    intros o0 obj e0. rewrite Hw.
    destruct (decide (o0 = o)) as [-> | Hne].
    + rewrite Hobj_o. intros [= <-]. simpl.
      rewrite elem_of_union, elem_of_singleton, Htargets_o.
      case_decide; intuition congruence.
    + rewrite Hobj_ne by done. rewrite decide_False by (intros [? ?]; congruence).
      apply I3.
  - (* Invariant A *)
    intros e0. rewrite Hcbs, dom_insert_L.
    setoid_rewrite Hw.
    destruct (decide (e0 = element)) as [-> | Hne].
    + split; [| intros _; apply elem_of_union_l, elem_of_singleton; done].
      intros _. exists o.
      rewrite Hreg, lookup_insert_eq, decide_True; done.
    + rewrite elem_of_union, elem_of_singleton, I4. split.
      * intros [? | (o0 & Ho0 & Hwatch)]; [done |].
        exists o0. rewrite decide_False by (intros [? ?]; congruence). auto.
      * intros (o0 & Ho0 & Hwatch). right.
        rewrite decide_False in Hwatch by (intros [? ?]; congruence).
        apply Hreg_new in Ho0 as [Ho0 | (_ & -> & _ & Hfresh)].
        -- by exists o0.
        -- apply I2 in Hwatch. rewrite Hfresh in Hwatch. by destruct Hwatch.
  - (* created *)
    intros w. rewrite Htr, app_assoc, created_snoc_observe.
    destruct (viewportObservers st !! getWin element) as [o' |] eqn:E.
    + rewrite app_nil_r, I5.
      destruct (viewportObservers st !! w) as [o0 |] eqn:Ew.
      * by rewrite (Hreg_old _ _ Ew).
      * destruct (viewportObservers st' !! w) as [o0 |] eqn:Ew'; [| done].
        apply Hreg_new in Ew' as [? | (-> & _)]; congruence.
    + rewrite created_snoc_new, I5, Hreg, lookup_insert.
      case_decide as Hwin.
      * subst w. by rewrite E.
      * by rewrite app_nil_r.
Qed.

Lemma Inv_unobserveIntersections (element callback : nat) (st : State) :
  Inv st -> Inv (unobserveIntersections element callback st).
Proof.
  intros HI.
  destruct (unobserveIntersections_outcome element callback st)
    as [_ -> | a kept _ _ _ -> | a Ha _ ->]; [done | by apply Inv_set_arrays |].
  apply (Inv_set_arrays (<[a := []]> (arrays st))) in HI.
  destruct HI as [I1 I2 I3 I4 I5]. simpl in *.
  assert (element ∈ dom (viewportCallbacks st)) as Hdom
    by (apply elem_of_dom; by eexists).
  apply I4 in Hdom as (o & Ho & _). rewrite Ho.
  destruct (I1 _ _ Ho) as (obj_o & Hobj_o & Hwin_o).
  split; simpl.
  - intros w o0 Hw0. destruct (I1 _ _ Hw0) as (obj & Hobj & Hwin).
    rewrite lookup_alter. case_decide as Heq.
    + subst o0. rewrite Hobj. by eexists.
    + by exists obj.
  - intros o0 e0. rewrite watching_snoc. simpl. case_decide.
    + done.
    + intros Hold. apply I2 in Hold as [obj Hobj].
      rewrite lookup_alter. case_decide as Heq; [subst o0 |];
        rewrite Hobj; by eexists.
  - intros o0 obj e0. rewrite watching_snoc. simpl.
    rewrite lookup_alter. case_decide as Heq.
    + subst o0. rewrite Hobj_o. intros [= <-]. simpl.
      rewrite elem_of_difference, elem_of_singleton, (I3 _ _ e0 Hobj_o).
      case_decide as Hc.
      * destruct Hc as [_ ->]. split; [tauto | done].
      * split; [tauto |]. intros Hwatch. split; [done |].
        intros ->. apply Hc. done.
    + intros Hobj. rewrite decide_False by (intros [? ?]; congruence).
      by apply I3.
  - intros e0. rewrite dom_delete_L, elem_of_difference, elem_of_singleton.
    setoid_rewrite watching_snoc. simpl. rewrite I4.
    destruct (decide (e0 = element)) as [-> | Hne].
    + split; [tauto |]. intros (o0 & Ho0 & Hwatch).
      rewrite Ho in Ho0. injection Ho0 as <-.
      rewrite decide_True in Hwatch; done.
    + split.
      * intros [(o0 & Ho0 & Hwatch) _]. exists o0.
        rewrite decide_False by (intros [? ?]; congruence). done.
      * intros (o0 & Ho0 & Hwatch).
        rewrite decide_False in Hwatch by (intros [? ?]; congruence).
        split; [by exists o0 | done].
  - intros w. rewrite created_snoc_unobserve. apply I5.
Qed.

End Registry.

(** ** What a dispatch preserves *)

Section Dispatch.

Context `{Host} `{Subscribers}.

Lemma runActions_kept (P : State -> Prop) (acts : list Action) (st : State) :
  kept_by_module P -> P st -> P (runActions acts st).
Proof.
  intros (Hobs & Hunobs & _). revert st.
  induction acts as [| act acts IH]; intros st HP; [done |].
  unfold runActions. simpl. apply IH.
  destruct act as [e c | [e c]]; simpl; [by apply Hobs |].
  unfold callUnlisten. simpl. by apply Hunobs.
Qed.

Lemma invoke_kept (P : State -> Prop) (callback : nat)
    (entry : IntersectionObserverEntry) (st : State) :
  kept_by_module P -> P st -> P (invoke callback entry st).
Proof.
  intros HK HP. unfold invoke. apply runActions_kept; [done |].
  destruct HK as (_ & _ & Hlog). by apply Hlog.
Qed.

Lemma callLoop_kept (P : State -> Prop) (fuel : nat) (callbacks : nat)
    (entry : IntersectionObserverEntry) (k : nat) (st st' : State) :
  kept_by_module P -> P st ->
  callLoop fuel callbacks entry k st = Some st' -> P st'.
Proof.
  intros HK. revert k st.
  induction fuel as [| fuel IH]; intros k st HP; simpl; [done |].
  destruct (array_at callbacks st !! k) as [callback |].
  - apply IH. by apply invoke_kept.
  - by intros [= <-].
Qed.

Lemma ioLoop_kept (P : State -> Prop) (fuel : nat)
    (entries : list IntersectionObserverEntry) (n : nat)
    (seen : gset nat) (st st' : State) :
  kept_by_module P -> P st ->
  ioLoop fuel entries n seen st = Some st' -> P st'.
Proof.
  intros HK. revert seen st.
  induction n as [| i IH]; intros seen st HP; simpl.
  - by intros [= <-].
  - destruct (entries !! i) as [entry |]; [| by intros [= <-]].
    case_decide; [by apply IH |].
    destruct (viewportCallbacks st !! target entry) as [callbacks |];
      [| by apply IH].
    destruct (callLoop fuel callbacks entry 0 st) as [st1 |] eqn:Eloop;
      [| done].
    apply IH. by apply (callLoop_kept P) in Eloop.
Qed.

Lemma step_kept (P : State -> Prop) (st st' : State) :
  kept_by_module P -> P st -> step st st' -> P st'.
Proof.
  intros HK HP Hstep. pose proof HK as (Hobs & Hunobs & Hlog).
  destruct Hstep as [e c st | [e c] st | fuel entries st st' Hio | c r st].
  - by apply Hobs.
  - unfold callUnlisten. simpl. by apply Hunobs.
  - unfold ioCallback in Hio. by apply (ioLoop_kept P) in Hio.
  - by apply Hlog.
Qed.

Lemma steps_kept (P : State -> Prop) (st st' : State) :
  kept_by_module P -> P st -> rtc step st st' -> P st'.
Proof.
  intros HK HP Hsteps. induction Hsteps as [| st st1 st2 Hstep _ IH];
    [done |].
  apply IH. by apply (step_kept P st).
Qed.

Lemma Inv_kept : kept_by_module Inv.
Proof.
  split; [| split].
  - intros e c st. apply Inv_observeIntersections.
  - intros e c st. apply Inv_unobserveIntersections.
  - intros c r st. apply Inv_log_call.
Qed.

Lemma reachable_Inv (st : State) : reachable st -> Inv st.
Proof. apply steps_kept; [apply Inv_kept | apply Inv_initial]. Qed.

End Dispatch.

(** ** The observer factory *)

(** C7. The observer that [createViewportObserver] constructs for a
    dispatch function, a window and options is a new object; its root is
    the window's document exactly when [needsRootBounds] is [true] and the
    window is iframed, and is left undefined when [needsRootBounds] is
    [false] or absent (the options object or the property) or the window
    is not iframed; its threshold is the [threshold] option as given. *)
Theorem createViewportObserver_root_threshold `{Host} (dispatch : DispatchFn)
    (win : nat) (opts : option ViewportObserverOpts) (st : State) :
  exists obj,
    observers st !! (createViewportObserver dispatch win opts st).1 = None
    /\ observers (createViewportObserver dispatch win opts st).2
         !! (createViewportObserver dispatch win opts st).1 = Some obj
    /\ io_callback obj = dispatch
    /\ io_win obj = win
    /\ io_threshold obj = opts ≫= threshold
    /\ (io_root obj = Some (document win)
        <-> (opts ≫= needsRootBounds = Some true /\ isIframed win = true))
    /\ (io_root obj = None
        <-> (opts ≫= needsRootBounds <> Some true \/ isIframed win = false)).
Proof.
  unfold createViewportObserver, IntersectionObserver_new. simpl.
  eexists. split; [apply not_elem_of_dom, is_fresh |].
  split; [apply lookup_insert_eq |]. simpl.
  split; [done |]. split; [done |].
  split; [by destruct opts |].
  assert (Ht : opts ≫= needsRootBounds = Some true
               <-> truthy (needsRootBounds (default default_opts opts)) = true).
  { destruct opts as [[[[|] |] thr] |]; simpl; split; congruence. }
  rewrite Ht.
  destruct (isIframed win),
    (truthy (needsRootBounds (default default_opts opts))); simpl.
  - split; split; [done | done | done | intros [? | ?]; congruence].
  - split; split; [done | intros [? _]; done | intros _; by left | done].
  - split; split; [done | intros [_ ?]; done | intros _; by right | done].
  - split; split; [done | intros [_ ?]; done | intros _; by right | done].
Qed.

Section Lifecycle.

Context `{Host} `{Subscribers}.

Lemma unobserveIntersections_viewportObservers (element callback : nat)
    (st : State) :
  viewportObservers (unobserveIntersections element callback st)
  = viewportObservers st.
Proof.
  destruct (unobserveIntersections_outcome element callback st)
    as [_ -> | a kept _ _ _ -> | a _ _ ->]; try done.
  simpl. by destruct (viewportObservers st !! getWin element).
Qed.

Lemma registered_kept (w o : nat) :
  kept_by_module (fun st => viewportObservers st !! w = Some o).
Proof.
  split; [| split].
  - intros e c st Hw.
    destruct (observeIntersections_fields e c st)
      as (o' & a & _ & Ho & Hreg & _). simpl in *.
    rewrite Hreg, lookup_insert. case_decide; [| done].
    subst w. destruct Ho as [Ho | [Ho _]]; congruence.
  - intros e c st Hw. by rewrite unobserveIntersections_viewportObservers.
  - intros c r st Hw. done.
Qed.

(** C4. Invariant A: in every state reached by registrations, calls of
    returned closures and dispatches, an element is a key of the
    callback registry exactly when the observer of its window is
    watching it, that is, [observe] was called on that observer for the
    element and [unobserve] was not called since; and exactly when the
    element is among the targets that observer holds. *)
Theorem invariant_A (st : State) :
  reachable st ->
  forall element,
    (element ∈ dom (viewportCallbacks st) <->
     exists o, viewportObservers st !! getWin element = Some o
               /\ watching (trace st) o element = true)
    /\ (element ∈ dom (viewportCallbacks st) <->
        exists o obj, viewportObservers st !! getWin element = Some o
                      /\ observers st !! o = Some obj
                      /\ element ∈ io_targets obj).
Proof.
  intros Hreach element.
  destruct (reachable_Inv st Hreach) as [I1 I2 I3 I4 I5].
  split; [apply I4 |]. rewrite I4. split.
  - intros (o & Ho & Hwatch). destruct (I1 _ _ Ho) as (obj & Hobj & _).
    exists o, obj. repeat split; try done. by apply (I3 _ _ _ Hobj).
  - intros (o & obj & Ho & Hobj & Hin). exists o. split; [done |].
    by apply (I3 _ _ _ Hobj).
Qed.

(** C6. In every reachable state at most one observer was ever
    constructed for a window.  A registration for an element whose
    window has no observer yet constructs one and stores it in the
    window registry; a registration for an element whose window has one
    constructs nothing and calls [observe] on that one; the observer of
    a window stays the same object in every later state; and the
    observers of two different windows are different objects. *)
Theorem one_observer_per_window (st : State) :
  reachable st ->
  (forall w, length (created (trace st) w) <= 1)
  /\ (forall element callback,
        viewportObservers st !! getWin element = None ->
        exists o,
          observers st !! o = None
          /\ viewportObservers (observeIntersections element callback st).2
               !! getWin element = Some o
          /\ created (trace (observeIntersections element callback st).2)
                      (getWin element) = [o])
  /\ (forall element callback o,
        viewportObservers st !! getWin element = Some o ->
        viewportObservers (observeIntersections element callback st).2
        = viewportObservers st
        /\ trace (observeIntersections element callback st).2
           = trace st ++ [EvObserve o element])
  /\ (forall st' w o,
        rtc step st st' ->
        viewportObservers st !! w = Some o ->
        viewportObservers st' !! w = Some o)
  /\ (forall w1 w2 o1 o2,
        w1 <> w2 ->
        viewportObservers st !! w1 = Some o1 ->
        viewportObservers st !! w2 = Some o2 ->
        o1 <> o2).
Proof.
  intros Hreach. pose proof (reachable_Inv st Hreach) as HI.
  split; [| split; [| split; [| split]]].
  - intros w. rewrite (inv_created st HI).
    destruct (viewportObservers st !! w); simpl; lia.
  - intros element callback Hnone.
    pose proof (Inv_observeIntersections element callback st HI) as HI'.
    destruct (observeIntersections_fields element callback st)
      as (o & a & _ & Ho & Hreg & _). simpl in *.
    destruct Ho as [Ho | [_ Ho]]; [congruence |].
    exists o. split; [done |].
    assert (viewportObservers (observeIntersections element callback st).2
              !! getWin element = Some o) as Hstored
      by (rewrite Hreg; apply lookup_insert_eq).
    split; [done |]. by rewrite (inv_created _ HI'), Hstored.
  - intros element callback o Hsome.
    destruct (observeIntersections_fields element callback st)
      as (o' & a & _ & Ho & Hreg & _ & _ & _ & _ & Htr). simpl in *.
    rewrite Hsome in Htr, Ho.
    destruct Ho as [[= <-] | [? _]]; [| done].
    split; [| done]. rewrite Hreg. by apply insert_id.
  - intros st' w o Hsteps Hw.
    by apply (steps_kept (fun s => viewportObservers s !! w = Some o)
                st st' (registered_kept w o)).
  - intros w1 w2 o1 o2 Hne H1 H2 ->.
    destruct (inv_registered st HI _ _ H1) as (obj1 & Hobj1 & Hwin1).
    destruct (inv_registered st HI _ _ H2) as (obj2 & Hobj2 & Hwin2).
    congruence.
Qed.

(** C3. In a reachable state, when [unobserveIntersections] removes the
    only callback left for an element, [unobserve] is called on the
    observer of the element's window, once and for that element, and the
    element's entry leaves the callback registry; when other callbacks
    stay after the removal, nothing is called on any observer and the
    element keeps its entry, with the callbacks that stay. *)
Theorem unobserve_on_last_callback (st : State) (element callback : nat) :
  reachable st ->
  (callbacksOf st element = [callback] ->
   exists o,
     viewportObservers st !! getWin element = Some o
     /\ trace (unobserveIntersections element callback st)
        = trace st ++ [EvUnobserve o element]
     /\ viewportCallbacks (unobserveIntersections element callback st)
        = delete element (viewportCallbacks st)
     /\ (element ∉ dom (viewportCallbacks
                          (unobserveIntersections element callback st)))
     /\ watching (trace (unobserveIntersections element callback st))
                 o element = false)
  /\ (forall kept,
        removeItem_items (callbacksOf st element) callback = Some kept ->
        kept <> [] ->
        trace (unobserveIntersections element callback st) = trace st
        /\ observers (unobserveIntersections element callback st)
           = observers st
        /\ viewportCallbacks (unobserveIntersections element callback st)
           = viewportCallbacks st
        /\ element ∈ dom (viewportCallbacks st)
        /\ callbacksOf (unobserveIntersections element callback st) element
           = kept).
Proof.
  intros Hreach. pose proof (reachable_Inv st Hreach) as HI.
  unfold callbacksOf, unobserveIntersections, removeItem.
  destruct (viewportCallbacks st !! element) as [a |] eqn:Ea.
  - assert (element ∈ dom (viewportCallbacks st)) as Hdom
      by (apply elem_of_dom; by eexists).
    split.
    + intros Hone. rewrite Hone. simpl. rewrite decide_True by done. simpl.
      rewrite array_at_stored. simpl.
      apply (inv_watched st HI) in Hdom as (o & Ho & _).
      exists o. rewrite Ho. simpl. repeat split; try done.
      * rewrite dom_delete_L. apply not_elem_of_difference. right.
        by apply elem_of_singleton.
      * rewrite watching_snoc. simpl. by rewrite decide_True.
    + intros kept Hkept Hne. rewrite Hkept. simpl.
      rewrite array_at_stored.
      destruct kept as [| i kept]; [done |]. simpl.
      rewrite Ea. by rewrite array_at_stored.
  - split; [done |]. intros kept Hkept. done.
Qed.

End Lifecycle.

(** ** The scan of a batch *)

Lemma selected_seen (pending : list IntersectionObserverEntry)
    (seen seen' : gset nat) :
  (forall x, x ∈ seen <-> x ∈ seen') ->
  selected pending seen = selected pending seen'.
Proof.
  revert seen seen'. induction pending as [| r rest IH]; intros seen seen' Heq;
    simpl; [done |].
  destruct (decide (target r ∈ seen)) as [Hin | Hout].
  - rewrite decide_True by (by apply Heq). by apply IH.
  - rewrite decide_False by (by rewrite <- Heq). f_equal. apply IH.
    intros x. rewrite !elem_of_union, Heq. done.
Qed.

Lemma selected_app (l1 l2 : list IntersectionObserverEntry)
    (seen : gset nat) :
  selected (l1 ++ l2) seen =
  selected l1 seen ++ selected l2 (list_to_set (target <$> l1) ∪ seen).
Proof.
  revert seen. induction l1 as [| r rest IH]; intros seen; simpl.
  - apply selected_seen. intros x.
    rewrite elem_of_union, elem_of_empty. tauto.
  - destruct (decide (target r ∈ seen)) as [Hin | Hout].
    + rewrite IH. f_equal. apply selected_seen. intros x.
      rewrite !elem_of_union, elem_of_singleton. split; [tauto |].
      intros [[-> | ?] | ?]; tauto.
    + simpl. f_equal. rewrite IH. f_equal. apply selected_seen. intros x.
      rewrite !elem_of_union, elem_of_singleton. tauto.
Qed.

(** The backward scan with a seen-set selects the records that are the
    last for their target. *)
Lemma selected_reverse (entries : list IntersectionObserverEntry)
    (seen : gset nat) :
  selected (reverse entries) seen =
  reverse (filter (fun r => target r ∉ seen) (lastPerTarget entries)).
Proof.
  induction entries as [| r rest IH]; [done |].
  rewrite reverse_cons, selected_app, IH. simpl.
  destruct (decide (target r ∈ target <$> rest)) as [Hin | Hout].
  - rewrite decide_True; [apply app_nil_r |].
    apply elem_of_union. left. apply elem_of_list_to_set.
    rewrite fmap_reverse. by apply elem_of_reverse.
  - rewrite filter_cons.
    destruct (decide (target r ∉ seen)) as [Hnew | Hold].
    + rewrite decide_False; [by rewrite reverse_cons |].
      rewrite elem_of_union, elem_of_list_to_set, fmap_reverse,
        elem_of_reverse. tauto.
    + rewrite decide_True; [apply app_nil_r |].
      apply elem_of_union. right.
      by destruct (decide (target r ∈ seen)).
Qed.

Lemma lastPerTarget_subset (entries : list IntersectionObserverEntry)
    (r : IntersectionObserverEntry) :
  r ∈ lastPerTarget entries -> r ∈ entries.
Proof.
  induction entries as [| r0 rest IH]; simpl; [done |].
  destruct (decide (target r0 ∈ target <$> rest)).
  - intros Hin. right. by apply IH.
  - intros [-> | Hin]%elem_of_cons; [left | right; by apply IH].
Qed.

(** No target is served twice. *)
Lemma lastPerTarget_NoDup (entries : list IntersectionObserverEntry) :
  NoDup (target <$> lastPerTarget entries).
Proof.
  induction entries as [| r rest IH]; simpl; [constructor |].
  destruct (decide (target r ∈ target <$> rest)) as [Hin | Hout]; [done |].
  simpl. constructor; [| done].
  intros (r' & Heq & Hin')%list_elem_of_fmap. apply Hout.
  apply list_elem_of_fmap. exists r'. split; [done |].
  by apply lastPerTarget_subset.
Qed.

(** Every target of the batch is served. *)
Lemma lastPerTarget_targets (entries : list IntersectionObserverEntry)
    (e : nat) :
  e ∈ target <$> entries <-> e ∈ target <$> lastPerTarget entries.
Proof.
  induction entries as [| r rest IH]; simpl; [done |].
  destruct (decide (target r ∈ target <$> rest)) as [Hin | Hout].
  - rewrite <- IH. rewrite elem_of_cons. split; [| tauto].
    intros [-> | ?]; done.
  - simpl. rewrite !elem_of_cons, IH. done.
Qed.

(** A served record is the latest of the batch for its target: no record
    after it in the batch has the same target. *)
Lemma lastPerTarget_latest (entries : list IntersectionObserverEntry)
    (r : IntersectionObserverEntry) :
  r ∈ lastPerTarget entries <->
  exists before after,
    entries = before ++ r :: after /\ (target r ∉ target <$> after).
Proof.
  induction entries as [| r0 rest IH]; simpl.
  - split; [by intros ?%elem_of_nil |].
    intros (before & after & Heq & _). by destruct before.
  - destruct (decide (target r0 ∈ target <$> rest)) as [Hin | Hout].
    + rewrite IH. split.
      * intros (before & after & -> & Hlast).
        by exists (r0 :: before), after.
      * intros (before & after & Heq & Hlast).
        destruct before as [| b before]; simpl in Heq.
        -- injection Heq as -> ->. done.
        -- injection Heq as -> ->. by exists before, after.
    + rewrite elem_of_cons, IH. split.
      * intros [-> | (before & after & -> & Hlast)].
        -- by exists [], rest.
        -- by exists (r0 :: before), after.
      * intros (before & after & Heq & Hlast).
        destruct before as [| b before]; simpl in Heq.
        -- injection Heq as -> ->. by left.
        -- injection Heq as -> ->. right. by exists before, after.
Qed.

(** ** The dispatcher *)

Lemma logAll_nil (st : State) : logAll [] st = st.
Proof. destruct st. unfold logAll. simpl. by rewrite app_nil_r. Qed.

Lemma logAll_log (ev : Event) (evs : list Event) (st : State) :
  logAll evs (log ev st) = logAll (ev :: evs) st.
Proof. unfold logAll, log. simpl. by rewrite <- app_assoc. Qed.

Lemma logAll_logAll (evs1 evs2 : list Event) (st : State) :
  logAll evs2 (logAll evs1 st) = logAll (evs1 ++ evs2) st.
Proof. unfold logAll. simpl. by rewrite <- app_assoc. Qed.

Section Walks.

Context `{Host} `{Subscribers}.

(** The outer loop is the list of walks for the selected records. *)
Lemma ioLoop_selected (fuel : nat)
    (entries : list IntersectionObserverEntry) (n : nat)
    (seen : gset nat) (st : State) :
  n <= length entries ->
  ioLoop fuel entries n seen st =
  deliverAll fuel (selected (reverse (take n entries)) seen) st.
Proof.
  revert seen st. induction n as [| i IH]; intros seen st Hn; [done |].
  destruct (lookup_lt_is_Some_2 entries i) as [r Hr]; [lia |].
  rewrite (take_S_r _ _ _ Hr), reverse_snoc. simpl. rewrite Hr.
  destruct (decide (target r ∈ seen)); [apply IH; lia |].
  simpl. unfold deliver.
  destruct (viewportCallbacks st !! target r) as [a |]; [| apply IH; lia].
  destruct (callLoop fuel a r 0 st); [apply IH; lia | done].
Qed.

(** A dispatch walks, for each record that is the last of the batch for
    its target and for no other record, the array of that target; the
    latest record goes first. *)
Lemma ioCallback_lastPerTarget (fuel : nat)
    (entries : list IntersectionObserverEntry) (st : State) :
  ioCallback fuel entries st =
  deliverAll fuel (reverse (lastPerTarget entries)) st.
Proof.
  unfold ioCallback. rewrite ioLoop_selected by done.
  rewrite take_ge by done. rewrite selected_reverse. do 2 f_equal.
  induction (lastPerTarget entries) as [| r rest IH]; [done |].
  rewrite filter_cons, decide_True by apply not_elem_of_empty.
  by rewrite IH.
Qed.

Lemma invoke_quiet (callback : nat) (entry : IntersectionObserverEntry)
    (st : State) :
  quiet entry callback ->
  invoke callback entry st = log (EvCall callback entry) st.
Proof. intros Hq. unfold invoke. by rewrite Hq. Qed.

(** A walk that no callback disturbs calls the callbacks of the array
    from index [k] on, in the order of the array, and ends. *)
Lemma callLoop_quiet (fuel : nat) (a : nat)
    (entry : IntersectionObserverEntry) (k : nat) (st : State) :
  (forall callback, callback ∈ array_at a st -> quiet entry callback) ->
  length (array_at a st) - k < fuel ->
  callLoop fuel a entry k st =
  Some (logAll (calls (drop k (array_at a st)) entry) st).
Proof.
  revert k st. induction fuel as [| fuel IH]; intros k st Hq Hfuel; [lia |].
  simpl. destruct (array_at a st !! k) as [callback |] eqn:Ek.
  - rewrite invoke_quiet
      by (apply Hq; by apply list_elem_of_lookup_2 with k).
    rewrite IH.
    + change (array_at a (log (EvCall callback entry) st))
        with (array_at a st).
      rewrite logAll_log. do 2 f_equal.
      rewrite (drop_S _ _ _ Ek). reflexivity.
    + exact Hq.
    + change (array_at a (log (EvCall callback entry) st))
        with (array_at a st).
      apply lookup_lt_Some in Ek. lia.
  - apply lookup_ge_None in Ek. rewrite drop_ge by done. simpl.
    by rewrite logAll_nil.
Qed.

Lemma deliver_quiet (fuel : nat) (entry : IntersectionObserverEntry)
    (st : State) :
  (forall callback,
      callback ∈ callbacksOf st (target entry) -> quiet entry callback) ->
  length (callbacksOf st (target entry)) < fuel ->
  deliver fuel entry st =
  Some (logAll (calls (callbacksOf st (target entry)) entry) st).
Proof.
  unfold deliver, callbacksOf.
  destruct (viewportCallbacks st !! target entry) as [a |].
  - intros Hq Hfuel. rewrite callLoop_quiet; [done | done | lia].
  - intros _ _. simpl. by rewrite logAll_nil.
Qed.

(** With subscribers that never call back into the module, a dispatch
    ends and calls, for each served record, latest first, every callback
    registered for its target once, in the order of registration. *)
Lemma ioCallback_quiet (fuel : nat)
    (entries : list IntersectionObserverEntry) (st : State) :
  (forall entry callback, quiet entry callback) ->
  (forall element, length (callbacksOf st element) < fuel) ->
  ioCallback fuel entries st =
  Some (logAll
          (flat_map (fun r => calls (callbacksOf st (target r)) r)
                    (reverse (lastPerTarget entries)))
          st).
Proof.
  intros Hq Hfuel. rewrite ioCallback_lastPerTarget.
  generalize (reverse (lastPerTarget entries)) as served.
  intros served.
  assert (Hgen : forall evs,
             deliverAll fuel served (logAll evs st) =
             Some (logAll
                     (evs ++ flat_map
                               (fun r => calls (callbacksOf st (target r)) r)
                               served) st)).
  { induction served as [| r rest IH]; intros evs; simpl.
    - by rewrite app_nil_r.
    - rewrite deliver_quiet; [| by intros | apply Hfuel].
      rewrite logAll_logAll, IH. by rewrite <- app_assoc. }
  specialize (Hgen []). by rewrite logAll_nil in Hgen.
Qed.

End Walks.

(** ** Registrations and the closures they return *)

Section Registrations.

Context `{Host}.

(** A registration appends the callback to the element's callbacks. *)
Lemma callbacksOf_observeIntersections (element callback : nat)
    (st : State) :
  callbacksOf (observeIntersections element callback st).2 element
  = callbacksOf st element ++ [callback].
Proof.
  destruct (observeIntersections_fields element callback st)
    as (o & a & _ & _ & _ & _ & Hcbs & Harr & _). simpl in *.
  unfold callbacksOf at 1. rewrite Hcbs, lookup_insert_eq.
  unfold array_at. rewrite Harr. apply lookup_total_insert_eq.
Qed.

(** An unregistration takes the first occurrence of the callback out of
    the element's callbacks, if there is one. *)
Lemma callbacksOf_unobserveIntersections (element callback : nat)
    (st : State) :
  callbacksOf (unobserveIntersections element callback st) element
  = default (callbacksOf st element)
            (removeItem_items (callbacksOf st element) callback).
Proof.
  destruct (unobserveIntersections_outcome element callback st)
    as [Hnot -> | a kept Ha Hkept _ -> | a Ha Hone ->].
  - apply removeItem_items_None in Hnot. by rewrite Hnot.
  - unfold callbacksOf. simpl. rewrite Ha, Hkept. simpl.
    apply array_at_stored.
  - unfold callbacksOf at 2 3. rewrite Ha, Hone. simpl.
    rewrite decide_True by done. simpl.
    unfold callbacksOf. simpl. by rewrite lookup_delete_eq.
Qed.

Context `{Subscribers}.

(** What an unregistration does in a state of a run where the callback
    is among the callbacks of the element: it takes out one occurrence,
    the first, and nothing else happens while callbacks stay; when none
    stays, [unobserve] is called on the observer of the element's window
    and the element's entry is deleted. *)
Lemma unobserveIntersections_registered (element callback : nat)
    (st : State) :
  reachable st ->
  callback ∈ callbacksOf st element ->
  exists before after,
    callbacksOf st element = before ++ callback :: after
    /\ (callback ∉ before)
    /\ callbacksOf (unobserveIntersections element callback st) element
       = before ++ after
    /\ (before ++ after <> [] ->
        trace (unobserveIntersections element callback st) = trace st
        /\ observers (unobserveIntersections element callback st)
           = observers st
        /\ viewportObservers (unobserveIntersections element callback st)
           = viewportObservers st
        /\ viewportCallbacks (unobserveIntersections element callback st)
           = viewportCallbacks st)
    /\ (before ++ after = [] ->
        exists o,
          viewportObservers st !! getWin element = Some o
          /\ trace (unobserveIntersections element callback st)
             = trace st ++ [EvUnobserve o element]
          /\ viewportObservers (unobserveIntersections element callback st)
             = viewportObservers st
          /\ viewportCallbacks (unobserveIntersections element callback st)
             = delete element (viewportCallbacks st)).
Proof.
  intros Hreach Hin. pose proof (reachable_Inv st Hreach) as HI.
  destruct (removeItem_items (callbacksOf st element) callback)
    as [kept |] eqn:Ekept;
    [| by apply removeItem_items_None in Ekept].
  pose proof Ekept as (before & after & Heq & Hnot & ->)%removeItem_items_Some.
  exists before, after. split; [exact Heq |]. split; [exact Hnot |].
  split; [by rewrite callbacksOf_unobserveIntersections, Ekept |].
  destruct (unobserveIntersections_outcome element callback st)
    as [Hnone _ | a kept Ha Hkept Hne Hst | a Ha Hone Hst]; [done | |].
  - assert (kept = before ++ after) as ->.
    { unfold callbacksOf in Ekept. rewrite Ha in Ekept. congruence. }
    split; [| done]. intros _. by rewrite Hst.
  - assert (before ++ after = []) as Hempty.
    { unfold callbacksOf in Ekept. rewrite Ha, Hone in Ekept.
      simpl in Ekept. rewrite decide_True in Ekept by done. congruence. }
    split; [done |]. intros _.
    assert (element ∈ dom (viewportCallbacks st)) as Hdom
      by (apply elem_of_dom; by eexists).
    apply (inv_watched st HI) in Hdom as (o & Ho & _).
    exists o. split; [exact Ho |]. rewrite Hst, Ho. by simpl.
Qed.

(** C5, as amended.  The closure returned by a registration of
    [callback] for [element] changes nothing - neither registry, no
    observer, no event, in particular no [unobserve] call - whenever it
    is called in a state where [callback] is not among the callbacks of
    [element]; so a second call right after the first changes nothing
    when [callback] had no other registration for [element].  Called in
    a state of a run where [callback] is among the callbacks of
    [element] - it has another registration - the closure takes out one
    occurrence, the first, and no more: while callbacks stay for the
    element, the registries, the observers and the events are as
    before; when it was the last, [unobserve] is called for the element
    on the observer of its window and the element's entry is deleted. *)
Theorem unlisten_again_without_registration (element callback : nat)
    (st0 : State) :
  (forall st,
      callback ∉ callbacksOf st element ->
      callUnlisten (observeIntersections element callback st0).1 st = st)
  /\ (callback ∉ callbacksOf st0 element ->
      callUnlisten (observeIntersections element callback st0).1
        (callUnlisten (observeIntersections element callback st0).1
           (observeIntersections element callback st0).2)
      = callUnlisten (observeIntersections element callback st0).1
          (observeIntersections element callback st0).2)
  /\ (forall st,
        reachable st ->
        callback ∈ callbacksOf st element ->
        exists before after,
          callbacksOf st element = before ++ callback :: after
          /\ (callback ∉ before)
          /\ callbacksOf
               (callUnlisten (observeIntersections element callback st0).1
                  st) element
             = before ++ after
          /\ (before ++ after <> [] ->
              trace (callUnlisten
                       (observeIntersections element callback st0).1 st)
              = trace st
              /\ observers (callUnlisten
                              (observeIntersections element callback st0).1
                              st)
                 = observers st
              /\ viewportObservers
                   (callUnlisten
                      (observeIntersections element callback st0).1 st)
                 = viewportObservers st
              /\ viewportCallbacks
                   (callUnlisten
                      (observeIntersections element callback st0).1 st)
                 = viewportCallbacks st)
          /\ (before ++ after = [] ->
              exists o,
                viewportObservers st !! getWin element = Some o
                /\ trace (callUnlisten
                            (observeIntersections element callback st0).1
                            st)
                   = trace st ++ [EvUnobserve o element]
                /\ viewportObservers
                     (callUnlisten
                        (observeIntersections element callback st0).1 st)
                   = viewportObservers st
                /\ viewportCallbacks
                     (callUnlisten
                        (observeIntersections element callback st0).1 st)
                   = delete element (viewportCallbacks st))).
Proof.
  assert (Hnoop : forall st,
             callback ∉ callbacksOf st element ->
             unobserveIntersections element callback st = st).
  { intros st Hnot.
    destruct (unobserveIntersections_outcome element callback st)
      as [_ Heq | a kept Ha Hkept _ _ | a Ha Hone _].
    - done.
    - exfalso. apply Hnot. unfold callbacksOf. rewrite Ha.
      apply removeItem_items_Some in Hkept
        as (before & after & -> & _).
      apply elem_of_app. right. left.
    - exfalso. apply Hnot. unfold callbacksOf. rewrite Ha, Hone. left. }
  destruct (observeIntersections_fields element callback st0)
    as (o & a & -> & _). unfold callUnlisten. simpl.
  split; [exact Hnoop |].
  split; [| intros st; apply unobserveIntersections_registered].
  intros Hnot. apply Hnoop.
  rewrite callbacksOf_unobserveIntersections,
    callbacksOf_observeIntersections.
  assert (removeItem_items (callbacksOf st0 element ++ [callback]) callback
          = Some (callbacksOf st0 element)) as ->; [| done].
  apply removeItem_items_Some.
  exists (callbacksOf st0 element), []. by rewrite app_nil_r.
Qed.

End Registrations.

Section Duplicates.

Context `{Host} `{Subscribers}.

Lemma removeItem_items_two_at_end (items : list nat) (item : nat) :
  exists before after,
    items ++ [item; item] = before ++ item :: after
    /\ (item ∉ before)
    /\ item ∈ after
    /\ removeItem_items (items ++ [item; item]) item
       = Some (before ++ after).
Proof.
  destruct (removeItem_items (items ++ [item; item]) item) as [kept |] eqn:E.
  - pose proof E as (before & after & Heq & Hnot & ->)%removeItem_items_Some.
    exists before, after. repeat split; try done.
    destruct after as [| x after _] using rev_ind.
    + exfalso. apply Hnot.
      change (items ++ [item; item]) with (items ++ [item] ++ [item]) in Heq.
      rewrite app_assoc in Heq. apply app_inj_tail in Heq as [<- _].
      apply elem_of_app. right. left.
    + change (items ++ [item; item]) with (items ++ [item] ++ [item]) in Heq.
      change (before ++ item :: after ++ [x])
        with (before ++ (item :: after) ++ [x]) in Heq.
      rewrite !app_assoc in Heq. apply app_inj_tail in Heq as [_ <-].
      apply elem_of_app. right. left.
  - exfalso. apply removeItem_items_None in E. apply E.
    apply elem_of_app. right. left.
Qed.

(** Multiset semantics of registrations.  Two registrations of one
    callback for one element put two entries at the end of the element's
    callbacks.  Calling either of the two returned closures takes out one
    occurrence, the first, and only that: the callback still occurs after
    it, the element keeps its registry entry and no observer is called.
    And a dispatch naming the element, when the callbacks registered for
    it leave the module alone, calls the callback once for each of the
    two entries. *)
Lemma duplicate_registrations (element callback : nat) (st : State) :
  callbacksOf
    (observeIntersections element callback
       (observeIntersections element callback st).2).2 element
  = callbacksOf st element ++ [callback; callback]
  /\ (forall u,
        u = (observeIntersections element callback st).1
        \/ u = (observeIntersections element callback
                  (observeIntersections element callback st).2).1 ->
        exists before after,
          callbacksOf st element ++ [callback; callback]
          = before ++ callback :: after
          /\ (callback ∉ before)
          /\ callback ∈ after
          /\ callbacksOf
               (callUnlisten u
                  (observeIntersections element callback
                     (observeIntersections element callback st).2).2)
               element = before ++ after
          /\ element ∈ dom (viewportCallbacks
               (callUnlisten u
                  (observeIntersections element callback
                     (observeIntersections element callback st).2).2))
          /\ trace
               (callUnlisten u
                  (observeIntersections element callback
                     (observeIntersections element callback st).2).2)
             = trace
                 (observeIntersections element callback
                    (observeIntersections element callback st).2).2)
  /\ (forall fuel entry,
        target entry = element ->
        (forall c, c ∈ callbacksOf st element ++ [callback; callback] ->
                   quiet entry c) ->
        length (callbacksOf st element) + 2 < fuel ->
        exists st',
          ioCallback fuel [entry]
            (observeIntersections element callback
               (observeIntersections element callback st).2).2 = Some st'
          /\ trace st'
             = trace
                 (observeIntersections element callback
                    (observeIntersections element callback st).2).2
               ++ calls (callbacksOf st element) entry
               ++ [EvCall callback entry; EvCall callback entry]).
Proof.
  set (st1 := (observeIntersections element callback st).2).
  set (st2 := (observeIntersections element callback st1).2).
  assert (Htwo : callbacksOf st2 element
                 = callbacksOf st element ++ [callback; callback]).
  { unfold st2, st1. rewrite !callbacksOf_observeIntersections.
    by rewrite <- app_assoc. }
  split; [exact Htwo | split].
  - intros u Hu.
    assert (u = {| un_element := element; un_callback := callback |})
      as ->.
    { destruct (observeIntersections_fields element callback st)
        as (? & ? & Hd1 & _).
      destruct (observeIntersections_fields element callback st1)
        as (? & ? & Hd2 & _).
      destruct Hu as [-> | ->]; assumption. }
    unfold callUnlisten. simpl.
    destruct (removeItem_items_two_at_end (callbacksOf st element) callback)
      as (before & after & Heq & Hnot & Hin & Hrem).
    exists before, after. repeat split; try done.
    + by rewrite callbacksOf_unobserveIntersections, Htwo, Hrem.
    + destruct (unobserveIntersections_outcome element callback st2)
        as [Hout _ | a kept Ha _ _ -> | a Ha Hone _].
      * exfalso. apply Hout. rewrite Htwo.
        apply elem_of_app. right. left.
      * simpl. apply elem_of_dom. by eexists.
      * exfalso. unfold callbacksOf in Htwo. rewrite Ha, Hone in Htwo.
        apply (f_equal length) in Htwo. rewrite length_app in Htwo.
        simpl in Htwo. lia.
    + destruct (unobserveIntersections_outcome element callback st2)
        as [Hout _ | a kept Ha _ _ -> | a Ha Hone _].
      * exfalso. apply Hout. rewrite Htwo.
        apply elem_of_app. right. left.
      * done.
      * exfalso. unfold callbacksOf in Htwo. rewrite Ha, Hone in Htwo.
        apply (f_equal length) in Htwo. rewrite length_app in Htwo.
        simpl in Htwo. lia.
  - intros fuel entry Htarget Hquiet Hfuel.
    rewrite ioCallback_lastPerTarget. simpl.
    rewrite deliver_quiet.
    + eexists. split; [reflexivity |]. simpl.
      rewrite Htarget, Htwo. unfold calls. by rewrite map_app.
    + rewrite Htarget, Htwo. exact Hquiet.
    + rewrite Htarget, Htwo, length_app. simpl. lia.
Qed.

End Duplicates.

(** ** Runs on the sample host *)

Section Runs.

#[local] Existing Instance demoHost.

Lemma state_1_reachable (S : Subscribers) : reachable state_1.
Proof.
  eapply rtc_l; [apply (step_observe 5 1) | apply rtc_refl].
Defined.

Lemma state_1_2_reachable (S : Subscribers) : reachable state_1_2.
Proof.
  eapply rtc_l; [apply (step_observe 5 1) |].
  eapply rtc_l; [apply (step_observe 5 2) | apply rtc_refl].
Defined.

(** C2 (the code at the failing input).  Callback 1, then callback 2,
    are registered for element 5; callback 1 calls its closure when it
    is called.  A dispatch of one record for element 5 calls callback 1
    and ends: callback 2, registered before, during and after the
    dispatch, is not called.  With callbacks that leave the module
    alone the same dispatch calls 1, then 2. *)
Theorem dispatch_skips_next_subscriber (fuel : nat) :
  callbacksOf state_1_2 5 = [1; 2]
  /\ trace <$> @ioCallback demoHost oneShotSubscribers (S (S fuel))
                 [record 5 1] state_1_2
     = Some (trace state_1_2 ++ [EvCall 1 (record 5 1)])
  /\ (fun st => callbacksOf st 5)
       <$> @ioCallback demoHost oneShotSubscribers (S (S fuel))
             [record 5 1] state_1_2
     = Some [2]
  /\ trace <$> @ioCallback demoHost quietSubscribers (S (S (S fuel)))
                 [record 5 1] state_1_2
     = Some (trace state_1_2
             ++ [EvCall 1 (record 5 1); EvCall 2 (record 5 1)]).
Proof. repeat split; vm_compute; reflexivity. Qed.

(** C1 (the code at the failing input).  With the same registrations, a
    batch of two records for element 5 delivers the later record to
    callback 1 and no record at all to callback 2, which stays
    registered: the selected record is not delivered once to each
    subscriber.  The earlier record is delivered to nobody. *)
Theorem dispatch_two_records_skips_subscriber (fuel : nat) :
  callbacksOf state_1_2 5 = [1; 2]
  /\ trace <$> @ioCallback demoHost oneShotSubscribers (S (S fuel))
                 [record 5 0; record 5 1] state_1_2
     = Some (trace state_1_2 ++ [EvCall 1 (record 5 1)])
  /\ (fun st => callbacksOf st 5)
       <$> @ioCallback demoHost oneShotSubscribers (S (S fuel))
             [record 5 0; record 5 1] state_1_2
     = Some [2].
Proof. repeat split; vm_compute; reflexivity. Qed.

(** C5 (counterexample).  Callback 7 is registered twice for element 5.
    The closure of the first registration is called twice: the second
    call is not a no-op, it takes out the other registration, deletes
    the element's registry entry and calls [unobserve]. *)
Lemma unlisten_twice_takes_other_registration :
  let u := (observeIntersections 5 7 initial).1 in
  let once := callUnlisten u state_7_7 in
  let twice := callUnlisten u once in
  callbacksOf state_7_7 5 = [7; 7]
  /\ callbacksOf once 5 = [7]
  /\ viewportCallbacks once !! 5 = Some 0
  /\ viewportCallbacks twice !! 5 = None
  /\ trace twice = trace once ++ [EvUnobserve 0 5]
  /\ twice <> once.
Proof.
  repeat split; try (vm_compute; reflexivity).
  intros Heq. apply (f_equal trace) in Heq. vm_compute in Heq.
  discriminate.
Qed.

(** C8 (the code at the failing input).  Callback 2 is registered twice
    for element 5, behind the one-shot callback 1, and its two entries are
    stored.  A dispatch of one record for element 5 calls 1, then
    callback 2 once and ends: one of the two entries does not fire,
    although both stay registered.  With callbacks that leave the module
    alone both entries fire. *)
Theorem dispatch_skips_one_of_two_entries (fuel : nat) :
  callbacksOf state_1_2_2 5 = [1; 2; 2]
  /\ trace <$> @ioCallback demoHost oneShotSubscribers (S (S (S fuel)))
                 [record 5 1] state_1_2_2
     = Some (trace state_1_2_2
             ++ [EvCall 1 (record 5 1); EvCall 2 (record 5 1)])
  /\ (fun st => callbacksOf st 5)
       <$> @ioCallback demoHost oneShotSubscribers (S (S (S fuel)))
             [record 5 1] state_1_2_2
     = Some [2; 2]
  /\ trace <$> @ioCallback demoHost quietSubscribers (S (S (S (S fuel))))
                 [record 5 1] state_1_2_2
     = Some (trace state_1_2_2
             ++ [EvCall 1 (record 5 1); EvCall 2 (record 5 1);
                 EvCall 2 (record 5 1)]).
Proof. repeat split; vm_compute; reflexivity. Qed.

(** [invariant_A] on the state with callbacks 1 and 2 registered for
    element 5: element 5 is a key of the registry and is watched. *)
Lemma invariant_A_witness :
  @reachable demoHost quietSubscribers state_1_2
  /\ (5 ∈ dom (viewportCallbacks state_1_2) <->
      exists o, viewportObservers state_1_2 !! getWin 5 = Some o
                /\ watching (trace state_1_2) o 5 = true).
Proof.
  split; [apply state_1_2_reachable |].
  apply (@invariant_A demoHost quietSubscribers state_1_2
           (state_1_2_reachable quietSubscribers) 5).
Defined.

(** [one_observer_per_window] on the same state. *)
Lemma one_observer_per_window_witness :
  @reachable demoHost quietSubscribers state_1_2
  /\ (forall w, length (created (trace state_1_2) w) <= 1).
Proof.
  split; [apply state_1_2_reachable |].
  apply (@one_observer_per_window demoHost quietSubscribers state_1_2
           (state_1_2_reachable quietSubscribers)).
Defined.

(** [unobserve_on_last_callback] where callback 1 is the only one for
    element 5, and where callback 2 stays. *)
Lemma unobserve_on_last_callback_witness :
  (exists o,
      viewportObservers state_1 !! getWin 5 = Some o
      /\ trace (unobserveIntersections 5 1 state_1)
         = trace state_1 ++ [EvUnobserve o 5])
  /\ trace (unobserveIntersections 5 1 state_1_2) = trace state_1_2
  /\ callbacksOf (unobserveIntersections 5 1 state_1_2) 5 = [2].
Proof.
  destruct (@unobserve_on_last_callback demoHost quietSubscribers
              state_1 5 1 (state_1_reachable quietSubscribers))
    as [Hlast _].
  destruct (@unobserve_on_last_callback demoHost quietSubscribers
              state_1_2 5 1 (state_1_2_reachable quietSubscribers))
    as [_ Hstay].
  split.
  - destruct (Hlast eq_refl) as (o & Ho & Htr & _). by exists o.
  - destruct (Hstay [2] eq_refl ltac:(discriminate))
      as (Htr & _ & _ & _ & Hkept).
    by split.
Defined.

Lemma state_7_7_reachable (S : Subscribers) : reachable state_7_7.
Proof.
  eapply rtc_l; [apply (step_observe 5 7) |].
  eapply rtc_l; [apply (step_observe 5 7) | apply rtc_refl].
Defined.

(** [unlisten_again_without_registration] for the first registration of
    callback 1 for element 5, and for callback 7 registered twice for
    element 5: the closure of the first registration takes out one of the
    two entries, and called again, the last, with the [unobserve] call. *)
Lemma unlisten_again_without_registration_witness :
  callUnlisten (observeIntersections 5 1 initial).1
    (callUnlisten (observeIntersections 5 1 initial).1 state_1)
  = callUnlisten (observeIntersections 5 1 initial).1 state_1
  /\ (exists before after,
        callbacksOf state_7_7 5 = before ++ 7 :: after
        /\ callbacksOf
             (callUnlisten (observeIntersections 5 7 initial).1 state_7_7) 5
           = before ++ after
        /\ before ++ after = [7])
  /\ (exists o,
        trace (callUnlisten (observeIntersections 5 7 initial).1
                 (callUnlisten (observeIntersections 5 7 initial).1
                    state_7_7))
        = trace (callUnlisten (observeIntersections 5 7 initial).1
                   state_7_7)
          ++ [EvUnobserve o 5]).
Proof.
  destruct (@unlisten_again_without_registration demoHost quietSubscribers
              5 1 initial) as (_ & Htwice & _).
  destruct (@unlisten_again_without_registration demoHost quietSubscribers
              5 7 initial) as (_ & _ & Hmore).
  split; [| split].
  - apply Htwice. simpl. apply not_elem_of_nil.
  - destruct (Hmore state_7_7 (state_7_7_reachable quietSubscribers))
      as (before & after & Heq & Hnot & Hcbs & _).
    + assert (callbacksOf state_7_7 5 = [7; 7]) as -> by reflexivity. left.
    + exists before, after. split; [exact Heq |]. split; [exact Hcbs |].
      assert (callbacksOf state_7_7 5 = [7; 7]) as Hcb by reflexivity.
      rewrite Hcb in Heq. destruct before as [| x before].
      * simpl in Heq. by injection Heq as <-.
      * injection Heq as <- _. exfalso. apply Hnot. left.
  - destruct (Hmore
                (callUnlisten (observeIntersections 5 7 initial).1 state_7_7))
      as (before & after & Heq & Hnot & _ & _ & Hlast).
    + eapply rtc_r; [apply (state_7_7_reachable quietSubscribers) |].
      apply step_unlisten.
    + assert (callbacksOf
                (callUnlisten (observeIntersections 5 7 initial).1 state_7_7)
                5 = [7]) as -> by reflexivity.
      left.
    + assert (callbacksOf
                (callUnlisten (observeIntersections 5 7 initial).1 state_7_7)
                5 = [7]) as Hcb by reflexivity.
      rewrite Hcb in Heq.
      destruct before as [| x before]; simpl in Heq.
      * injection Heq as <-. destruct (Hlast eq_refl) as (o & _ & Htr & _).
        by exists o.
      * injection Heq as _ Heq. by destruct before.
Defined.

(** [duplicate_registrations] for callback 7 registered twice for
    element 5 with subscribers that leave the module alone. *)
Example duplicate_registrations_7_7 :
  callbacksOf state_7_7 5 = [7; 7]
  /\ exists st',
       @ioCallback demoHost quietSubscribers 3 [record 5 1] state_7_7
       = Some st'
       /\ trace st'
          = trace state_7_7 ++ [EvCall 7 (record 5 1); EvCall 7 (record 5 1)].
Proof.
  destruct (@duplicate_registrations demoHost quietSubscribers 5 7 initial)
    as (Htwo & _ & Hfire).
  split; [exact Htwo |].
  apply (Hfire 3 (record 5 1)).
  - reflexivity.
  - intros c _ history. reflexivity.
  - vm_compute. lia.
Defined.

End Runs.

End ViewportObserverFacts.

(* ===================================================================== *)
(** * More properties of the viewport observer *)
(* ===================================================================== *)

Module ViewportObserverShapeFacts.
Import ViewportObserver ViewportObserverShape ViewportObserverFacts.

Section Arrays.

Context `{Host}.

Lemma ArraysOwned_initial : ArraysOwned initial.
Proof.
  split; simpl.
  - intros e a He. by rewrite lookup_empty in He.
  - intros e1 e2 a He. by rewrite lookup_empty in He.
Qed.

Lemma ArraysOwned_log (ev : Event) (st : State) :
  ArraysOwned st -> ArraysOwned (log ev st).
Proof. intros [W1 W2]. split; simpl; assumption. Qed.

(** The array of another element is not the one a registration writes. *)
Lemma observeIntersections_other_array (element callback : nat) (st : State)
    (e0 a0 : nat) :
  ArraysOwned st ->
  e0 <> element ->
  viewportCallbacks st !! e0 = Some a0 ->
  viewportCallbacks (observeIntersections element callback st).2 !! e0
  = Some a0
  /\ array_at a0 (observeIntersections element callback st).2
     = array_at a0 st
  /\ arrays (observeIntersections element callback st).2 !! a0
     = arrays st !! a0.
Proof.
  intros [W1 W2] Hne He0.
  destruct (observeIntersections_fields element callback st)
    as (o & a & _ & _ & _ & Ha & Hcbs & Harr & _). simpl in *.
  assert (a0 <> a) as Hother.
  { intros ->. destruct Ha as [Ha | [_ Ha]].
    - apply Hne. by apply (W2 e0 element a).
    - destruct (W1 _ _ He0) as [_ Hsome]. rewrite Ha in Hsome.
      by destruct Hsome. }
  rewrite Hcbs, lookup_insert_ne by done. split; [done |].
  unfold array_at. rewrite Harr.
  by rewrite lookup_total_insert_ne, lookup_insert_ne.
Qed.

Lemma ArraysOwned_observeIntersections (element callback : nat) (st : State) :
  ArraysOwned st -> ArraysOwned (observeIntersections element callback st).2.
Proof.
  intros HW. pose proof HW as [W1 W2].
  destruct (observeIntersections_fields element callback st)
    as (o & a & _ & _ & _ & Ha & Hcbs & Harr & _). simpl in *.
  assert (Hmine : forall e0,
             e0 <> element ->
             viewportCallbacks st !! e0 <> Some a).
  { intros e0 Hne He0. destruct Ha as [Ha | [_ Ha]].
    - apply Hne. by apply (W2 e0 element a).
    - destruct (W1 _ _ He0) as [_ Hsome]. rewrite Ha in Hsome.
      by destruct Hsome. }
  split.
  - intros e0 a0. destruct (decide (e0 = element)) as [-> | Hne].
    + rewrite Hcbs, lookup_insert_eq. intros [= <-].
      unfold array_at. rewrite Harr, lookup_total_insert_eq, lookup_insert_eq.
      split; [| by eexists]. by destruct (callbacksOf st element).
    + intros He0. rewrite Hcbs, lookup_insert_ne in He0 by done.
      destruct (observeIntersections_other_array element callback st e0 a0
                  HW Hne He0) as (_ & -> & ->).
      by apply (W1 e0).
  - intros e1 e2 a0. rewrite Hcbs, !lookup_insert.
    repeat case_decide; subst; try done.
    + intros [= <-] He2. by apply Hmine in He2.
    + intros He1 [= <-]. by apply Hmine in He1.
    + apply W2.
Qed.

(** The array of another element is not the one an unregistration
    writes, and its registry entry stays. *)
Lemma unobserveIntersections_other_array (element callback : nat)
    (st : State) (e0 a0 : nat) :
  ArraysOwned st ->
  e0 <> element ->
  viewportCallbacks st !! e0 = Some a0 ->
  viewportCallbacks (unobserveIntersections element callback st) !! e0
  = Some a0
  /\ array_at a0 (unobserveIntersections element callback st)
     = array_at a0 st
  /\ arrays (unobserveIntersections element callback st) !! a0
     = arrays st !! a0.
Proof.
  intros [W1 W2] Hne He0.
  destruct (unobserveIntersections_outcome element callback st)
    as [_ -> | a kept Ha _ _ -> | a Ha _ ->]; [done | |].
  - assert (a0 <> a) by (intros ->; apply Hne; by apply (W2 e0 element a)).
    simpl. split; [done |]. unfold array_at. simpl.
    by rewrite lookup_total_insert_ne, lookup_insert_ne.
  - assert (a0 <> a) by (intros ->; apply Hne; by apply (W2 e0 element a)).
    simpl. rewrite lookup_delete_ne by done.
    destruct (viewportObservers st !! getWin element); simpl;
      (split; [done |]); unfold array_at; simpl;
      by rewrite lookup_total_insert_ne, lookup_insert_ne.
Qed.

Lemma unobserveIntersections_other_gone (element callback : nat)
    (st : State) (e0 : nat) :
  e0 <> element ->
  viewportCallbacks st !! e0 = None ->
  viewportCallbacks (unobserveIntersections element callback st) !! e0 = None.
Proof.
  intros Hne He0.
  destruct (unobserveIntersections_outcome element callback st)
    as [_ -> | a kept Ha _ _ -> | a Ha _ ->]; [done | done |].
  simpl. rewrite lookup_delete_ne by done.
  by destruct (viewportObservers st !! getWin element).
Qed.

Lemma ArraysOwned_unobserveIntersections (element callback : nat)
    (st : State) :
  ArraysOwned st -> ArraysOwned (unobserveIntersections element callback st).
Proof.
  intros HW. pose proof HW as [W1 W2].
  assert (Hback : forall e0 a0,
             viewportCallbacks (unobserveIntersections element callback st)
               !! e0 = Some a0 ->
             viewportCallbacks st !! e0 = Some a0).
  { intros e0 a0.
    destruct (unobserveIntersections_outcome element callback st)
      as [_ -> | a kept Ha _ _ -> | a Ha _ ->]; [done | done |].
    simpl. intros He0.
    assert (delete element (viewportCallbacks st) !! e0 = Some a0) as Hdel
      by (by destruct (viewportObservers st !! getWin element)).
    apply lookup_delete_Some in Hdel as [_ Hdel]. done. }
  split.
  - intros e0 a0 He0. pose proof (Hback _ _ He0) as He0'.
    destruct (decide (e0 = element)) as [-> | Hne].
    + destruct (unobserveIntersections_outcome element callback st)
        as [_ Heq | a kept Ha _ Hkept Heq | a Ha _ Heq].
      * rewrite Heq. by apply (W1 element).
      * rewrite Heq. rewrite Ha in He0'. injection He0' as <-.
        rewrite array_at_stored. split; [done |]. simpl.
        rewrite lookup_insert_eq. by eexists.
      * rewrite Heq in He0. simpl in He0.
        assert (delete element (viewportCallbacks st) !! element = Some a0)
          as Hdel by (by destruct (viewportObservers st !! getWin element)).
        by rewrite lookup_delete_eq in Hdel.
    + destruct (unobserveIntersections_other_array element callback st e0 a0
                  HW Hne He0') as (_ & -> & ->).
      by apply (W1 e0).
  - intros e1 e2 a0 He1 He2.
    apply (W2 e1 e2 a0); by apply Hback.
Qed.

Lemma ArraysOwned_kept : kept_by_module ArraysOwned.
Proof.
  split; [| split].
  - intros e c st. apply ArraysOwned_observeIntersections.
  - intros e c st. apply ArraysOwned_unobserveIntersections.
  - intros c r st. apply ArraysOwned_log.
Qed.

End Arrays.

Lemma removeItem_items_snoc (items : list nat) (item : nat) :
  item ∉ items -> removeItem_items (items ++ [item]) item = Some items.
Proof.
  intros Hnot. apply removeItem_items_Some.
  exists items, []. by rewrite app_nil_r.
Qed.

Section Ownership.

Context `{Host} `{Subscribers}.

Lemma reachable_ArraysOwned (st : State) : reachable st -> ArraysOwned st.
Proof.
  apply steps_kept; [apply ArraysOwned_kept | apply ArraysOwned_initial].
Qed.

Lemma registry_nonempty_key (st : State) (e : nat) :
  ArraysOwned st ->
  callbacksOf st e <> [] -> e ∈ dom (viewportCallbacks st).
Proof.
  intros _. unfold callbacksOf. rewrite elem_of_dom.
  destruct (viewportCallbacks st !! e); [by eexists | done].
Qed.

(** X1. In every state of a run, an element is a key of the callback
    registry exactly when it has at least one registered callback, and
    no two elements share a callback array. *)
Theorem registry_entries_nonempty_unshared (st : State) :
  reachable st ->
  (forall e, e ∈ dom (viewportCallbacks st) <-> callbacksOf st e <> [])
  /\ (forall e1 e2 a,
        viewportCallbacks st !! e1 = Some a ->
        viewportCallbacks st !! e2 = Some a ->
        e1 = e2).
Proof.
  intros Hreach. destruct (reachable_ArraysOwned st Hreach) as [W1 W2].
  split; [| exact W2].
  intros e. unfold callbacksOf. rewrite elem_of_dom.
  destruct (viewportCallbacks st !! e) as [a |] eqn:Ea.
  - split; [| by eexists]. intros _. by apply (W1 e a).
  - split; [by intros [? ?] | done].
Qed.

Lemma callbacksOf_other_observe (st : State) (element callback e0 : nat) :
  ArraysOwned st ->
  e0 <> element ->
  callbacksOf (observeIntersections element callback st).2 e0
  = callbacksOf st e0.
Proof.
  intros HW Hne. unfold callbacksOf.
  destruct (viewportCallbacks st !! e0) as [a0 |] eqn:E0.
  - destruct (observeIntersections_other_array element callback st e0 a0
                HW Hne E0) as (-> & -> & _). done.
  - destruct (observeIntersections_fields element callback st)
      as (o & a & _ & _ & _ & _ & Hcbs & _). simpl in *.
    by rewrite Hcbs, lookup_insert_ne, E0.
Qed.

Lemma callbacksOf_other_unobserve (st : State) (element callback e0 : nat) :
  ArraysOwned st ->
  e0 <> element ->
  callbacksOf (unobserveIntersections element callback st) e0
  = callbacksOf st e0.
Proof.
  intros HW Hne. unfold callbacksOf.
  destruct (viewportCallbacks st !! e0) as [a0 |] eqn:E0.
  - destruct (unobserveIntersections_other_array element callback st e0 a0
                HW Hne E0) as (-> & -> & _). done.
  - by rewrite (unobserveIntersections_other_gone element callback st e0).
Qed.

(** X2. In every state of a run, a registration and an unregistration for
    one element leave the callbacks of every other element, and whether
    it is a key of the registry, as they were. *)
Theorem registration_is_local (st : State) (element callback e0 : nat) :
  reachable st ->
  e0 <> element ->
  callbacksOf (observeIntersections element callback st).2 e0
  = callbacksOf st e0
  /\ callbacksOf (unobserveIntersections element callback st) e0
     = callbacksOf st e0
  /\ viewportCallbacks (observeIntersections element callback st).2 !! e0
     = viewportCallbacks st !! e0
  /\ viewportCallbacks (unobserveIntersections element callback st) !! e0
     = viewportCallbacks st !! e0.
Proof.
  intros Hreach Hne. pose proof (reachable_ArraysOwned st Hreach) as HW.
  split; [by apply callbacksOf_other_observe |].
  split; [by apply callbacksOf_other_unobserve |].
  split.
  - destruct (observeIntersections_fields element callback st)
      as (o & a & _ & _ & _ & _ & Hcbs & _). simpl in *.
    by rewrite Hcbs, lookup_insert_ne.
  - destruct (viewportCallbacks st !! e0) as [a0 |] eqn:E0.
    + by destruct (unobserveIntersections_other_array element callback st
                     e0 a0 HW Hne E0) as (-> & _).
    + by apply unobserveIntersections_other_gone.
Qed.

End Ownership.

Section RoundTrip.

Context `{Host} `{Subscribers}.

(** X3. In every state of a run, registering a callback that is not
    registered for the element and then calling the returned closure
    brings back the callback registry, the callbacks of every element and
    what every observer watches; the observers of the window registry
    stay (one may have been added for the element's window). *)
Theorem observe_unlisten_round_trip (st : State) (element callback : nat) :
  reachable st ->
  callback ∉ callbacksOf st element ->
  viewportCallbacks
    (callUnlisten (observeIntersections element callback st).1
       (observeIntersections element callback st).2)
  = viewportCallbacks st
  /\ (forall e0,
        callbacksOf
          (callUnlisten (observeIntersections element callback st).1
             (observeIntersections element callback st).2) e0
        = callbacksOf st e0)
  /\ (forall o e0,
        watching
          (trace (callUnlisten (observeIntersections element callback st).1
                    (observeIntersections element callback st).2)) o e0
        = watching (trace st) o e0)
  /\ (forall w o,
        viewportObservers st !! w = Some o ->
        viewportObservers
          (callUnlisten (observeIntersections element callback st).1
             (observeIntersections element callback st).2) !! w
        = Some o).
Proof.
  intros Hreach Hnot.
  pose proof (reachable_ArraysOwned st Hreach) as HW.
  pose proof (reachable_Inv st Hreach) as HI.
  assert (reachable (observeIntersections element callback st).2) as Hreach1.
  { eapply rtc_r; [exact Hreach | apply step_observe]. }
  pose proof (reachable_ArraysOwned _ Hreach1) as HW1.
  pose proof (callbacksOf_observeIntersections element callback st) as Hl1.
  destruct (observeIntersections_fields element callback st)
    as (o & a & -> & Ho & Hreg & Ha & Hcbs & Harr & _ & Htr).
  simpl in *. unfold callUnlisten. simpl.
  set (st1 := (observeIntersections element callback st).2) in *.
  assert (Ha1 : viewportCallbacks st1 !! element = Some a)
    by (rewrite Hcbs; apply lookup_insert_eq).
  assert (Harr1 : array_at a st1 = callbacksOf st element ++ [callback]).
  { unfold callbacksOf in Hl1 at 1. by rewrite Ha1 in Hl1. }
  assert (Hlast : array_at a st1 = [callback] ->
                  viewportCallbacks st !! element = None).
  { intros Hone. rewrite Hone in Harr1.
    destruct (viewportCallbacks st !! element) as [a0 |] eqn:E; [| done].
    exfalso. destruct (owned_nonempty st HW _ _ E) as [Hne _].
    apply Hne. unfold callbacksOf in Harr1. rewrite E in Harr1.
    destruct (array_at a0 st); [done |].
    apply (f_equal length) in Harr1. rewrite length_app in Harr1.
    simpl in Harr1. lia. }
  assert (Hstay : forall kept,
             removeItem_items (array_at a st1) callback = Some kept ->
             kept <> [] ->
             viewportCallbacks st !! element = Some a).
  { intros kept Hkept Hne. rewrite Harr1 in Hkept.
    rewrite removeItem_items_snoc in Hkept by done. injection Hkept as <-.
    destruct Ha as [Ha | [Ha _]]; [done |]. exfalso. apply Hne.
    unfold callbacksOf. by rewrite Ha. }
  assert (Hl2 : callbacksOf (unobserveIntersections element callback st1)
                  element = callbacksOf st element).
  { rewrite callbacksOf_unobserveIntersections, Hl1.
    by rewrite removeItem_items_snoc. }
  assert (Hwatch_o : viewportObservers st !! getWin element = None ->
                     forall e0, watching (trace st) o e0 = false).
  { intros Hnone e0. destruct Ho as [Ho | [_ Ho]]; [congruence |].
    destruct (watching (trace st) o e0) eqn:E; [| done].
    apply (inv_allocated st HI) in E. rewrite Ho in E. by destruct E. }
  assert (Hw1 : forall o0 e0,
             watching (trace st1) o0 e0 =
             if decide (o = o0 /\ element = e0) then true
             else watching (trace st) o0 e0).
  { intros o0 e0. rewrite Htr, app_assoc, watching_snoc. simpl.
    destruct (viewportObservers st !! getWin element).
    - by rewrite app_nil_r.
    - by rewrite watching_snoc. }
  assert (Hreg1 : viewportObservers st1 !! getWin element = Some o)
    by (rewrite Hreg; apply lookup_insert_eq).
  split; [| split; [| split]].
  - (* the callback registry *)
    destruct (unobserveIntersections_outcome element callback st1)
      as [Hout _ | a' kept Ha' Hkept Hne -> | a' Ha' Hone ->].
    + exfalso. apply Hout. rewrite Hl1. apply elem_of_app. right. left.
    + simpl. rewrite Hcbs. apply insert_id.
      rewrite Ha1 in Ha'. injection Ha' as <-. by apply (Hstay kept).
    + assert (viewportCallbacks st !! element = None) as Hnone.
      { rewrite Ha1 in Ha'. injection Ha' as <-. by apply Hlast. }
      simpl. rewrite Hcbs.
      by rewrite delete_insert_eq, delete_id.
  - (* the callbacks of every element *)
    intros e0. destruct (decide (e0 = element)) as [-> | Hne]; [done |].
    rewrite callbacksOf_other_unobserve by done.
    by apply callbacksOf_other_observe.
  - (* what the observers watch *)
    intros o0 e0.
    destruct (unobserveIntersections_outcome element callback st1)
      as [Hout _ | a' kept Ha' Hkept Hne -> | a' Ha' Hone ->].
    + exfalso. apply Hout. rewrite Hl1. apply elem_of_app. right. left.
    + simpl. rewrite Hw1. case_decide as Hc; [| done].
      destruct Hc as [<- <-].
      assert (element ∈ dom (viewportCallbacks st)) as Hdom.
      { rewrite Ha1 in Ha'. injection Ha' as <-.
        apply elem_of_dom. exists a. by apply (Hstay kept). }
      apply (inv_watched st HI) in Hdom as (o' & Ho' & Hwatch).
      destruct Ho as [Ho | [Ho _]]; congruence.
    + assert (viewportCallbacks st !! element = None) as Hnone.
      { rewrite Ha1 in Ha'. injection Ha' as <-. by apply Hlast. }
      simpl. rewrite Hreg1. simpl. rewrite watching_snoc. simpl.
      change (trace (set_arrays (<[a':=[]]> (arrays st1)) st1))
        with (trace st1).
      rewrite Hw1. case_decide as Hc.
      * destruct Hc as [<- <-]. symmetry.
        destruct (watching (trace st) o element) eqn:E; [| done].
        exfalso.
        assert (element ∈ dom (viewportCallbacks st)) as Hdom.
        { apply (inv_watched st HI).
          destruct Ho as [Ho | [Ho Hfresh]].
          - by exists o.
          - apply (inv_allocated st HI) in E. rewrite Hfresh in E.
            by destruct E. }
        apply elem_of_dom in Hdom as [? Hdom]. congruence.
      * done.
  - (* the window registry *)
    intros w o0 Hw0. rewrite unobserveIntersections_viewportObservers.
    rewrite Hreg, lookup_insert. case_decide; [| done].
    subst w. destruct Ho as [Ho | [Ho _]]; congruence.
Qed.

End RoundTrip.

Section Observers.

Context `{Host}.

Lemma ObserversShaped_initial : ObserversShaped initial.
Proof.
  split; simpl.
  - intros w o Hw. by rewrite lookup_empty in Hw.
  - intros o e Hin. by apply elem_of_nil in Hin.
  - intros w o Hw. by rewrite lookup_empty in Hw.
Qed.

Lemma ObserversShaped_set_arrays (m : gmap nat (list nat)) (st : State) :
  ObserversShaped st -> ObserversShaped (set_arrays m st).
Proof. intros [S1 S2 S3]. split; simpl; assumption. Qed.

Lemma ObserversShaped_log_call (c : nat) (r : IntersectionObserverEntry)
    (st : State) :
  ObserversShaped st -> ObserversShaped (log (EvCall c r) st).
Proof.
  intros [S1 S2 S3]. split; simpl.
  - assumption.
  - intros o e [Hin | Hin]%elem_of_app; [by apply S2 |].
    apply list_elem_of_singleton in Hin. discriminate.
  - intros w o Hw. destruct (S3 _ _ Hw) as (e & Hin & Hwin).
    exists e. split; [| done]. apply elem_of_app. by left.
Qed.

Lemma ObserversShaped_observeIntersections (element callback : nat)
    (st : State) :
  ObserversShaped st ->
  ObserversShaped (observeIntersections element callback st).2.
Proof.
  intros [S1 S2 S3].
  destruct (observeIntersections_fields element callback st)
    as (o & a & _ & Ho & Hreg & _ & _ & _ & Hobs & Htr).
  simpl in *.
  set (st' := (observeIntersections element callback st).2) in *.
  assert (Hreg_new : forall w o0,
             viewportObservers st' !! w = Some o0 ->
             (w = getWin element /\ o0 = o)
             \/ (w <> getWin element /\ viewportObservers st !! w = Some o0)).
  { intros w o0. rewrite Hreg, lookup_insert. case_decide.
    - intros [= <-]. left. done.
    - intros Hw. right. done. }
  assert (Hin_tr : forall ev, ev ∈ trace st -> ev ∈ trace st').
  { intros ev Hin. rewrite Htr. apply elem_of_app. by left. }
  assert (Hobserved : EvObserve o element ∈ trace st').
  { rewrite Htr, app_assoc. apply elem_of_app. right. left. }
  split.
  - intros w o0 Hw0. apply Hreg_new in Hw0 as [[-> ->] | [Hne Hw0]].
    + rewrite Hobs, lookup_alter_eq.
      destruct (viewportObservers st !! getWin element) as [o' |] eqn:E.
      * destruct Ho as [[= ->] | [? _]]; [| done].
        destruct (S1 _ _ E) as (obj & -> & Hcb & Hwin & Hthr & Hroot & Htg).
        eexists. split; [reflexivity |]. simpl.
        repeat split; try done.
        intros e [->%elem_of_singleton | Hin]%elem_of_union; auto.
      * rewrite lookup_insert_eq. eexists. split; [reflexivity |]. simpl.
        repeat split; try done.
        intros e [->%elem_of_singleton | Hin]%elem_of_union; [done |].
        by apply not_elem_of_empty in Hin.
    + destruct (S1 _ _ Hw0) as (obj & Hobj & Hrest).
      assert (o0 <> o) as Hother.
      { intros ->. destruct Ho as [Ho | [_ Ho]]; [| congruence].
        destruct (S1 _ _ Ho) as (obj' & Hobj' & _ & Hwin' & _).
        destruct Hrest as (_ & Hwin & _). congruence. }
      exists obj. split; [| done].
      rewrite Hobs, lookup_alter_ne by done.
      destruct (viewportObservers st !! getWin element); [done |].
      by rewrite lookup_insert_ne.
  - intros o0 e0. rewrite Htr, app_assoc.
    intros [Hin | Hin]%elem_of_app.
    + assert (EvObserve o0 e0 ∈ trace st) as Hold.
      { destruct (viewportObservers st !! getWin element).
        - by rewrite app_nil_r in Hin.
        - apply elem_of_app in Hin as [Hin | Hin]; [done |].
          apply list_elem_of_singleton in Hin. discriminate. }
      apply S2 in Hold. rewrite Hreg, lookup_insert. case_decide as Hwin; [| done].
      rewrite <- Hwin in Hold. destruct Ho as [Ho | [Ho _]]; congruence.
    + apply list_elem_of_singleton in Hin. injection Hin as -> ->.
      rewrite Hreg. apply lookup_insert_eq.
  - intros w o0 Hw0. apply Hreg_new in Hw0 as [[-> ->] | [Hne Hw0]].
    + by exists element.
    + destruct (S3 _ _ Hw0) as (e & Hin & Hwin). exists e. auto.
Qed.

Lemma ObserversShaped_unobserveIntersections (element callback : nat)
    (st : State) :
  ObserversShaped st ->
  ObserversShaped (unobserveIntersections element callback st).
Proof.
  intros HS.
  destruct (unobserveIntersections_outcome element callback st)
    as [_ -> | a kept _ _ _ -> | a Ha _ ->];
    [done | by apply ObserversShaped_set_arrays |].
  apply (ObserversShaped_set_arrays (<[a := []]> (arrays st))) in HS.
  destruct HS as [S1 S2 S3]. simpl in *.
  destruct (viewportObservers st !! getWin element) as [o |] eqn:Eo;
    [| split; simpl; assumption].
  split; simpl.
  - intros w o0 Hw0.
    destruct (S1 _ _ Hw0) as (obj & Hobj & Hcb & Hwin & Hthr & Hroot & Htg).
    rewrite lookup_alter. case_decide as Heq.
    + subst o0. rewrite Hobj. eexists. split; [reflexivity |]. simpl.
      repeat split; try done.
      intros e [Hin _]%elem_of_difference. auto.
    + exists obj. done.
  - intros o0 e0 [Hin | Hin]%elem_of_app; [by apply S2 |].
    apply list_elem_of_singleton in Hin. discriminate.
  - intros w o0 Hw0. destruct (S3 _ _ Hw0) as (e & Hin & Hwin).
    exists e. split; [| done]. apply elem_of_app. by left.
Qed.

Lemma ObserversShaped_kept : kept_by_module ObserversShaped.
Proof.
  split; [| split].
  - intros e c st. apply ObserversShaped_observeIntersections.
  - intros e c st. apply ObserversShaped_unobserveIntersections.
  - intros c r st. apply ObserversShaped_log_call.
Qed.

End Observers.

Section ObserverRegistry.

Context `{Host} `{Subscribers}.

Lemma reachable_ObserversShaped (st : State) :
  reachable st -> ObserversShaped st.
Proof.
  apply steps_kept; [apply ObserversShaped_kept | apply ObserversShaped_initial].
Qed.

(** X4. In every state of a run, the observer of a window in the window
    registry is an object that was constructed with [ioCallback], for
    that window, with no threshold and no root - also for an iframed
    window - and every element it holds belongs to that window. *)
Theorem registry_observer_shape (st : State) (w o : nat) :
  reachable st ->
  viewportObservers st !! w = Some o ->
  exists obj,
    observers st !! o = Some obj
    /\ io_callback obj = ioCallbackFn
    /\ io_win obj = w
    /\ io_threshold obj = None
    /\ io_root obj = None
    /\ forall e, e ∈ io_targets obj -> getWin e = w.
Proof.
  intros Hreach. apply (shaped_made st (reachable_ObserversShaped st Hreach)).
Qed.

(** X5. Invariant B: in every state of a run, a window is a key of the
    window registry exactly when [observe] was called for an element of
    that window; and every [observe] call for an element was made on the
    observer that the registry holds for the element's window. *)
Theorem window_registry_invariant_B (st : State) :
  reachable st ->
  (forall w,
      w ∈ dom (viewportObservers st) <->
      exists o e, EvObserve o e ∈ trace st /\ getWin e = w)
  /\ (forall o e,
        EvObserve o e ∈ trace st ->
        viewportObservers st !! getWin e = Some o).
Proof.
  intros Hreach.
  destruct (reachable_ObserversShaped st Hreach) as [S1 S2 S3].
  split; [| exact S2].
  intros w. rewrite elem_of_dom. split.
  - intros [o Hw]. destruct (S3 _ _ Hw) as (e & Hin & Hwin). by exists o, e.
  - intros (o & e & Hin & <-). exists o. by apply S2.
Qed.

End ObserverRegistry.

Section Batches.

Context `{Host} `{Subscribers}.

(** X6. Whatever the callbacks do, a dispatch is the sequence of walks for
    the records that are the last of the batch for their target, the
    latest record first: each target of the batch is served by exactly
    one of these records, and a record is served exactly when no record
    after it in the batch has its target. *)
Theorem dispatch_serves_last_record_per_target (fuel : nat)
    (entries : list IntersectionObserverEntry) (st : State) :
  ioCallback fuel entries st
  = deliverAll fuel (reverse (lastPerTarget entries)) st
  /\ NoDup (target <$> lastPerTarget entries)
  /\ (forall e, e ∈ target <$> entries
                <-> e ∈ target <$> lastPerTarget entries)
  /\ (forall r, r ∈ lastPerTarget entries <->
                exists before after,
                  entries = before ++ r :: after
                  /\ (target r ∉ target <$> after)).
Proof.
  split; [apply ioCallback_lastPerTarget |].
  split; [apply lastPerTarget_NoDup |].
  split; [apply lastPerTarget_targets | apply lastPerTarget_latest].
Qed.

Lemma deliverAll_quiet (fuel : nat) (served : list IntersectionObserverEntry)
    (st : State) (evs : list Event) :
  (forall r c, r ∈ served -> c ∈ callbacksOf st (target r) -> quiet r c) ->
  (forall r, r ∈ served -> length (callbacksOf st (target r)) < fuel) ->
  deliverAll fuel served (logAll evs st)
  = Some (logAll (evs ++ flat_map
                           (fun r => calls (callbacksOf st (target r)) r)
                           served) st).
Proof.
  revert evs. induction served as [| r rest IH]; intros evs Hq Hfuel; simpl.
  - by rewrite app_nil_r.
  - rewrite deliver_quiet.
    + rewrite logAll_logAll, IH.
      * by rewrite <- app_assoc.
      * intros r' c Hin. apply Hq. by right.
      * intros r' Hin. apply Hfuel. by right.
    + intros c Hc. apply (Hq r c); [left | exact Hc].
    + apply (Hfuel r). left.
Qed.

(** X7. When the callbacks registered for the targets of a batch leave
    the module alone on the records of the batch, a dispatch with enough
    fuel returns, and all it does is call, for each served record, the
    latest first, every callback registered for the record's target,
    once, in the order of registration, with that record. *)
Theorem dispatch_calls_registered_callbacks_in_order (fuel : nat)
    (entries : list IntersectionObserverEntry) (st : State) :
  (forall r c, r ∈ entries -> c ∈ callbacksOf st (target r) -> quiet r c) ->
  (forall r, r ∈ entries -> length (callbacksOf st (target r)) < fuel) ->
  ioCallback fuel entries st
  = Some (logAll
            (flat_map (fun r => calls (callbacksOf st (target r)) r)
                      (reverse (lastPerTarget entries)))
            st).
Proof.
  intros Hq Hfuel. rewrite ioCallback_lastPerTarget.
  pose proof (deliverAll_quiet fuel (reverse (lastPerTarget entries)) st [])
    as Hall.
  rewrite logAll_nil in Hall. apply Hall.
  - intros r c Hin. apply Hq.
    apply lastPerTarget_subset. by apply elem_of_reverse.
  - intros r Hin. apply Hfuel.
    apply lastPerTarget_subset. by apply elem_of_reverse.
Qed.

(** X8. A batch none of whose targets is a key of the callback registry
    changes nothing and calls nothing, whatever the fuel. *)
Theorem dispatch_without_subscribers (fuel : nat)
    (entries : list IntersectionObserverEntry) (st : State) :
  (forall r, r ∈ entries -> viewportCallbacks st !! target r = None) ->
  ioCallback fuel entries st = Some st.
Proof.
  intros Hnone. rewrite ioCallback_lastPerTarget.
  assert (forall served : list IntersectionObserverEntry,
             (forall r, r ∈ served -> r ∈ entries) ->
             deliverAll fuel served st = Some st) as Hall.
  { induction served as [| r rest IH]; intros Hsub; [done |].
    simpl. unfold deliver. rewrite Hnone by (apply Hsub; left).
    apply IH. intros r' Hin. apply Hsub. by right. }
  apply Hall. intros r Hin.
  apply lastPerTarget_subset. by apply elem_of_reverse.
Qed.

(** A walk over an array that every called callback makes longer runs
    out of any fuel. *)
Lemma callLoop_reregistering (fuel : nat) (a : nat)
    (entry : IntersectionObserverEntry) (k : nat) (st : State) :
  reregistering entry ->
  viewportCallbacks st !! target entry = Some a ->
  k < length (array_at a st) ->
  callLoop fuel a entry k st = None.
Proof.
  intros Hre. revert k st.
  induction fuel as [| fuel IH]; intros k st Ha Hk; [done |].
  simpl. destruct (lookup_lt_is_Some_2 (array_at a st) k Hk) as [c Hc].
  rewrite Hc. unfold invoke. rewrite Hre. unfold runActions. simpl.
  set (st0 := log (EvCall c entry) st).
  destruct (observeIntersections_fields (target entry) c st0)
    as (o & a' & _ & _ & _ & Ha' & Hcbs & Harr & _). simpl in *.
  assert (a' = a) as ->.
  { destruct Ha' as [Ha' | [Ha' _]]; unfold st0 in Ha'; simpl in Ha';
      congruence. }
  apply IH.
  - rewrite Hcbs. apply lookup_insert_eq.
  - unfold array_at at 1. rewrite Harr, lookup_total_insert_eq.
    unfold callbacksOf. unfold st0 at 1. simpl. rewrite Ha.
    rewrite length_app. simpl.
    change (array_at a st0) with (array_at a st). lia.
Qed.

(** X9. When every callback answers a call with a record by registering
    itself again for the record's target, a dispatch whose last record
    names an element that has a callback does not return: whatever the
    fuel, the walk over the growing array runs out of it. *)
Theorem dispatch_does_not_return (fuel : nat)
    (entries : list IntersectionObserverEntry)
    (entry : IntersectionObserverEntry) (st : State) :
  reregistering entry ->
  callbacksOf st (target entry) <> [] ->
  ioCallback fuel (entries ++ [entry]) st = None.
Proof.
  intros Hre Hsome. unfold ioCallback.
  rewrite length_app. simpl. rewrite Nat.add_1_r. simpl.
  rewrite lookup_app_r by done. rewrite Nat.sub_diag. simpl.
  rewrite decide_False by apply not_elem_of_empty.
  unfold callbacksOf in Hsome.
  destruct (viewportCallbacks st !! target entry) as [a |] eqn:Ea; [| done].
  rewrite (callLoop_reregistering fuel a entry 0 st Hre Ea); [done |].
  destruct (array_at a st); [done | simpl; lia].
Qed.

End Batches.

(** ** The theorems above on the sample host *)

Section ShapeRuns.

#[local] Existing Instance demoHost.

Lemma state_two_windows_reachable (S : Subscribers) :
  reachable state_two_windows.
Proof.
  eapply rtc_r; [apply (state_1_2_reachable S) | apply (step_observe 15 3)].
Defined.

Lemma registry_entries_nonempty_unshared_witness :
  @reachable demoHost quietSubscribers state_two_windows
  /\ (forall e, e ∈ dom (viewportCallbacks state_two_windows)
                <-> callbacksOf state_two_windows e <> []).
Proof.
  split; [apply state_two_windows_reachable |].
  apply (@registry_entries_nonempty_unshared demoHost quietSubscribers
           state_two_windows (state_two_windows_reachable quietSubscribers)).
Defined.

Lemma registration_is_local_witness :
  callbacksOf (observeIntersections 15 4 state_two_windows).2 5 = [1; 2]
  /\ callbacksOf (unobserveIntersections 15 3 state_two_windows) 5 = [1; 2].
Proof.
  destruct (@registration_is_local demoHost quietSubscribers
              state_two_windows 15 4 5
              (state_two_windows_reachable quietSubscribers)
              ltac:(discriminate)) as (Hobs & _).
  destruct (@registration_is_local demoHost quietSubscribers
              state_two_windows 15 3 5
              (state_two_windows_reachable quietSubscribers)
              ltac:(discriminate)) as (_ & Hunobs & _).
  split; [exact Hobs | exact Hunobs].
Defined.

Lemma observe_unlisten_round_trip_witness :
  viewportCallbacks
    (callUnlisten (observeIntersections 25 9 state_two_windows).1
       (observeIntersections 25 9 state_two_windows).2)
  = viewportCallbacks state_two_windows.
Proof.
  apply (@observe_unlisten_round_trip demoHost quietSubscribers
           state_two_windows 25 9
           (state_two_windows_reachable quietSubscribers)).
  vm_compute. apply not_elem_of_nil.
Defined.

Lemma registry_observer_shape_witness :
  exists obj,
    observers state_two_windows !! 1 = Some obj
    /\ io_callback obj = ioCallbackFn
    /\ io_win obj = 1
    /\ io_threshold obj = None
    /\ io_root obj = None
    /\ forall e, e ∈ io_targets obj -> getWin e = 1.
Proof.
  apply (@registry_observer_shape demoHost quietSubscribers
           state_two_windows 1 1
           (state_two_windows_reachable quietSubscribers)).
  reflexivity.
Defined.

Lemma window_registry_invariant_B_witness :
  @reachable demoHost quietSubscribers state_two_windows
  /\ (forall w,
        w ∈ dom (viewportObservers state_two_windows) <->
        exists o e, EvObserve o e ∈ trace state_two_windows /\ getWin e = w).
Proof.
  split; [apply state_two_windows_reachable |].
  apply (@window_registry_invariant_B demoHost quietSubscribers
           state_two_windows (state_two_windows_reachable quietSubscribers)).
Defined.

Lemma dispatch_calls_registered_callbacks_in_order_witness :
  @ioCallback demoHost quietSubscribers 3
    [record 5 0; record 15 1; record 5 2] state_two_windows
  = Some (logAll [EvCall 1 (record 5 2); EvCall 2 (record 5 2);
                  EvCall 3 (record 15 1)] state_two_windows).
Proof.
  apply (@dispatch_calls_registered_callbacks_in_order demoHost
           quietSubscribers 3 [record 5 0; record 15 1; record 5 2]
           state_two_windows).
  - intros r c _ _ history. reflexivity.
  - intros r Hin.
    apply elem_of_cons in Hin as [-> | Hin]; [vm_compute; lia |].
    apply elem_of_cons in Hin as [-> | Hin]; [vm_compute; lia |].
    apply list_elem_of_singleton in Hin as ->. vm_compute. lia.
Defined.

Lemma dispatch_without_subscribers_witness :
  @ioCallback demoHost oneShotSubscribers 0 [record 7 0; record 8 1]
    state_two_windows
  = Some state_two_windows.
Proof.
  apply (@dispatch_without_subscribers demoHost oneShotSubscribers 0
           [record 7 0; record 8 1] state_two_windows).
  intros r Hin.
  apply elem_of_cons in Hin as [-> | Hin]; [reflexivity |].
  apply list_elem_of_singleton in Hin as ->. reflexivity.
Defined.

Lemma dispatch_does_not_return_witness :
  @ioCallback demoHost echoSubscribers 1000 ([record 15 0] ++ [record 5 1])
    state_two_windows
  = None.
Proof.
  apply (@dispatch_does_not_return demoHost echoSubscribers 1000
           [record 15 0] (record 5 1) state_two_windows).
  - intros c history. reflexivity.
  - vm_compute. discriminate.
Defined.

End ShapeRuns.

End ViewportObserverShapeFacts.

(* ===================================================================== *)
(** * More properties of the loading instructions *)
(* ===================================================================== *)

Module LoadingAlgebra.
Import Loading LoadingFacts.
Local Open Scope string_scope.

(** A name that [Object.prototype] defines reads from [MAP] as the
    inherited built-in, which [|| 0] keeps. *)
Lemma orZero_MAP_get_inherited (v : string) :
  inherited v = true -> orZero (MAP_get v) = PBuiltin v.
Proof.
  unfold inherited. intros Hv. apply existsb_exists in Hv as (name & Hin & Heq).
  apply String.eqb_eq in Heq. subst name.
  unfold Object_prototype in Hin. simpl in Hin.
  repeat (destruct Hin as [<- | Hin]; [reflexivity |]). destruct Hin.
Qed.

Lemma ORDER_priority (n : nat) :
  n <= 3 ->
  exists v, ORDER !! n = Some v /\ priority v = n /\ inherited v = false.
Proof.
  intros Hn. destruct n as [| [| [| [| n]]]]; [| | | | lia];
    eexists; (split; [reflexivity |]); split; reflexivity.
Qed.

(** X10. [reducer] by cases, for all strings: when neither argument is
    the name of a property of [Object.prototype], the answer is the enum
    value of the higher documented priority, a string that is no enum
    value counting as auto; as soon as one argument is such a name, the
    answer is [undefined]. *)
Theorem reducer_by_cases (v1 v2 : string) :
  (inherited v1 = false -> inherited v2 = false ->
   reducer v1 v2 = ORDER !! Nat.max (priority v1) (priority v2)
   /\ isLoadingEnum (reducer v1 v2))
  /\ (inherited v1 = true \/ inherited v2 = true -> reducer v1 v2 = None).
Proof.
  split.
  - intros H1 H2. unfold reducer.
    rewrite (orZero_MAP_get v1 H1), (orZero_MAP_get v2 H2). simpl.
    split; [reflexivity |].
    pose proof (priority_bound v1). pose proof (priority_bound v2).
    unfold isLoadingEnum.
    destruct (Nat.max (priority v1) (priority v2)) as [| [| [| [| n]]]] eqn:E;
      simpl; auto.
    lia.
  - intros [H1 | H2]; unfold reducer.
    + rewrite (orZero_MAP_get_inherited v1 H1). reflexivity.
    + rewrite (orZero_MAP_get_inherited v2 H2). unfold Math_max.
      by destruct (toNumber (orZero (MAP_get v1))).
Qed.

Lemma reducer_by_cases_witness :
  (reducer "eager" "bogus" = ORDER !! Nat.max (priority "eager")
                                              (priority "bogus")
   /\ isLoadingEnum (reducer "eager" "bogus"))
  /\ reducer "eager" "valueOf" = None.
Proof.
  split.
  - apply (reducer_by_cases "eager" "bogus"); reflexivity.
  - apply (reducer_by_cases "eager" "valueOf"). right. reflexivity.
Defined.

(** X11. [reducer] as the operation of a fold: it is commutative on all
    strings; on strings that are no property names of [Object.prototype]
    it is associative (the intermediate answers are strings again);
    [unload] absorbs every such string; and on the four enum values
    [auto] is neutral and every value is idempotent. *)
Theorem reducer_fold_laws :
  (forall v1 v2, reducer v1 v2 = reducer v2 v1)
  /\ (forall a b c,
        inherited a = false -> inherited b = false -> inherited c = false ->
        exists x y,
          reducer a b = Some x /\ reducer b c = Some y
          /\ reducer x c = reducer a y)
  /\ (forall v, inherited v = false -> reducer UNLOAD v = Some UNLOAD)
  /\ (forall v, isLoadingEnum (Some v) ->
                reducer AUTO v = Some v /\ reducer v v = Some v).
Proof.
  split; [| split; [| split]].
  - intros v1 v2. unfold reducer. by rewrite Math_max_comm.
  - intros a b c Ha Hb Hc.
    pose proof (priority_bound a). pose proof (priority_bound b).
    pose proof (priority_bound c).
    destruct (ORDER_priority (Nat.max (priority a) (priority b)))
      as (x & Hx & Hpx & Hix); [lia |].
    destruct (ORDER_priority (Nat.max (priority b) (priority c)))
      as (y & Hy & Hpy & Hiy); [lia |].
    exists x, y. unfold reducer.
    rewrite (orZero_MAP_get a Ha), (orZero_MAP_get b Hb),
      (orZero_MAP_get c Hc), (orZero_MAP_get x Hix), (orZero_MAP_get y Hiy).
    simpl. rewrite Hpx, Hpy, Nat.max_assoc. done.
  - intros v Hv. unfold reducer.
    rewrite (orZero_MAP_get v Hv). simpl.
    pose proof (priority_bound v).
    replace (Nat.max 3 (priority v)) with 3 by lia. reflexivity.
  - intros v [Hv | [Hv | [Hv | Hv]]]; injection Hv as ->;
      split; reflexivity.
Qed.

Lemma reducer_fold_laws_witness :
  (exists x y,
      reducer "lazy" "bogus" = Some x /\ reducer "bogus" "eager" = Some y
      /\ reducer x "eager" = reducer "lazy" y)
  /\ reducer UNLOAD "bogus" = Some UNLOAD
  /\ reducer AUTO "lazy" = Some "lazy".
Proof.
  destruct reducer_fold_laws as (_ & Hassoc & Hunload & Hauto).
  split; [| split].
  - apply (Hassoc "lazy" "bogus" "eager"); reflexivity.
  - apply (Hunload "bogus"). reflexivity.
  - apply (Hauto "lazy"). right. left. reflexivity.
Defined.

End LoadingAlgebra.

(* ===================================================================== *)
(** * Properties of the object helpers *)
(* ===================================================================== *)

Module ObjectsFacts.
Import Objects.

(** ** Splitting at dots *)

Lemma split_dot_nonempty (s : string) : split_dot s <> [].
Proof.
  destruct s as [| c rest]; simpl; [done |].
  destruct (isDot c); [done |].
  by destruct (split_dot rest).
Qed.

Lemma append_empty (s : string) : ("" +:+ s)%string = s.
Proof. reflexivity. Qed.

Lemma append_String (c : Ascii.ascii) (a s : string) :
  (String c a +:+ s)%string = String c (a +:+ s).
Proof. reflexivity. Qed.

Lemma split_dot_join (a b : string) :
  split_dot (a +:+ "." +:+ b) = split_dot a ++ split_dot b.
Proof.
  induction a as [| c a IH]; [done |].
  rewrite append_String. simpl.
  destruct (isDot c).
  - by rewrite IH.
  - rewrite IH. destruct (split_dot a) as [| first others] eqn:E; [| done].
    by apply split_dot_nonempty in E.
Qed.

Lemma join_not_dot (a b : string) :
  ~ (a = ""%string /\ b = ""%string) ->
  String.eqb (a +:+ "." +:+ b) "." = false.
Proof.
  intros Hne. apply String.eqb_neq. intros Heq.
  destruct a as [| c a].
  - rewrite append_empty, append_String, append_empty in Heq.
    injection Heq as ->. by apply Hne.
  - rewrite append_String in Heq. injection Heq as _ Heq.
    destruct a; [| by rewrite append_String in Heq].
    by rewrite append_empty, append_String in Heq.
Qed.

Section Navigation.

Context `{JsonNumber number}.

Lemma navigate_undefined (inherits : Json number -> string -> bool)
    (parts : list string) :
  parts <> [] -> navigate inherits parts JUndefined = JUndefined.
Proof.
  destruct parts as [| part rest]; [done |]. intros _. simpl.
  by rewrite andb_false_r.
Qed.

Lemma navigate_app (inherits : Json number -> string -> bool)
    (l1 l2 : list string) (value : Json number) :
  l2 <> [] ->
  navigate inherits (l1 ++ l2) value
  = navigate inherits l2 (navigate inherits l1 value).
Proof.
  intros Hl2. revert value. induction l1 as [| part rest IH]; intros value;
    simpl; [done |].
  destruct (negb (String.eqb part "") && truthy value
            && propDefined inherits value part && typeofObject value
            && hasOwn value part).
  - apply IH.
  - by rewrite navigate_undefined.
Qed.

(** The test of one turn of the loop does not read the prototypes: with
    [hasOwn] it asks for an own property that is not [undefined]. *)
Lemma navigate_step_own (inherits : Json number -> string -> bool)
    (value : Json number) (part : string) :
  propDefined inherits value part && (typeofObject value && hasOwn value part)
  = match ownProp value part with
    | Some v => negb (isUndefined v) && typeofObject value
    | None => false
    end.
Proof.
  unfold propDefined, hasOwn.
  destruct (ownProp value part) as [v |], (typeofObject value).
  - by destruct (isUndefined v).
  - by destruct (isUndefined v).
  - by destruct (inherits value part).
  - by destruct (inherits value part).
Qed.

Lemma navigate_prototypes (inherits1 inherits2 : Json number -> string -> bool)
    (parts : list string) (value : Json number) :
  navigate inherits1 parts value = navigate inherits2 parts value.
Proof.
  revert value. induction parts as [| part rest IH]; intros value; simpl;
    [done |].
  rewrite <- !andb_assoc.
  rewrite (navigate_step_own inherits1), (navigate_step_own inherits2).
  destruct (negb (String.eqb part "") && (truthy value && _)); [apply IH | done].
Qed.

Lemma navigate_empty_part (inherits : Json number -> string -> bool)
    (parts : list string) (value : Json number) :
  ""%string ∈ parts -> navigate inherits parts value = JUndefined.
Proof.
  revert value. induction parts as [| part rest IH]; intros value Hin.
  - by apply elem_of_nil in Hin.
  - simpl. apply elem_of_cons in Hin as [<- | Hin]; [done |].
    destruct (negb (String.eqb part "") && truthy value
              && propDefined inherits value part && typeofObject value
              && hasOwn value part); [by apply IH | done].
Qed.

(** X12. Navigation composes: for expressions [a] and [b] other than
    ["."] and not both empty, the value at [a.b] is the value at [b] of
    the value at [a]. *)
Theorem getValueForExpr_compose
    (inherits : Json number -> string -> bool) (obj : Json number)
    (a b : string) :
  a <> "."%string -> b <> "."%string ->
  ~ (a = ""%string /\ b = ""%string) ->
  getValueForExpr inherits obj (a +:+ "." +:+ b)
  = getValueForExpr inherits (getValueForExpr inherits obj a) b.
Proof.
  intros Ha Hb Hab. unfold getValueForExpr.
  rewrite (join_not_dot a b Hab).
  apply String.eqb_neq in Ha, Hb. rewrite Ha, Hb.
  rewrite split_dot_join. apply navigate_app. apply split_dot_nonempty.
Qed.

(** X13. Only own properties are found.  The answer does not depend on
    what the prototypes of the values define; and for a key without a dot
    it is the own property of that name of an object or an array, and
    [undefined] for every other value and for a missing key; on an object
    and on an array it is what [ownProperty] returns. *)
Theorem getValueForExpr_own_properties_only
    (inherits1 inherits2 : Json number -> string -> bool)
    (obj : Json number) :
  (forall expr,
      getValueForExpr inherits1 obj expr = getValueForExpr inherits2 obj expr)
  /\ (forall key,
        key <> ""%string -> split_dot key = [key] ->
        getValueForExpr inherits1 obj key
        = (if typeofObject obj then default JUndefined (ownProp obj key)
           else JUndefined)
        /\ (typeofObject obj = true -> isNullish obj = false ->
            ownProperty obj key = Some (getValueForExpr inherits1 obj key))).
Proof.
  split.
  - intros expr. unfold getValueForExpr.
    destruct (String.eqb expr "."); [done | apply navigate_prototypes].
  - intros key Hkey Hsplit.
    assert (getValueForExpr inherits1 obj key
            = if typeofObject obj then default JUndefined (ownProp obj key)
              else JUndefined) as ->;
      [| split; [done |]; intros -> Hnull; unfold ownProperty, hasOwn;
         rewrite Hnull; by destruct (ownProp obj key)].
    unfold getValueForExpr.
    assert (String.eqb key "." = false) as ->.
    { apply String.eqb_neq. intros ->. simpl in Hsplit. discriminate. }
    rewrite Hsplit. simpl.
    apply String.eqb_neq in Hkey. rewrite Hkey. simpl.
    rewrite <- !andb_assoc, navigate_step_own.
    destruct (ownProp obj key) as [v |] eqn:E; simpl.
    + destruct obj as [| | b | n | s | items | proto props];
        try discriminate; simpl.
      * by destruct (negb (String.eqb s "")), (isUndefined v).
      * by destruct v.
      * by destruct v.
    + destruct (truthy obj), (typeofObject obj); done.
Qed.

(** X14. An expression other than ["."] with an empty segment - the empty
    expression, a leading or a trailing dot, two dots in a row - gives
    [undefined], whatever the object. *)
Theorem getValueForExpr_empty_segment
    (inherits : Json number -> string -> bool) (obj : Json number) :
  (forall expr,
      expr <> "."%string -> ""%string ∈ split_dot expr ->
      getValueForExpr inherits obj expr = JUndefined)
  /\ getValueForExpr inherits obj "" = JUndefined
  /\ (forall a, a <> ""%string ->
                getValueForExpr inherits obj ("." +:+ a) = JUndefined
                /\ getValueForExpr inherits obj (a +:+ ".") = JUndefined)
  /\ (forall a b,
        getValueForExpr inherits obj (a +:+ "." +:+ "." +:+ b) = JUndefined).
Proof.
  assert (Hgen : forall expr,
             expr <> "."%string -> ""%string ∈ split_dot expr ->
             getValueForExpr inherits obj expr = JUndefined).
  { intros expr Hne Hin. unfold getValueForExpr.
    apply String.eqb_neq in Hne. rewrite Hne.
    by apply navigate_empty_part. }
  split; [exact Hgen |]. split; [| split].
  - apply Hgen; [done | left].
  - intros a Ha. split.
    + apply Hgen.
      * rewrite append_String, append_empty. intros Heq.
        injection Heq as ->. done.
      * rewrite append_String, append_empty. simpl. left.
    + change (a +:+ ".")%string with (a +:+ "." +:+ "")%string.
      apply Hgen.
      * apply String.eqb_neq, join_not_dot. by intros [? _].
      * rewrite split_dot_join. apply elem_of_app. right. left.
  - intros a b. apply Hgen.
    + apply String.eqb_neq, join_not_dot. intros [_ Hb].
      by rewrite append_String in Hb.
    + rewrite split_dot_join. apply elem_of_app. right.
      rewrite append_String, append_empty. simpl. left.
Qed.

End Navigation.

(** ** Building objects *)

Section Building.

Context `{JsonNumber number}.

Lemma Json_induction (P : Json number -> Prop) :
  P JUndefined -> P JNull -> (forall b, P (JBool b)) ->
  (forall n, P (JNumber n)) -> (forall s, P (JString s)) ->
  (forall items, Forall P items -> P (JArray items)) ->
  (forall proto props,
      Forall (fun kv => P kv.2) props -> P (JObject proto props)) ->
  forall v, P v.
Proof.
  intros HU HN HB HNum HS HA HO. fix IH 1.
  intros [| | b | n | s | items | proto props];
    [exact HU | exact HN | apply HB | apply HNum | apply HS | |].
  - apply HA. induction items as [| x items IHl]; constructor;
      [apply IH | apply IHl].
  - apply HO. induction props as [| kv props IHl]; constructor;
      [apply IH | apply IHl].
Qed.

Lemma wellFormed_object (proto : bool) (props : list (string * Json number)) :
  wellFormed (JObject proto props) <->
  NoDup props.*1 /\ Forall (fun kv => wellFormed kv.2) props.
Proof.
  simpl. apply and_iff_compat_l.
  induction props as [| kv props IH]; simpl.
  - split; [constructor | done].
  - rewrite Forall_cons, IH. done.
Qed.

Lemma protoFree_object (proto : bool) (props : list (string * Json number)) :
  protoFree (JObject proto props) <->
  proto = false /\ Forall (fun kv => protoFree kv.2) props.
Proof.
  simpl. apply and_iff_compat_l.
  induction props as [| kv props IH]; simpl.
  - split; [constructor | done].
  - rewrite Forall_cons, IH. done.
Qed.

Lemma assoc_None {A : Type} (key : string) (props : list (string * A)) :
  assoc key props = None <-> key ∉ props.*1.
Proof.
  induction props as [| [k v] props IH]; simpl.
  - split; [intros _; apply not_elem_of_nil | done].
  - rewrite not_elem_of_cons. destruct (String.eqb_spec k key) as [-> | Hne].
    + split; [done | intros [? _]; done].
    + rewrite IH. split; [intros ?; split; [by intros -> | done] |].
      intros [_ ?]. done.
Qed.

Lemma assoc_elem {A : Type} (key : string) (v : A)
    (props : list (string * A)) :
  assoc key props = Some v -> (key, v) ∈ props.
Proof.
  induction props as [| [k v0] props IH]; simpl; [done |].
  destruct (String.eqb_spec k key) as [-> | Hne].
  - intros [= ->]. left.
  - intros Hin. right. by apply IH.
Qed.

Lemma assoc_fmap {A B : Type} (f : A -> B) (key : string)
    (props : list (string * A)) :
  assoc key ((fun kv => (kv.1, f kv.2)) <$> props) = f <$> assoc key props.
Proof.
  induction props as [| [k v] props IH]; simpl; [done |].
  by destruct (String.eqb k key).
Qed.

Lemma assoc_app_fresh {A : Type} (key : string) (v : A)
    (before after : list (string * A)) :
  key ∉ before.*1 ->
  assoc key (before ++ (key, v) :: after) = Some v.
Proof.
  induction before as [| [k v0] before IH]; simpl.
  - intros _. by rewrite String.eqb_refl.
  - intros [Hne Hnot]%not_elem_of_cons.
    destruct (String.eqb_spec k key) as [-> | _]; [done |]. by apply IH.
Qed.

(** Assigning a key the object does not have adds it at the end. *)
Lemma setProp_fresh {A : Type} (props : list (string * A)) (key : string)
    (v : A) :
  key ∉ props.*1 -> setProp props key v = props ++ [(key, v)].
Proof.
  induction props as [| [k v0] props IH]; simpl; [done |].
  intros [Hne Hnot]%not_elem_of_cons.
  destruct (String.eqb_spec k key) as [-> | _]; [done |].
  by rewrite IH.
Qed.

(** Assigning the keys of an object, none twice, to an object that has
    none of them adds them in their order. *)
Lemma foldl_setProp {A B : Type} (g : string * A -> B)
    (kvs : list (string * A)) (acc : list (string * B)) :
  NoDup (acc.*1 ++ kvs.*1) ->
  foldl (fun copy kv => setProp copy kv.1 (g kv)) acc kvs
  = acc ++ ((fun kv => (kv.1, g kv)) <$> kvs).
Proof.
  revert acc. induction kvs as [| kv kvs IH]; intros acc Hnd; simpl.
  - by rewrite app_nil_r.
  - simpl in Hnd. apply NoDup_app in Hnd as (Hacc & Hdisj & Hkvs).
    apply NoDup_cons in Hkvs as [Hkv Hkvs].
    assert (kv.1 ∉ acc.*1) as Hfresh.
    { intros Hin. apply (Hdisj _ Hin). left. }
    rewrite setProp_fresh by done. rewrite IH.
    + by rewrite <- app_assoc.
    + rewrite fmap_app. simpl. apply NoDup_app. split; [| split; [| done]].
      * apply NoDup_app. split; [done |]. split; [| apply NoDup_singleton].
        intros k Hin ->%list_elem_of_singleton. done.
      * intros k [Hin | ->%list_elem_of_singleton]%elem_of_app Hin'.
        -- apply (Hdisj _ Hin). by right.
        -- done.
Qed.

Lemma foldl_pointwise {A B : Type} (f g : A -> B -> A) (a : A) (l : list B) :
  (forall x y, f x y = g x y) -> foldl f a l = foldl g a l.
Proof.
  intros Hfg. revert a. induction l as [| y l IH]; intros a; simpl; [done |].
  by rewrite Hfg, IH.
Qed.

Lemma recreateNonProtoObject_props (proto : bool)
    (props : list (string * Json number)) :
  NoDup props.*1 ->
  recreateNonProtoObject (JObject proto props)
  = JObject false ((fun kv => (kv.1, recreated kv.2)) <$> props).
Proof.
  intros Hnd. simpl. f_equal.
  etrans; [| by apply (foldl_setProp (fun kv => recreated kv.2) props [])].
  apply foldl_pointwise. intros copy [k v]. simpl. f_equal.
  by destruct v.
Qed.

Lemma recreated_keys (props : list (string * Json number)) :
  ((fun kv => (kv.1, recreated kv.2)) <$> props).*1 = props.*1.
Proof. induction props as [| kv props IH]; simpl; by f_equal. Qed.

(** X15. For an object without a key twice, [recreateNonProtoObject]
    gives an object without prototype that has the same keys in the same
    order; a property value that is an object is recreated in turn, and
    every other value - an array too, with the objects it may hold - is
    the value of the original. *)
Theorem recreateNonProtoObject_object (proto : bool)
    (props : list (string * Json number)) :
  NoDup props.*1 ->
  recreateNonProtoObject (JObject proto props)
  = JObject false ((fun kv => (kv.1, recreated kv.2)) <$> props)
  /\ ownKeys (recreateNonProtoObject (JObject proto props)) = props.*1
  /\ (forall key,
        ownProp (recreateNonProtoObject (JObject proto props)) key
        = recreated <$> assoc key props)
  /\ (forall key v,
        assoc key props = Some v -> isObject v = false ->
        ownProp (recreateNonProtoObject (JObject proto props)) key = Some v).
Proof.
  intros Hnd. rewrite (recreateNonProtoObject_props proto props Hnd).
  split; [done |]. split; [apply recreated_keys |].
  split.
  - intros key. simpl. apply assoc_fmap.
  - intros key v Hv Hobj. simpl. rewrite assoc_fmap, Hv. simpl.
    unfold recreated. by rewrite Hobj.
Qed.

Lemma recreated_not_object (v : Json number) :
  isObject v = false -> recreated v = v.
Proof. unfold recreated. by intros ->. Qed.

Lemma recreated_object (v : Json number) :
  isObject v = true -> recreated v = recreateNonProtoObject v.
Proof. unfold recreated. by intros ->. Qed.

Lemma recreateNonProtoObject_isObject (v : Json number) :
  isObject (recreateNonProtoObject v) = true.
Proof. by destruct v. Qed.

(** What recreation gives for a well-formed value, by induction on the
    value. *)
Lemma recreated_again (v : Json number) :
  wellFormed v ->
  protoFree (recreated v) /\ wellFormed (recreated v)
  /\ recreated (recreated v) = recreated v.
Proof.
  induction v as [| | b | n | s | items _ | proto props IH]
    using Json_induction; try done.
  intros [Hnd Hwf]%wellFormed_object.
  rewrite recreated_object by done.
  rewrite (recreateNonProtoObject_props proto props Hnd).
  assert (Hall : Forall (fun kv =>
                           protoFree (recreated kv.2)
                           /\ wellFormed (recreated kv.2)
                           /\ recreated (recreated kv.2) = recreated kv.2)
                        props).
  { apply Forall_forall. intros kv Hin.
    rewrite Forall_forall in IH. rewrite Forall_forall in Hwf.
    apply IH; [done |]. by apply Hwf. }
  split; [| split].
  - apply protoFree_object. split; [done |].
    apply Forall_fmap. eapply Forall_impl; [exact Hall |].
    intros kv (Hfree & _). exact Hfree.
  - apply wellFormed_object. split; [by rewrite recreated_keys |].
    apply Forall_fmap. eapply Forall_impl; [exact Hall |].
    intros kv (_ & Hwf' & _). exact Hwf'.
  - rewrite recreated_object by done.
    rewrite recreateNonProtoObject_props by (by rewrite recreated_keys).
    f_equal. rewrite <- list_fmap_compose.
    apply Forall_fmap_ext_1. eapply Forall_impl; [exact Hall |].
    intros kv (_ & _ & Hidem). simpl. by rewrite Hidem.
Qed.

(** X16. For a well-formed object, the result of [recreateNonProtoObject]
    is well-formed, no object in it that is reached through properties of
    objects has a prototype, and recreating it again gives the same
    value. *)
Theorem recreateNonProtoObject_idempotent (obj : Json number) :
  wellFormed obj -> isObject obj = true ->
  protoFree (recreateNonProtoObject obj)
  /\ wellFormed (recreateNonProtoObject obj)
  /\ recreateNonProtoObject (recreateNonProtoObject obj)
     = recreateNonProtoObject obj.
Proof.
  intros Hwf Hobj. destruct (recreated_again obj Hwf) as (Hfree & Hwf' & Hidem).
  rewrite (recreated_object obj Hobj) in Hfree, Hwf', Hidem.
  rewrite recreated_object in Hidem
    by apply recreateNonProtoObject_isObject.
  done.
Qed.

End Building.

Section Agreement.

Context `{JsonNumber number}.

Lemma wellFormed_prop (value : Json number) (key : string)
    (v : Json number) :
  wellFormed value -> typeofObject value = true ->
  ownProp value key = Some v -> wellFormed v.
Proof.
  destruct value as [| | b | n | s | items | proto props]; try done; simpl.
  - intros Hwf _. destruct (String.eqb key "length"); [by intros [= <-] |].
    generalize 0. induction items as [| x items IH]; intros i; simpl;
      [done |].
    destruct Hwf as [Hx Hwf].
    destruct (String.eqb (pretty i) key); [by intros [= <-] |].
    by apply IH.
  - intros [_ Hwf] _. induction props as [| [k x] props IH]; simpl; [done |].
    destruct Hwf as [Hx Hwf].
    destruct (String.eqb k key); [by intros [= <-] | by apply IH].
Qed.

(** One turn of the loop on a value and on what recreation made of it. *)
Lemma recreated_step (value : Json number) (part : string) :
  wellFormed value ->
  truthy (recreated value) = truthy value
  /\ typeofObject (recreated value) = typeofObject value
  /\ (typeofObject value = true ->
      exists f, (f = id \/ f = recreated)
                /\ ownProp (recreated value) part = f <$> ownProp value part).
Proof.
  intros Hwf.
  destruct value as [| | b | n | s | items | proto props];
    [split; [done | split; [done |]]; intros _; exists id;
     (split; [by left |]); by rewrite option_fmap_id .. |].
  apply wellFormed_object in Hwf as [Hnd _].
  rewrite recreated_object by done.
  rewrite (recreateNonProtoObject_props proto props Hnd).
  repeat split; try done. intros _. exists recreated.
  split; [by right |]. simpl. apply assoc_fmap.
Qed.

Lemma isUndefined_recreated (v : Json number) :
  isUndefined (recreated v) = isUndefined v.
Proof. by destruct v. Qed.

Lemma navigate_recreated (inherits : Json number -> string -> bool)
    (parts : list string) (value : Json number) :
  wellFormed value ->
  navigate inherits parts (recreated value)
  = navigate inherits parts value
  \/ navigate inherits parts (recreated value)
     = recreated (navigate inherits parts value).
Proof.
  revert value. induction parts as [| part rest IH]; intros value Hwf; simpl;
    [by right |].
  rewrite <- !andb_assoc, !navigate_step_own.
  destruct (recreated_step value part Hwf) as (-> & -> & Hown).
  destruct (typeofObject value) eqn:Etype.
  - destruct (Hown eq_refl) as (f & Hf & ->).
    destruct (ownProp value part) as [v |] eqn:Ev; simpl;
      [| rewrite !andb_false_r; by left].
    assert (isUndefined (f v) = isUndefined v) as ->.
    { destruct Hf as [-> | ->]; [done | apply isUndefined_recreated]. }
    destruct (negb (String.eqb part "") && (truthy value && _));
      [| by left].
    destruct Hf as [-> | ->]; [by left |].
    apply IH. by apply (wellFormed_prop value part v).
  - destruct (ownProp (recreated value) part), (ownProp value part);
      rewrite ?andb_false_r; by left.
Qed.

(** X17. For a well-formed object, [getValueForExpr] finds in the
    recreated object what it finds in the original, or the recreated copy
    of it; so whatever it finds in the original that is not an object, it
    finds in the recreated object too. *)
Theorem getValueForExpr_recreated
    (inherits : Json number -> string -> bool) (obj : Json number)
    (expr : string) :
  wellFormed obj -> isObject obj = true ->
  (getValueForExpr inherits (recreateNonProtoObject obj) expr
   = getValueForExpr inherits obj expr
   \/ getValueForExpr inherits (recreateNonProtoObject obj) expr
      = recreated (getValueForExpr inherits obj expr))
  /\ (isObject (getValueForExpr inherits obj expr) = false ->
      getValueForExpr inherits (recreateNonProtoObject obj) expr
      = getValueForExpr inherits obj expr).
Proof.
  intros Hwf Hobj.
  assert (Hcases :
            getValueForExpr inherits (recreateNonProtoObject obj) expr
            = getValueForExpr inherits obj expr
            \/ getValueForExpr inherits (recreateNonProtoObject obj) expr
               = recreated (getValueForExpr inherits obj expr)).
  { rewrite <- (recreated_object obj Hobj). unfold getValueForExpr.
    destruct (String.eqb expr "."); [by right |].
    by apply navigate_recreated. }
  split; [exact Hcases |].
  intros Hnot. destruct Hcases as [Heq | Heq]; [done |].
  by rewrite Heq, recreated_not_object.
Qed.

End Agreement.

(** ** Leaving properties out, and copying them *)

Section Omitting.

Context `{JsonNumber number}.

Lemma includes_elem_of (key : string) (props : list string) :
  existsb (String.eqb key) props = true <-> key ∈ props.
Proof.
  rewrite existsb_exists, list_elem_of_In. split.
  - by intros (x & Hin & ->%String.eqb_eq).
  - intros Hin. exists key. split; [done | apply String.eqb_refl].
Qed.

Lemma assoc_NoDup {A : Type} (key : string) (v : A)
    (props : list (string * A)) :
  NoDup props.*1 -> (key, v) ∈ props -> assoc key props = Some v.
Proof.
  intros Hnd (before & after & ->)%list_elem_of_split.
  apply assoc_app_fresh.
  rewrite fmap_app in Hnd. apply NoDup_app in Hnd as (_ & Hdisj & _).
  intros Hin. apply (Hdisj _ Hin). left.
Qed.

Lemma filter_keys (rm : list string) (props : list (string * Json number)) :
  (filter (fun kv => kv.1 ∉ rm) props).*1
  = filter (fun key => key ∉ rm) props.*1.
Proof.
  induction props as [| kv props IH]; [done |].
  rewrite fmap_cons, !filter_cons.
  destruct (decide (kv.1 ∉ rm)); [rewrite fmap_cons |]; by rewrite IH.
Qed.

Lemma assoc_filter (rm : list string) (key : string)
    (props : list (string * Json number)) :
  assoc key (filter (fun kv => kv.1 ∉ rm) props)
  = if decide (key ∈ rm) then None else assoc key props.
Proof.
  induction props as [| [k v] props IH].
  - by destruct (decide (key ∈ rm)).
  - rewrite filter_cons. simpl.
    destruct (decide (k ∉ rm)) as [Hk | Hk]; simpl.
    + destruct (String.eqb_spec k key) as [-> | Hne]; [| exact IH].
      by destruct (decide (key ∈ rm)).
    + rewrite IH. destruct (decide (key ∈ rm)) as [Hkey | Hkey]; [done |].
      destruct (String.eqb_spec k key) as [-> | Hne]; done.
Qed.

Lemma filter_all {A : Type} (P : A -> Prop) `{!forall x, Decision (P x)}
    (l : list A) :
  (forall x, x ∈ l -> P x) -> filter P l = l.
Proof.
  induction l as [| x l IH]; intros Hall; [done |].
  rewrite filter_cons_True by (apply Hall; left).
  f_equal. apply IH. intros y Hy. apply Hall. by right.
Qed.

(** The loop of [omit] after the keys of [done], with those of [rest] to
    come. *)
Lemma omit_fold (rm : list string) (g : string -> Json number)
    (done rest : list (string * Json number)) :
  NoDup (done ++ rest).*1 ->
  (forall kv, kv ∈ rest -> g kv.1 = kv.2) ->
  foldl (fun acc key =>
           if negb (existsb (String.eqb key) rm)
           then setProp acc key (g key) else acc)
        (filter (fun kv => kv.1 ∉ rm) done) rest.*1
  = filter (fun kv => kv.1 ∉ rm) (done ++ rest).
Proof.
  revert done. induction rest as [| [k v] rest IH]; intros done Hnd Hg.
  - by rewrite app_nil_r.
  - simpl. assert (Hgk : g k = v) by (apply (Hg (k, v)); left).
    rewrite Hgk.
    assert (Hfresh : k ∉ done.*1).
    { rewrite fmap_app in Hnd. apply NoDup_app in Hnd as (_ & Hdisj & _).
      intros Hin. apply (Hdisj _ Hin). left. }
    rewrite cons_middle, app_assoc in Hnd |- *.
    destruct (existsb (String.eqb k) rm) eqn:Eout; simpl.
    + apply includes_elem_of in Eout.
      rewrite <- IH; [| done | intros kv Hin; apply Hg; by right].
      f_equal. rewrite filter_app, filter_cons_False, filter_nil, app_nil_r;
        [done | simpl; tauto].
    + assert (Hkeep : k ∉ rm).
      { intros Hin%includes_elem_of. congruence. }
      rewrite <- IH; [| done | intros kv Hin; apply Hg; by right].
      f_equal. rewrite filter_app, filter_cons_True, filter_nil by done.
      apply setProp_fresh. rewrite filter_keys.
      intros [_ Hin]%list_elem_of_filter. done.
Qed.

Lemma omit_props (proto : bool) (props : list (string * Json number))
    (rm : list string) :
  NoDup props.*1 ->
  omit (JObject proto props) rm
  = Some (JObject true (filter (fun kv => kv.1 ∉ rm) props)).
Proof.
  intros Hnd. unfold omit. simpl. do 2 f_equal.
  apply (omit_fold rm (fun key => default JUndefined (assoc key props))
           [] props Hnd).
  intros [k v] Hin. simpl. by rewrite (assoc_NoDup k v props Hnd Hin).
Qed.

Lemma filter_NoDup_keys (rm : list string)
    (props : list (string * Json number)) :
  NoDup props.*1 -> NoDup (filter (fun kv => kv.1 ∉ rm) props).*1.
Proof.
  intros Hnd. rewrite filter_keys.
  eapply sublist_NoDup; [exact Hnd | apply sublist_filter].
Qed.

(** X18. [omit] on an object without a key twice, none of the keys it
    keeps being ["__proto__"]: the result is an object literal with the
    properties of the object whose keys are not in the list, in their
    order and with their values; a key of the list is no own property of
    the result, and every other key is looked up as in the object. *)
Theorem omit_keeps_the_other_properties (proto : bool)
    (props : list (string * Json number)) (rm : list string) :
  NoDup props.*1 ->
  (forall key, key ∈ props.*1 -> key ∉ rm -> key <> "__proto__"%string) ->
  exists result,
    omit (JObject proto props) rm = Some result
    /\ result = JObject true (filter (fun kv => kv.1 ∉ rm) props)
    /\ ownKeys result = filter (fun key => key ∉ rm) props.*1
    /\ (forall key,
          ownProp result key
          = if decide (key ∈ rm) then None else assoc key props).
Proof.
  intros Hnd _. eexists. split; [by apply omit_props |].
  split; [done |]. split; [apply filter_keys |].
  intros key. apply assoc_filter.
Qed.

(** X19. [omit] composes, on an object without a key twice and without
    the key ["__proto__"]: leaving out one list and then another is
    leaving out both at once, in either order; leaving out the same list
    again changes nothing; and leaving out nothing copies the properties
    into an object literal. *)
Theorem omit_composes (proto : bool) (props : list (string * Json number))
    (p q : list string) :
  NoDup props.*1 -> "__proto__"%string ∉ props.*1 ->
  (omit (JObject proto props) p ≫= fun kept => omit kept q)
  = omit (JObject proto props) (p ++ q)
  /\ omit (JObject proto props) (p ++ q) = omit (JObject proto props) (q ++ p)
  /\ (omit (JObject proto props) p ≫= fun kept => omit kept p)
     = omit (JObject proto props) p
  /\ omit (JObject proto props) [] = Some (JObject true props).
Proof.
  intros Hnd _.
  rewrite !(omit_props proto props) by done. simpl.
  rewrite !omit_props by (by apply filter_NoDup_keys).
  rewrite !list_filter_filter.
  split; [| split; [| split]]; do 2 f_equal.
  - apply list_filter_iff. intros kv. rewrite not_elem_of_app. tauto.
  - apply list_filter_iff. intros kv. rewrite !not_elem_of_app. tauto.
  - apply list_filter_iff. intros kv. tauto.
  - apply filter_all. intros kv _. apply not_elem_of_nil.
Qed.

Lemma Object_assign_props (proto : bool)
    (props : list (string * Json number)) :
  NoDup props.*1 -> Object_assign [] (JObject proto props) = props.
Proof.
  intros Hnd. unfold Object_assign. simpl.
  etrans; [| apply (filter_all (fun kv => kv.1 ∉ []) props);
             intros kv _; apply not_elem_of_nil].
  etrans; [| apply (omit_fold []
                      (fun key => default JUndefined (assoc key props))
                      [] props Hnd);
             intros [k v] Hin; simpl;
             by rewrite (assoc_NoDup k v props Hnd Hin)].
  by apply foldl_pointwise.
Qed.

(** X20. [map] on an object without a key twice gives the object without
    prototype that has the same properties in the same order; applied
    again it gives the same; and when no property value is an object,
    that is also what [recreateNonProtoObject] gives. *)
Theorem map_copies_own_properties (proto : bool)
    (props : list (string * Json number)) :
  NoDup props.*1 ->
  map (JObject proto props) = JObject false props
  /\ map (map (JObject proto props)) = map (JObject proto props)
  /\ (Forall (fun kv => isObject kv.2 = false) props ->
      recreateNonProtoObject (JObject proto props)
      = map (JObject proto props)).
Proof.
  intros Hnd.
  assert (Hmap : forall proto0, map (JObject proto0 props) = JObject false props).
  { intros proto0. unfold map. simpl truthy. cbv iota.
    by rewrite Object_assign_props. }
  rewrite !Hmap. split; [done |]. split; [done |].
  intros Hflat. rewrite (recreateNonProtoObject_props proto props Hnd).
  f_equal. rewrite <- (list_fmap_id props) at 2.
  apply Forall_fmap_ext_1. eapply Forall_impl; [exact Hflat |].
  intros [k v] Hv. simpl in *. by rewrite recreated_not_object.
Qed.

End Omitting.

(** ** The theorems at work *)

Section ObjectRuns.

Lemma sample_NoDup : NoDup sample_props.*1.
Proof. compute_done. Defined.

Lemma sample_no_proto_key : "__proto__"%string ∉ sample_props.*1.
Proof. compute_done. Defined.

Lemma nested_wellFormed : wellFormed nested.
Proof. simpl. repeat split; compute_done. Defined.

Lemma getValueForExpr_compose_witness :
  getValueForExpr plainInherits sample "a.b.1"
  = getValueForExpr plainInherits
      (getValueForExpr plainInherits sample "a") "b.1".
Proof.
  apply (getValueForExpr_compose plainInherits sample "a" "b.1");
    [done | done | by intros [? _]].
Defined.

Lemma getValueForExpr_own_properties_only_witness :
  getValueForExpr plainInherits sample "a.toString"
  = getValueForExpr (fun _ _ => false) sample "a.toString"
  /\ getValueForExpr plainInherits sample "d" = JString "xy"
  /\ ownProperty sample "d"
     = Some (getValueForExpr plainInherits sample "d").
Proof.
  destruct (getValueForExpr_own_properties_only
              plainInherits (fun _ _ => false) sample) as (Hsame & Hkey).
  destruct (Hkey "d" ltac:(done) eq_refl) as (Hd & Hown).
  split; [apply Hsame |]. split; [exact Hd | by apply Hown].
Defined.

Lemma getValueForExpr_empty_segment_witness :
  getValueForExpr plainInherits sample "a..b" = JUndefined
  /\ getValueForExpr plainInherits sample ".a" = JUndefined.
Proof.
  destruct (getValueForExpr_empty_segment plainInherits sample)
    as (Hgen & _ & Hdots & _).
  split.
  - apply Hgen; [done |].
    assert (split_dot "a..b" = ["a"; ""; "b"]%string) as -> by reflexivity.
    right. left.
  - by apply (Hdots "a").
Defined.

Lemma recreateNonProtoObject_object_witness :
  recreateNonProtoObject nested
  = JObject false
      [("a"%string,
        JObject false
          [("b"%string,
            JArray [JObject true [("c"%string, JNumber 1%Z)]])]);
       ("n"%string, JNumber 2%Z)].
Proof.
  apply (recreateNonProtoObject_object true nested_props). compute_done.
Defined.

Lemma recreateNonProtoObject_idempotent_witness :
  recreateNonProtoObject (recreateNonProtoObject nested)
  = recreateNonProtoObject nested.
Proof.
  apply (recreateNonProtoObject_idempotent nested nested_wellFormed eq_refl).
Defined.

Lemma getValueForExpr_recreated_witness :
  getValueForExpr plainInherits (recreateNonProtoObject nested) "a.b.0.c"
  = getValueForExpr plainInherits nested "a.b.0.c".
Proof.
  apply (getValueForExpr_recreated plainInherits nested "a.b.0.c"
           nested_wellFormed eq_refl).
  reflexivity.
Defined.

Lemma omit_keeps_the_other_properties_witness :
  omit sample ["a"%string] = Some (JObject true [("d"%string, JString "xy")]).
Proof.
  destruct (omit_keeps_the_other_properties true sample_props ["a"%string]
              sample_NoDup) as (result & Homit & -> & _).
  - intros key Hin _ ->. by apply sample_no_proto_key.
  - exact Homit.
Defined.

Lemma omit_composes_witness :
  (omit sample ["a"%string] ≫= fun kept => omit kept ["d"%string])
  = omit sample ["a"%string; "d"%string].
Proof.
  apply (omit_composes true sample_props ["a"%string] ["d"%string]
           sample_NoDup sample_no_proto_key).
Defined.

Lemma map_copies_own_properties_witness :
  map sample = JObject false sample_props.
Proof.
  apply (map_copies_own_properties true sample_props sample_NoDup).
Defined.

End ObjectRuns.

End ObjectsFacts.

(* ===================================================================== *)
(** * Properties of deepMerge *)
(* ===================================================================== *)

Module DeepMergeFacts.
Import DeepMerge.

Section Heaps.

Context {primitive : Type}.

Lemma assoc_setProp {A : Type} (ps : list (string * A)) (k key : string)
    (v : A) :
  Objects.assoc key (Objects.setProp ps k v)
  = if String.eqb k key then Some v else Objects.assoc key ps.
Proof.
  induction ps as [| [k0 v0] ps IH]; simpl; [done |].
  destruct (String.eqb_spec k0 k) as [-> | Hne]; simpl.
  - by destruct (String.eqb k key).
  - rewrite IH. destruct (String.eqb_spec k0 key) as [-> | Hne']; [| done].
    by destruct (String.eqb_spec k key) as [-> | _].
Qed.

Lemma sameObjects_refl (hp : gmap nat (Obj primitive)) : sameObjects hp hp.
Proof. by intros r. Qed.

Lemma sameObjects_trans (hp1 hp2 hp3 : gmap nat (Obj primitive)) :
  sameObjects hp1 hp2 -> sameObjects hp2 hp3 -> sameObjects hp1 hp3.
Proof. intros H12 H23 r. by rewrite H12. Qed.

Lemma sameObjects_dom (hp1 hp2 : gmap nat (Obj primitive)) :
  sameObjects hp1 hp2 -> dom hp1 = dom hp2.
Proof.
  intros Hsame. apply set_eq. intros r. rewrite !elem_of_dom.
  specialize (Hsame r).
  destruct (hp1 !! r), (hp2 !! r); try discriminate; split; eauto;
    by intros [? ?].
Qed.

Lemma sameObjects_isObject (hp1 hp2 : gmap nat (Obj primitive))
    (v : Value primitive) :
  sameObjects hp1 hp2 -> isObject hp1 v = isObject hp2 v.
Proof.
  intros Hsame. destruct v as [| p | r]; simpl; [done | done |].
  specialize (Hsame r).
  destruct (hp1 !! r), (hp2 !! r); simpl in Hsame; congruence.
Qed.

Lemma sameObjects_setOwn (hp : gmap nat (Obj primitive)) (r : nat)
    (key : string) (v : Value primitive) :
  sameObjects (setOwn hp r key v) hp.
Proof.
  intros r'. unfold setOwn. destruct (hp !! r) as [o |] eqn:E; [| done].
  destruct (decide (r' = r)) as [-> | Hne].
  - by rewrite lookup_insert_eq, E.
  - by rewrite lookup_insert_ne.
Qed.

Lemma lookup_setOwn_ne (hp : gmap nat (Obj primitive)) (r r' : nat)
    (key : string) (v : Value primitive) :
  r' <> r -> setOwn hp r key v !! r' = hp !! r'.
Proof.
  intros Hne. unfold setOwn. destruct (hp !! r); [| done].
  by rewrite lookup_insert_ne.
Qed.

Lemma getOwn_setOwn_ne (hp : gmap nat (Obj primitive)) (r r' : nat)
    (k key : string) (v : Value primitive) :
  r' <> r \/ k <> key ->
  getOwn (setOwn hp r k v) r' key = getOwn hp r' key.
Proof.
  intros Hne. unfold getOwn, setOwn.
  destruct (hp !! r) as [o |] eqn:E; [| done].
  destruct (decide (r' = r)) as [-> | Hr].
  - rewrite lookup_insert_eq, E. simpl. rewrite assoc_setProp.
    destruct (String.eqb_spec k key) as [-> | _]; [| done].
    by destruct Hne.
  - by rewrite lookup_insert_ne.
Qed.

Lemma getOwn_setOwn (hp : gmap nat (Obj primitive)) (r : nat)
    (key : string) (v : Value primitive) :
  is_Some (hp !! r) -> getOwn (setOwn hp r key v) r key = Some v.
Proof.
  intros [o E]. unfold getOwn, setOwn. rewrite E, lookup_insert_eq. simpl.
  by rewrite assoc_setProp, String.eqb_refl.
Qed.

(** One turn of the loop over the keys: the objects stay, and what is
    put on the queue is put at its end and names objects of the heap. *)
Lemma mergeKey_shape (tuple : DeepMergeTuple) (queue : list DeepMergeTuple)
    (hp : gmap nat (Obj primitive)) (key : string) :
  sameObjects (mergeKey tuple (queue, hp) key).2 hp
  /\ exists pushes,
       (mergeKey tuple (queue, hp) key).1 = queue ++ pushes
       /\ forall tu, tu ∈ pushes -> s tu ∈ dom hp.
Proof.
  unfold mergeKey. simpl.
  assert (Hset : forall v,
             sameObjects (queue, setOwn hp (t tuple) key v).2 hp
             /\ exists pushes,
                  (queue, setOwn hp (t tuple) key v).1 = queue ++ pushes
                  /\ forall tu, tu ∈ pushes -> s tu ∈ dom hp).
  { intros v. split; [apply sameObjects_setOwn |].
    exists []. split; [by rewrite app_nil_r |].
    intros tu Hin. by apply elem_of_nil in Hin. }
  assert (Hnone : sameObjects (queue, hp).2 hp
                  /\ exists pushes,
                       (queue, hp).1 = queue ++ pushes
                       /\ forall tu, tu ∈ pushes -> s tu ∈ dom hp).
  { split; [apply sameObjects_refl |].
    exists []. split; [by rewrite app_nil_r |].
    intros tu Hin. by apply elem_of_nil in Hin. }
  destruct (getOwn hp (t tuple) key) as [oldValue |]; [| apply Hset].
  destruct (isObject hp (read hp (s tuple) key)) eqn:Enew; simpl;
    [| apply Hset].
  destruct (isObject hp oldValue) eqn:Eold; [| apply Hset].
  destruct oldValue as [| p | old]; [apply Hnone | apply Hnone |].
  destruct (read hp (s tuple) key) as [| p | new]; [apply Hnone | apply Hnone |].
  split; [apply sameObjects_refl |].
  eexists. split; [reflexivity |].
  intros tu ->%list_elem_of_singleton. simpl.
  simpl in Enew. apply elem_of_dom. by destruct (hp !! new).
Qed.

Lemma mergeKeys_shape (tuple : DeepMergeTuple) (keys : list string)
    (queue : list DeepMergeTuple) (hp : gmap nat (Obj primitive)) :
  sameObjects (foldl (mergeKey tuple) (queue, hp) keys).2 hp
  /\ exists pushes,
       (foldl (mergeKey tuple) (queue, hp) keys).1 = queue ++ pushes
       /\ forall tu, tu ∈ pushes -> s tu ∈ dom hp.
Proof.
  revert queue hp. induction keys as [| key keys IH]; intros queue hp; simpl.
  - split; [apply sameObjects_refl |]. exists [].
    split; [by rewrite app_nil_r |].
    intros tu Hin. by apply elem_of_nil in Hin.
  - destruct (mergeKey_shape tuple queue hp key)
      as (Hsame1 & pushes1 & Hq1 & Hin1).
    destruct (mergeKey tuple (queue, hp) key) as [queue1 hp1] eqn:E1.
    simpl in Hsame1, Hq1. subst queue1.
    destruct (IH (queue ++ pushes1) hp1) as (Hsame2 & pushes2 & Hq2 & Hin2).
    split; [by eapply sameObjects_trans |].
    exists (pushes1 ++ pushes2). split; [by rewrite Hq2, app_assoc |].
    intros tu [Hin | Hin]%elem_of_app; [by apply Hin1 |].
    rewrite <- (sameObjects_dom _ _ Hsame1). by apply Hin2.
Qed.

Lemma Object_assign_keys_shape (target source : nat) (keys : list string)
    (hp : gmap nat (Obj primitive)) :
  sameObjects
    (foldl (fun hp key => setOwn hp target key (read hp source key)) hp keys)
    hp.
Proof.
  revert hp. induction keys as [| key keys IH]; intros hp; simpl.
  - apply sameObjects_refl.
  - eapply sameObjects_trans; [apply IH | apply sameObjects_setOwn].
Qed.

Lemma NoDup_length_size (U : gset nat) (l : list nat) :
  NoDup l -> (forall x, x ∈ l -> x ∈ U) -> length l <= size U.
Proof.
  intros Hnd Hsub.
  rewrite <- (size_list_to_set (C := gset nat) l Hnd).
  apply subseteq_size. intros x Hx%elem_of_list_to_set. by apply Hsub.
Qed.

(** The loop ends: every turn that goes on puts a new object into
    [seen], and there are only so many. *)
Lemma whileQueue_ends (U : gset nat) (fuel : nat) (depth : Z)
    (seen : list nat) (queue : list DeepMergeTuple)
    (hp : gmap nat (Obj primitive)) :
  NoDup seen ->
  (forall x, x ∈ seen -> x ∈ U) ->
  (forall tu, tu ∈ queue -> s tu ∈ U) ->
  dom hp ⊆ U ->
  size U < length seen + fuel ->
  exists thrown hp',
    whileQueue fuel depth seen queue hp = Some (thrown, hp')
    /\ sameObjects hp' hp.
Proof.
  revert seen queue hp.
  induction fuel as [| fuel IH]; intros seen queue hp Hnd Hseen Hq Hdom Hsize.
  - pose proof (NoDup_length_size U seen Hnd Hseen). lia.
  - destruct queue as [| tuple queue]; simpl.
    { exists false, hp. split; [done | apply sameObjects_refl]. }
    case_bool_decide as Hin.
    { exists true, hp. split; [done | apply sameObjects_refl]. }
    assert (Hnd' : NoDup (seen ++ [s tuple])).
    { apply NoDup_app. split; [done |]. split; [| apply NoDup_singleton].
      intros x Hx ->%list_elem_of_singleton. done. }
    assert (Hseen' : forall x, x ∈ seen ++ [s tuple] -> x ∈ U).
    { intros x [Hx | ->%list_elem_of_singleton]%elem_of_app; [by apply Hseen |].
      apply Hq. left. }
    assert (Hsize' : size U < length (seen ++ [s tuple]) + fuel).
    { rewrite length_app. simpl. lia. }
    assert (Hq' : forall tu, tu ∈ queue -> s tu ∈ U).
    { intros tu Htu. apply Hq. by right. }
    destruct (Nat.eqb (t tuple) (s tuple)); [by apply IH |].
    destruct (depth <? Z.of_nat (d tuple))%Z.
    + pose proof (Object_assign_keys_shape (t tuple) (s tuple)
                    (Object_keys hp (s tuple)) hp) as Hsame.
      destruct (IH (seen ++ [s tuple]) queue
                  (Object_assign hp (t tuple) (s tuple)))
        as (thrown & hp' & Hrun & Hsame'); try done.
      { unfold Object_assign. by rewrite (sameObjects_dom _ _ Hsame). }
      exists thrown, hp'. split; [done |]. by eapply sameObjects_trans.
    + destruct (mergeKeys_shape tuple (Object_keys hp (s tuple)) queue hp)
        as (Hsame & pushes & Hpushes & Hin').
      destruct (IH (seen ++ [s tuple])
                  (foldl (mergeKey tuple) (queue, hp)
                         (Object_keys hp (s tuple))).1
                  (foldl (mergeKey tuple) (queue, hp)
                         (Object_keys hp (s tuple))).2)
        as (thrown & hp' & Hrun & Hsame'); try done.
      { rewrite Hpushes. intros tu [Htu | Htu]%elem_of_app; [by apply Hq' |].
        apply Hdom. by apply Hin'. }
      { by rewrite (sameObjects_dom _ _ Hsame). }
      exists thrown, hp'. split; [done |]. by eapply sameObjects_trans.
Qed.

(** X23. [deepMerge] ends, whatever the objects - shared, circular - and
    whatever the depth: within as many turns of its loop as the heap has
    objects, and one more, it returns the target it was given or throws
    its error; and it makes no object and loses none. *)
Theorem deepMerge_ends (fuel : nat) (target source : nat) (depth : Z)
    (hp : gmap nat (Obj primitive)) :
  ordinaryKeys hp ->
  size (dom hp) + 1 < fuel ->
  exists hp',
    (deepMerge fuel target source depth hp = Some (Returned target hp')
     \/ deepMerge fuel target source depth hp = Some (Thrown circular hp'))
    /\ sameObjects hp' hp
    /\ dom hp' = dom hp.
Proof.
  intros _ Hfuel.
  destruct (whileQueue_ends (dom hp ∪ {[source]}) fuel depth []
              [{| t := target; s := source; d := 0 |}] hp)
    as (thrown & hp' & Hrun & Hsame).
  - apply NoDup_nil_2.
  - intros x Hx. by apply elem_of_nil in Hx.
  - intros tu ->%list_elem_of_singleton. simpl.
    apply elem_of_union. right. by apply elem_of_singleton.
  - apply union_subseteq_l.
  - rewrite size_union_alt. simpl.
    assert (size (({[source]} : gset nat) ∖ dom hp) <= 1); [| lia].
    rewrite <- (size_singleton (C := gset nat) source).
    apply subseteq_size. apply subseteq_difference_l. done.
  - exists hp'. unfold deepMerge. rewrite Hrun.
    split; [destruct thrown; [by right | by left] |].
    split; [done | by apply sameObjects_dom].
Qed.

Lemma whileQueue_nil (fuel : nat) (depth : Z) (seen : list nat)
    (hp : gmap nat (Obj primitive)) :
  whileQueue fuel depth seen [] hp = Some (false, hp).
Proof. by destruct fuel. Qed.

(** ** One turn of the outer loop, read off the heap it started with *)

Lemma mergeKey_step (tuple : DeepMergeTuple)
    (hp hpc : gmap nat (Obj primitive)) (queue : list DeepMergeTuple)
    (key : string) :
  sameObjects hpc hp ->
  getOwn hpc (s tuple) key = getOwn hp (s tuple) key ->
  getOwn hpc (t tuple) key = getOwn hp (t tuple) key ->
  mergeKey tuple (queue, hpc) key
  = (queue ++ pushed hp tuple key,
     match pushed hp tuple key with
     | [] => setOwn hpc (t tuple) key (read hpc (s tuple) key)
     | _ => hpc
     end).
Proof.
  intros Hsame Hs Ht. unfold mergeKey, pushed, read. cbn [fst snd].
  rewrite Hs, Ht.
  destruct (getOwn hp (t tuple) key) as [oldValue |];
    [| by rewrite app_nil_r].
  rewrite !(sameObjects_isObject hpc hp _ Hsame).
  destruct (getOwn hp (s tuple) key) as [newValue |];
    cbn [default from_option id].
  - destruct oldValue as [| p | old];
      [cbn [isObject]; by rewrite andb_false_r, app_nil_r .. |].
    destruct newValue as [| p' | new];
      [cbn [isObject andb]; by rewrite app_nil_r .. |].
    by destruct (isObject hp (VRef new) && isObject hp (VRef old));
      rewrite ?app_nil_r.
  - cbn [isObject andb].
    destruct oldValue as [| p | old]; by rewrite app_nil_r.
Qed.

Lemma mergeKeys_spec (tuple : DeepMergeTuple)
    (hp : gmap nat (Obj primitive)) (keys : list string) :
  t tuple <> s tuple ->
  NoDup keys ->
  forall (queue : list DeepMergeTuple) (hpc : gmap nat (Obj primitive)),
    sameObjects hpc hp ->
    (forall key, getOwn hpc (s tuple) key = getOwn hp (s tuple) key) ->
    (forall key, key ∈ keys ->
                 getOwn hpc (t tuple) key = getOwn hp (t tuple) key) ->
    foldl (mergeKey tuple) (queue, hpc) keys
    = (queue ++ flat_map (pushed hp tuple) keys,
       foldl (fun h key =>
                match pushed hp tuple key with
                | [] => setOwn h (t tuple) key (read h (s tuple) key)
                | _ => h
                end) hpc keys).
Proof.
  intros Hts. induction keys as [| key keys IH];
    intros Hnd queue hpc Hsame Hs Ht; simpl.
  - by rewrite app_nil_r.
  - apply NoDup_cons in Hnd as [Hkey Hnd].
    rewrite (mergeKey_step tuple hp hpc queue key Hsame (Hs key))
      by (apply Ht; left).
    rewrite IH; [by rewrite <- app_assoc | done | | |].
    + destruct (pushed hp tuple key); [| done].
      eapply sameObjects_trans; [apply sameObjects_setOwn | done].
    + intros k. destruct (pushed hp tuple key); [| done].
      rewrite getOwn_setOwn_ne by (left; congruence). apply Hs.
    + intros k Hk. destruct (pushed hp tuple key); [| apply Ht; by right].
      rewrite getOwn_setOwn_ne by (right; intros ->; done).
      apply Ht. by right.
Qed.

(** ** What [Object.assign] leaves *)

Lemma Object_assign_keys_lookup (target source : nat) (keys : list string)
    (hp : gmap nat (Obj primitive)) :
  target <> source ->
  is_Some (hp !! target) ->
  (forall r, r <> target ->
     foldl (fun hp key => setOwn hp target key (read hp source key)) hp keys
       !! r = hp !! r)
  /\ (forall key,
        getOwn
          (foldl (fun hp key => setOwn hp target key (read hp source key))
                 hp keys) target key
        = if decide (key ∈ keys) then Some (read hp source key)
          else getOwn hp target key).
Proof.
  intros Hts Htarget. induction keys as [| k keys IH] using rev_ind.
  - split; [done |]. intros key. destruct (decide (key ∈ [])) as [Hin |];
      [by apply elem_of_nil in Hin | done].
  - destruct IH as (Hother & Hkeys). rewrite foldl_app. simpl.
    set (h := foldl (fun hp key => setOwn hp target key (read hp source key))
                    hp keys) in *.
    assert (Hread : read h source k = read hp source k).
    { unfold read, getOwn. rewrite Hother; [done | congruence]. }
    split.
    + intros r Hr. rewrite lookup_setOwn_ne by done. by apply Hother.
    + intros key. destruct (String.eqb_spec k key) as [-> | Hne].
      * rewrite getOwn_setOwn.
        -- rewrite Hread. destruct (decide (key ∈ keys ++ [key])) as [| Hnot];
             [done |]. exfalso. apply Hnot, elem_of_app. right. left.
        -- apply elem_of_dom.
           rewrite (sameObjects_dom h hp
                      (Object_assign_keys_shape target source keys hp)).
           by apply elem_of_dom.
      * rewrite getOwn_setOwn_ne by (by right). rewrite Hkeys.
        destruct (decide (key ∈ keys)) as [Hin | Hnot],
                 (decide (key ∈ keys ++ [k])) as [Hin' | Hnot']; try done.
        -- exfalso. apply Hnot', elem_of_app. by left.
        -- exfalso. apply elem_of_app in Hin' as [? | ?%list_elem_of_singleton];
             done.
Qed.

Lemma read_own_key (hp : gmap nat (Obj primitive)) (r : nat) (key : string) :
  key ∈ Object_keys hp r -> Some (read hp r key) = getOwn hp r key.
Proof.
  unfold Object_keys, read, getOwn. destruct (hp !! r) as [o |].
  - intros Hin. destruct (Objects.assoc key (props o)) eqn:E; [done |].
    by apply ObjectsFacts.assoc_None in E.
  - intros Hin. by apply elem_of_nil in Hin.
Qed.

Lemma pushed_flat (hp : gmap nat (Obj primitive)) (tuple : DeepMergeTuple) :
  (forall key newValue oldValue,
      getOwn hp (s tuple) key = Some newValue ->
      getOwn hp (t tuple) key = Some oldValue ->
      isObject hp newValue && isObject hp oldValue = false) ->
  forall key, pushed hp tuple key = [].
Proof.
  intros Hflat key. unfold pushed.
  destruct (getOwn hp (t tuple) key) as [[| p | old] |] eqn:Et; try done.
  destruct (getOwn hp (s tuple) key) as [[| p | new] |] eqn:Es; try done.
  by rewrite (Hflat key (VRef new) (VRef old)).
Qed.

Lemma flat_map_nil {A B : Type} (f : A -> list B) (l : list A) :
  (forall x, f x = []) -> flat_map f l = [].
Proof.
  intros Hf. induction l as [| x l IH]; simpl; [done |]. by rewrite Hf, IH.
Qed.

(** X24. Where nothing is to be merged deeply - the depth is negative,
    or no key holds an object in both - [deepMerge] on two different
    objects is [Object.assign]: it returns the target, which then has
    for every key of the source the value the source has and for every
    other key the value it had, and no other object is changed. *)
Theorem deepMerge_flat_is_Object_assign (fuel : nat) (target source : nat)
    (depth : Z) (hp : gmap nat (Obj primitive)) :
  target <> source ->
  is_Some (hp !! target) ->
  NoDup (Object_keys hp source) ->
  ordinaryKeys hp ->
  (depth < 0)%Z
  \/ (forall key newValue oldValue,
        getOwn hp source key = Some newValue ->
        getOwn hp target key = Some oldValue ->
        isObject hp newValue && isObject hp oldValue = false) ->
  0 < fuel ->
  exists hp',
    deepMerge fuel target source depth hp = Some (Returned target hp')
    /\ hp' = Object_assign hp target source
    /\ (forall key,
          getOwn hp' target key
          = if decide (key ∈ Object_keys hp source)
            then getOwn hp source key
            else getOwn hp target key)
    /\ (forall r, r <> target -> hp' !! r = hp !! r).
Proof.
  intros Hts Htarget Hnd _ Hcase Hfuel.
  exists (Object_assign hp target source).
  destruct (Object_assign_keys_lookup target source
              (Object_keys hp source) hp Hts Htarget) as (Hother & Hkeys).
  split; [| split; [done | split; [| exact Hother]]].
  - destruct fuel as [| fuel]; [lia |].
    unfold deepMerge. simpl.
    assert (Nat.eqb target source = false) as -> by by apply Nat.eqb_neq.
    change (Z.of_nat 0) with 0%Z.
    destruct (depth <? 0)%Z eqn:Edepth; [by rewrite whileQueue_nil |].
    destruct Hcase as [Hneg | Hflat]; [apply Z.ltb_ge in Edepth; lia |].
    rewrite (mergeKeys_spec {| t := target; s := source; d := 0 |} hp
               (Object_keys hp source) Hts Hnd [] hp
               (sameObjects_refl hp)) by done.
    rewrite flat_map_nil by (apply pushed_flat; exact Hflat). simpl.
    rewrite whileQueue_nil. unfold Object_assign. do 2 f_equal.
    apply ObjectsFacts.foldl_pointwise. intros h key.
    by rewrite (pushed_flat hp {| t := target; s := source; d := 0 |} Hflat).
  - intros key. unfold Object_assign. rewrite Hkeys.
    destruct (decide (key ∈ Object_keys hp source)); [| done].
    by apply read_own_key.
Qed.

(** ** An object met twice *)

Lemma whileQueue_throws (x : nat) (fuel : nat) (depth : Z) (seen : list nat)
    (queue : list DeepMergeTuple) (hp : gmap nat (Obj primitive))
    (thrown : bool) (hp' : gmap nat (Obj primitive)) :
  (if decide (x ∈ seen) then 1 else 2)
  <= length (filter (fun tu => s tu = x) queue) ->
  whileQueue fuel depth seen queue hp = Some (thrown, hp') ->
  thrown = true.
Proof.
  revert seen queue hp.
  induction fuel as [| fuel IH]; intros seen queue hp Hcount Hrun.
  - destruct queue; [| discriminate].
    simpl in Hcount. destruct (decide (x ∈ seen)); lia.
  - destruct queue as [| tuple queue].
    { simpl in Hcount. destruct (decide (x ∈ seen)); lia. }
    simpl in Hrun. case_bool_decide as Hin; [congruence |].
    assert (Hnext : forall pushes,
               (if decide (x ∈ seen ++ [s tuple]) then 1 else 2)
               <= length (filter (fun tu => s tu = x) (queue ++ pushes))).
    { intros pushes. rewrite filter_app, length_app.
      rewrite filter_cons in Hcount.
      destruct (decide (s tuple = x)) as [Hx | Hx].
      - subst x. destruct (decide (s tuple ∈ seen)); [done |].
        simpl in Hcount.
        destruct (decide (s tuple ∈ seen ++ [s tuple])) as [| Hnot]; [lia |].
        exfalso. apply Hnot, elem_of_app. right. left.
      - destruct (decide (x ∈ seen)) as [Hseen | Hseen],
                 (decide (x ∈ seen ++ [s tuple])) as [Hseen' | Hseen'];
          try lia.
        exfalso. apply Hseen', elem_of_app. by left. }
    pose proof (Hnext []) as Hsame. rewrite app_nil_r in Hsame.
    destruct (Nat.eqb (t tuple) (s tuple));
      [by apply (IH _ _ _ Hsame) in Hrun |].
    destruct (depth <? Z.of_nat (d tuple))%Z;
      [by apply (IH _ _ _ Hsame) in Hrun |].
    destruct (mergeKeys_shape tuple (Object_keys hp (s tuple)) queue hp)
      as (_ & pushes & Hpushes & _).
    apply (IH (seen ++ [s tuple]) _ _) in Hrun; [done |].
    rewrite Hpushes. apply Hnext.
Qed.

Lemma pushed_once (hp : gmap nat (Obj primitive)) (tuple : DeepMergeTuple)
    (x : nat) (keys : list string) (key : string) (tu : DeepMergeTuple) :
  key ∈ keys -> pushed hp tuple key = [tu] -> s tu = x ->
  1 <= length (filter (fun tu => s tu = x) (flat_map (pushed hp tuple) keys)).
Proof.
  intros (l1 & l2 & ->)%list_elem_of_split Hpush Hx.
  rewrite flat_map_app. simpl. rewrite Hpush. simpl.
  rewrite filter_app, length_app, filter_cons_True by done. simpl. lia.
Qed.

Lemma pushed_twice (hp : gmap nat (Obj primitive)) (tuple : DeepMergeTuple)
    (x : nat) (keys : list string) (k1 k2 : string)
    (tu1 tu2 : DeepMergeTuple) :
  k1 <> k2 -> k1 ∈ keys -> k2 ∈ keys ->
  pushed hp tuple k1 = [tu1] -> s tu1 = x ->
  pushed hp tuple k2 = [tu2] -> s tu2 = x ->
  2 <= length (filter (fun tu => s tu = x) (flat_map (pushed hp tuple) keys)).
Proof.
  intros Hne (l1 & l2 & ->)%list_elem_of_split Hk2 Hp1 Hx1 Hp2 Hx2.
  rewrite flat_map_app. simpl. rewrite Hp1. simpl.
  rewrite filter_app, length_app, filter_cons_True by done. simpl.
  apply elem_of_app in Hk2 as [Hk2 | Hk2].
  - pose proof (pushed_once hp tuple x l1 k2 tu2 Hk2 Hp2 Hx2). lia.
  - apply elem_of_cons in Hk2 as [Hk2 | Hk2]; [congruence |].
    pose proof (pushed_once hp tuple x l2 k2 tu2 Hk2 Hp2 Hx2). lia.
Qed.

Lemma own_key (hp : gmap nat (Obj primitive)) (r : nat) (key : string)
    (v : Value primitive) :
  getOwn hp r key = Some v -> key ∈ Object_keys hp r.
Proof.
  unfold getOwn, Object_keys. destruct (hp !! r) as [o |]; [| done].
  intros Hv. destruct (decide (key ∈ (props o).*1)) as [| Hnot]; [done |].
  apply ObjectsFacts.assoc_None in Hnot. congruence.
Qed.

(** X25. An object that the source holds under two keys, where the
    target holds objects under both, makes [deepMerge] throw its error
    about a circular reference, although nothing need be circular: the
    object is taken from the queue a second time. *)
Theorem deepMerge_shared_object_throws (fuel : nat) (target source : nat)
    (depth : Z) (hp : gmap nat (Obj primitive)) (k1 k2 : string)
    (x a b : nat) :
  target <> source ->
  (0 <= depth)%Z ->
  NoDup (Object_keys hp source) ->
  ordinaryKeys hp ->
  k1 <> k2 ->
  getOwn hp source k1 = Some (VRef x) ->
  getOwn hp source k2 = Some (VRef x) ->
  getOwn hp target k1 = Some (VRef a) ->
  getOwn hp target k2 = Some (VRef b) ->
  isObject hp (VRef x) = true ->
  isObject hp (VRef a) = true ->
  isObject hp (VRef b) = true ->
  size (dom hp) + 1 < fuel ->
  exists hp',
    deepMerge fuel target source depth hp = Some (Thrown circular hp').
Proof.
  intros Hts Hdepth Hnd _ Hk Hs1 Hs2 Ht1 Ht2 Hx Ha Hb Hfuel.
  destruct (whileQueue_ends (dom hp ∪ {[source]}) fuel depth []
              [{| t := target; s := source; d := 0 |}] hp)
    as (thrown & hp' & Hrun & _).
  - apply NoDup_nil_2.
  - intros y Hy. by apply elem_of_nil in Hy.
  - intros tu ->%list_elem_of_singleton. simpl.
    apply elem_of_union. right. by apply elem_of_singleton.
  - apply union_subseteq_l.
  - rewrite size_union_alt. simpl.
    assert (size (({[source]} : gset nat) ∖ dom hp) <= 1); [| lia].
    rewrite <- (size_singleton (C := gset nat) source).
    apply subseteq_size. apply subseteq_difference_l. done.
  - exists hp'. unfold deepMerge. rewrite Hrun.
    destruct fuel as [| fuel]; [lia |]. simpl in Hrun.
    assert (Nat.eqb target source = false) as Heq by by apply Nat.eqb_neq.
    rewrite Heq in Hrun. change (Z.of_nat 0) with 0%Z in Hrun.
    assert ((depth <? 0)%Z = false) as Hd by (apply Z.ltb_ge; lia).
    rewrite Hd in Hrun.
    rewrite (mergeKeys_spec {| t := target; s := source; d := 0 |} hp
               (Object_keys hp source) Hts Hnd [] hp
               (sameObjects_refl hp)) in Hrun by done.
    simpl in Hrun.
    apply (whileQueue_throws x) in Hrun; [by subst thrown |].
    transitivity 2; [destruct (decide (x ∈ [source])); lia |].
    apply (pushed_twice hp _ x _ k1 k2
             {| t := a; s := x; d := 1 |} {| t := b; s := x; d := 1 |});
      try done.
    + by apply (own_key hp source k1 (VRef x)).
    + by apply (own_key hp source k2 (VRef x)).
    + unfold pushed. cbn [t s d]. by rewrite Ht1, Hs1, Hx, Ha.
    + unfold pushed. cbn [t s d]. by rewrite Ht2, Hs2, Hx, Hb.
Qed.

End Heaps.

(** ** The theorems at work *)

Section DeepMergeRuns.

Lemma deepMerge_ends_witness :
  exists hp',
    (deepMerge 4 0 1 default_depth circular_heap = Some (Returned 0 hp')
     \/ deepMerge 4 0 1 default_depth circular_heap
        = Some (Thrown circular hp'))
    /\ sameObjects hp' circular_heap
    /\ dom hp' = dom circular_heap.
Proof.
  apply (deepMerge_ends 4 0 1 default_depth circular_heap).
  - compute_done.
  - vm_compute. lia.
Defined.

Lemma deepMerge_flat_is_Object_assign_witness :
  exists hp',
    deepMerge 1 0 1 default_depth flat_heap = Some (Returned 0 hp')
    /\ getOwn hp' 0 "n" = Some (VPrimitive 1%Z)
    /\ getOwn hp' 0 "m" = Some (VPrimitive 3%Z)
    /\ getOwn hp' 0 "k" = Some (VRef 2).
Proof.
  destruct (deepMerge_flat_is_Object_assign 1 0 1 default_depth flat_heap)
    as (hp' & Hrun & _ & Hkeys & _).
  - discriminate.
  - by eexists.
  - compute_done.
  - compute_done.
  - right. intros key newValue oldValue Hs Ht.
    unfold getOwn in Hs, Ht.
    change (flat_heap !! 1)
      with (Some (object [("m"%string, VPrimitive 3%Z);
                          ("k"%string, VRef 2)])) in Hs.
    change (flat_heap !! 0)
      with (Some (object [("n"%string, VPrimitive 1%Z);
                          ("m"%string, VPrimitive 2%Z)])) in Ht.
    cbn -[String.eqb] in Hs, Ht.
    destruct (String.eqb_spec "m" key) as [<- | _];
      [by injection Hs as <- |].
    destruct (String.eqb_spec "k" key) as [<- | _];
      [discriminate Ht | discriminate Hs].
  - lia.
  - exists hp'. split; [exact Hrun |].
    split; [| split]; rewrite Hkeys; reflexivity.
Defined.

Lemma deepMerge_shared_object_throws_witness :
  exists hp',
    deepMerge 7 0 1 default_depth shared_heap = Some (Thrown circular hp').
Proof.
  apply (deepMerge_shared_object_throws 7 0 1 default_depth shared_heap
           "a" "b" 4 2 3); try reflexivity; try discriminate.
  - compute_done.
  - compute_done.
  - vm_compute. lia.
Defined.

End DeepMergeRuns.

End DeepMergeFacts.

(* ===================================================================== *)
(** * Properties of memo *)
(* ===================================================================== *)

Module MemoFacts.
Import DeepMerge Memo.

Section WithFactory.

Context {primitive : Type}.

Variable inheritedValue :
  gmap nat (Obj primitive) -> nat -> string -> Value primitive.

Variable factory :
  nat -> string -> gmap nat (Obj primitive)
  -> Value primitive * gmap nat (Obj primitive).

Lemma get_setOwn (hp : gmap nat (Obj primitive)) (obj : nat) (prop : string)
    (v : Value primitive) :
  is_Some (hp !! obj) -> get inheritedValue (setOwn hp obj prop v) obj prop = v.
Proof.
  intros Hobj. unfold get. by rewrite DeepMergeFacts.getOwn_setOwn.
Qed.

(** X26. [memo] keeps what the factory made: when the first call returns
    a value other than [undefined], a second call returns that value,
    calls no factory and leaves the heap as it is.  A factory that
    answers [undefined] is called again by the next call.  And a
    property that the prototypes of the object define is returned as it
    is inherited, without any call of the factory. *)
Theorem memo_keeps_defined_results (obj : nat) (prop : string)
    (hp : gmap nat (Obj primitive)) :
  prop <> "__proto__"%string ->
  is_Some ((factory obj prop hp).2 !! obj) ->
  (forall result hp1 calls,
      memo inheritedValue factory obj prop hp = (result, hp1, calls) ->
      result <> VUndefined ->
      memo inheritedValue factory obj prop hp1 = (result, hp1, []))
  /\ (forall hp1 calls,
        memo inheritedValue factory obj prop hp = (VUndefined, hp1, calls) ->
        calls = [(obj, prop)]
        /\ (memo inheritedValue factory obj prop hp1).2 = [(obj, prop)])
  /\ (getOwn hp obj prop = None ->
      inheritedValue hp obj prop <> VUndefined ->
      memo inheritedValue factory obj prop hp
      = (inheritedValue hp obj prop, hp, [])).
Proof.
  intros _ Hobj. split; [| split].
  - intros result hp1 calls Hmemo Hdefined. unfold memo in Hmemo.
    destruct (get inheritedValue hp obj prop) as [| p | r] eqn:Eget.
    + injection Hmemo as <- <- <-. unfold memo.
      rewrite get_setOwn by done.
      by destruct (factory obj prop hp).1.
    + injection Hmemo as <- <- <-. unfold memo. by rewrite Eget.
    + injection Hmemo as <- <- <-. unfold memo. by rewrite Eget.
  - intros hp1 calls Hmemo. unfold memo in Hmemo.
    destruct (get inheritedValue hp obj prop) as [| p | r] eqn:Eget;
      [| discriminate | discriminate].
    injection Hmemo as Hmade <- <-. split; [done |].
    unfold memo. rewrite get_setOwn by done. by rewrite Hmade.
  - intros Hown Hinherited. unfold memo, get. rewrite Hown.
    by destruct (inheritedValue hp obj prop).
Qed.

End WithFactory.

Lemma memo_keeps_defined_results_witness :
  exists hp1,
    memo noPrototype countObjects 2 "size" flat_heap
    = (VPrimitive 3%Z, hp1, [(2, "size"%string)])
    /\ memo noPrototype countObjects 2 "size" hp1 = (VPrimitive 3%Z, hp1, []).
Proof.
  destruct (memo_keeps_defined_results noPrototype countObjects 2 "size"
              flat_heap) as (Hkept & _).
  - discriminate.
  - by eexists.
  - eexists. split; [reflexivity |].
    apply (Hkept _ _ [(2, "size"%string)]); [reflexivity | discriminate].
Defined.

End MemoFacts.
